(** * DENTIST quality control (src/dentist.cpp): a shallow embedding

    The C++ source is embedded function by function.  Conventions:

    - [double] and [float] values are rationals ([Q]).  Where the code turns
      a floating product into an integer (line 67 and line 91) the product is
      rounded to its format first, to nearest with ties to even
      ([round_double], [round_float]), since there a rounding error changes
      the integer; the other operations are exact, and a floating literal
      is the double nearest to it.  The exponent range, NaN
      and infinities are not modelled: each of the two products has a whole
      number as one factor, so it never falls below the smallest subnormal,
      and it exceeds the largest finite value only for factors beyond 1e28.
    - [int], [uint] and [size_t] values are integers ([Z]) with the
      conversions between them written out ([to_uint], [to_int],
      [to_size_t]); vector sizes and positions are [nat].
    - [std::vector] and [arma::vec] are lists, [arma::mat] is a record with
      its two dimensions and an entry function.
    - exceptions are values of [failure], and a computation returns a
      [result]; a store past the end of a vector is the failure [Undefined],
      a read past the end of a std::vector yields an arbitrary value
      ([stray]).
    - loops marked for OpenMP are run in index order.
    - library code (the Mersenne twister, [arma::eig_sym], [std::sqrt],
      [arma::chi2cdf], [log10]) and the two names the file uses without
      declaring them ([chisq], [operator!] on a vector) are Section
      variables. *)

From Stdlib Require Import ZArith QArith Qround Qabs Qpower List Bool Lia Permutation Sorted.
Import ListNotations.

Local Open Scope Z_scope.

#[local] Set Default Proof Using "Type".

(** ** Failures and the result monad *)

Inductive stop_msg : Type :=
| RankLeOne                      (* "Rank of eigen matrix <= 1" *)
| DividingZero (rsq : Q).        (* "Dividing zero: Rsq = ..." *)

Inductive failure : Type :=
| RcppStop (msg : stop_msg)      (* Rcpp::stop *)
| OutOfRange                     (* std::out_of_range, thrown by vector::at *)
| LengthError                    (* std::length_error, thrown by the vector constructor *)
| Undefined                      (* a store outside a vector *)
| OutOfFuel.                     (* a retry loop still running when the fuel ends *)

Inductive result (A : Type) : Type :=
| Ok (a : A)
| Fail (f : failure).

Arguments Ok {A} a.
Arguments Fail {A} f.

Definition bind {A B : Type} (c : result A) (k : A -> result B) : result B :=
  match c with
  | Ok a => k a
  | Fail f => Fail f
  end.

Notation "x <- c ;; k" := (bind c (fun x => k))
  (at level 61, c at next level, right associativity).
Notation "' p <- c ;; k" := (bind c (fun x => match x with p => k end))
  (at level 61, p pattern, c at next level, right associativity).

(** ** Machine integers *)

Definition INT_MAX : Z := 2147483647.

(* conversion to a 32-bit unsigned int *)
Definition to_uint (z : Z) : Z := z mod 2 ^ 32.

(* conversion to a 32-bit int *)
Definition to_int (z : Z) : Z := (z + 2 ^ 31) mod 2 ^ 32 - 2 ^ 31.

(* conversion to a 64-bit size_t *)
Definition to_size_t (z : Z) : Z := z mod 2 ^ 64.

(* conversion of a floating value to an integer drops the fraction *)
Definition Qtruncate (q : Q) : Z :=
  if Qle_bool 0 q then Qfloor q else Qceiling q.

(** ** Floating-point formats *)

(* 2^e *)
Definition pow2 (e : Z) : Q := (2 ^ e)%Q.

(* floor(log2 x) for x > 0 *)
Definition Qlog2 (x : Q) : Z :=
  let d := Z.log2 (Qnum x) - Z.log2 (Zpos (Qden x)) in
  if Qle_bool (pow2 d) x then d else d - 1.

(* the nearest integer, a tie going to the even one *)
Definition round_half_even (x : Q) : Z :=
  let f := Qfloor x in
  match (x - inject_Z f ?= 1 # 2)%Q with
  | Lt => f
  | Eq => if Z.even f then f else f + 1
  | Gt => f + 1
  end.

(* the nearest number to x > 0 among those with a significand of [prec]
   bits: x is scaled so that its integer part has [prec] bits, rounded to
   an integer and scaled back *)
Definition round_positive (prec : Z) (x : Q) : Q :=
  let e := Qlog2 x - (prec - 1) in
  (inject_Z (round_half_even (x / pow2 e)) * pow2 e)%Q.

(* rounding to nearest, ties to even, in the binary format of precision
   [prec] *)
Definition round_binary (prec : Z) (x : Q) : Q :=
  match Qnum x with
  | Z0 => 0%Q
  | Zpos _ => round_positive prec x
  | Zneg _ => (- round_positive prec (- x))%Q
  end.

(* float: 24 bits; double: 53 bits *)
Definition round_float : Q -> Q := round_binary 24.
Definition round_double : Q -> Q := round_binary 53.

(** ** Vectors *)

(* v[i] = x; a position outside the vector is left to the caller to exclude *)
Fixpoint store {A : Type} (v : list A) (i : nat) (x : A) : list A :=
  match v, i with
  | [], _ => []
  | _ :: v', O => x :: v'
  | y :: v', S i' => y :: store v' i' x
  end.

(* std::sort(first, last, less): insertion into the sorted tail.  Where no
   two elements are equivalent under [less] the sorted order is unique, so
   the algorithm chosen does not matter. *)
Fixpoint sort_insert {A : Type} (less : A -> A -> bool) (x : A) (l : list A) : list A :=
  match l with
  | [] => [x]
  | y :: l' => if less x y then x :: y :: l' else y :: sort_insert less x l'
  end.

Fixpoint std_sort {A : Type} (less : A -> A -> bool) (l : list A) : list A :=
  match l with
  | [] => []
  | x :: l' => sort_insert less x (std_sort less l')
  end.

(** ** RandomPartitioner: [sort_indexes] and [generateSetOfNumbers] *)

Definition sort_indexes (v : list Z) (theSize : nat) : list nat :=
  let idx := seq 0 theSize in
  std_sort (fun i1 i2 => nth i1 v 0 <? nth i2 v 0) idx.

Section RandomPartitioner.

(* [dist_rng seed k] is the value of the k-th call [dist(rng)] after
   [std::mt19937 rng(seed)], with [dist] uniform on [0, INT_MAX]. *)
Variable dist_rng : Z -> nat -> Z.

(* the do-while loop of lines 42-54; [k] counts the draws made so far *)
Fixpoint draw_unique (fuel : nat) (seed : Z) (k : nat)
         (numbers : list Z) (index : nat) : result (Z * nat) :=
  match fuel with
  | O => Fail OutOfFuel
  | S fuel' =>
      let tempNum := dist_rng seed k in
      let isUnique := negb (existsb (Z.eqb tempNum) (firstn index numbers)) in
      let tempNum := if isUnique then tempNum else -1 in
      if tempNum =? -1
      then draw_unique fuel' seed (S k) numbers index
      else Ok (tempNum, S k)
  end.

(* the for loop of lines 40-57, with [todo] indices left *)
Fixpoint fill_numbers (fuel : nat) (seed : Z) (k : nat)
         (numbers : list Z) (index todo : nat) : result (list Z) :=
  match todo with
  | O => Ok numbers
  | S todo' =>
      '(tempNum, k') <- draw_unique fuel seed k numbers index ;;
      fill_numbers fuel seed k' (store numbers index tempNum) (S index) todo'
  end.

Definition generateSetOfNumbers (fuel : nat) (SIZE seed : Z) : result (list nat) :=
  if SIZE <? 0 then Fail LengthError
  else
    let n := Z.to_nat SIZE in
    let numbers := repeat 0 n in
    match n with
    | O => Fail Undefined            (* numbers[0] of an empty vector *)
    | S todo =>
        let numbers := store numbers 0 (dist_rng seed 0) in
        numbers <- fill_numbers fuel seed 1 numbers 1 todo ;;
        Ok (sort_indexes numbers (Z.to_nat (to_uint SIZE)))
    end.

(* the generator goes on yielding values that are new to any list short
   of the whole draw space *)
Definition fresh_draws (seed : Z) : Prop :=
  forall (k : nat) (l : list Z),
    Z.of_nat (length l) <= INT_MAX ->
    exists j, dist_rng seed (k + j) <> -1 /\ ~ In (dist_rng seed (k + j)) l.

(* the contract of a uniform generator that the retry loop relies on: every
   value of the draw space [0, INT_MAX] keeps occurring in its output *)
Definition recurrent_draws (seed : Z) : Prop :=
  forall (k : nat) (v : Z),
    0 <= v <= INT_MAX -> exists j, dist_rng seed (k + j) = v.

End RandomPartitioner.

(** ** QuantileEstimator: [getQuantile] and [getQuantile2] *)

(* operator< on doubles *)
Definition Qless (a b : Q) : bool := negb (Qle_bool b a).

(* v.at(pos) *)
Definition vector_at (v : list Q) (pos : Z) : result Q :=
  if pos <? Z.of_nat (length v) then Ok (nth (Z.to_nat pos) v 0%Q)
  else Fail OutOfRange.

(* Line 67: the size is converted to double and multiplied by the quantile,
   the product being rounded to double; [ceil] is exact, and the
   subtraction of 1 is a double operation again.  The resulting integral
   double is converted to [size_t] modulo 2^64, so that -1 becomes the
   largest [size_t]. *)
Definition getQuantile (dat : list Q) (whichQuantile : Q) : result Q :=
  let sortedData := std_sort Qless dat in
  let size := round_double (inject_Z (Z.of_nat (length sortedData))) in
  let product := round_double (size * whichQuantile) in
  let pos :=
    to_size_t (Qtruncate (round_double (inject_Z (Qceiling product) - 1))) in
  vector_at sortedData pos.

Section UncheckedReads.

(* [stray v i] is the value found when [v[i]] reads past the end of [v] *)
Variable stray : list nat -> nat -> nat.

(* v[i] on a std::vector of unsigned integers *)
Definition vread (v : list nat) (i : nat) : nat :=
  match nth_error v i with
  | Some x => x
  | None => stray v i
  end.

(* the loop of line 74, from position [i] on *)
Fixpoint filter_group (dat : list Q) (grouping : list nat) (i : nat) : list Q :=
  match dat with
  | [] => []
  | d :: dat' =>
      if (vread grouping i =? 1)%nat
      then d :: filter_group dat' grouping (S i)
      else filter_group dat' grouping (S i)
  end.

Definition getQuantile2 (dat : list Q) (grouping : list nat) (whichQuantile : Q)
  : result Q :=
  let filteredData := filter_group dat grouping 0 in
  if (length filteredData <? 50)%nat then Ok 0%Q
  else getQuantile filteredData whichQuantile.

End UncheckedReads.

(* The grouped quantile in the words of the specification (section 4.3):
   keep the values whose label equals the chosen one; with fewer than 50 of
   them return 0, otherwise apply the plain rule. *)
Definition spec_grouped_quantile (label : nat) (dat : list Q) (grouping : list nat)
           (q : Q) : result Q :=
  let members := map fst (filter (fun p => (snd p =? label)%nat) (combine dat grouping)) in
  if (length members <? 50)%nat then Ok 0%Q else getQuantile members q.

(** ** Dense matrices *)

Record mat : Type := mkMat {
  n_rows : nat;
  n_cols : nat;
  elem : nat -> nat -> Q
}.

Fixpoint sumQ (n : nat) (f : nat -> Q) : Q :=
  match n with
  | O => 0%Q
  | S n' => (sumQ n' f + f n')%Q
  end.

(* A * B; the products of [oneIteration] have matching inner dimensions.
   The entries are exact sums of exact products: the rounding of the
   library's products, and the order in which it adds, are not modelled, so
   nothing below compares the outcomes of two separate evaluations. *)
Definition mat_mul (A B : mat) : mat :=
  mkMat (n_rows A) (n_cols B)
        (fun i j => sumQ (n_cols A) (fun k => (elem A i k * elem B k j)%Q)).

(* A.t() *)
Definition mat_t (A : mat) : mat :=
  mkMat (n_cols A) (n_rows A) (fun i j => elem A j i).

(* the number of entries of [v] strictly below [tol]: arma::sum(v < tol) *)
Definition count_below (tol : Q) (v : list Q) : nat :=
  length (filter (fun x => Qless x tol) v).

(** ** ImputationEngine: [oneIteration] *)

(* imputedZ, rsqList and zScore_e *)
Record marker_vecs : Type := mkVecs {
  imputedZ : list Q;
  rsq : list Q;
  zScore_e : list Q
}.

Fixpoint for_each {S : Type} (body : S -> nat -> result S) (l : list nat) (s : S)
  : result S :=
  match l with
  | [] => Ok s
  | i :: l' => s' <- body s i ;; for_each body l' s'
  end.

Section ImputationEngine.

(* arma::eig_sym(eigval, eigvec, VV): eigenvalues and eigenvectors *)
Variable eig_sym : mat -> list Q * mat.
(* std::sqrt *)
Variable sqrt : Q -> Q.

(* the literal 0.0001 as a double *)
Definition tolerance : Q := round_double (1 # 10000).

(* the product of an unsigned int and a float, evaluated in float
   (FLT_EVAL_METHOD 0): the integer is converted to float and the product
   is rounded to float *)
Definition float_mul_uint (n : Z) (x : Q) : Q :=
  round_float (round_float (inject_Z n) * x).

(* line 91: the float product is truncated to an unsigned int *)
Definition initial_K (idx : list nat) (nSample : Z) (probSVD : Q) : Z :=
  to_uint (Qtruncate
    (float_mul_uint (Z.min (to_uint (Z.of_nat (length idx))) nSample) probSVD)).

Definition gather_LD_it (LDmat : mat) (idx idx2 : list nat) : mat :=
  mkMat (length idx2) (length idx)
        (fun i k => elem LDmat (nth i idx2 0%nat) (nth k idx 0%nat)).

Definition gather_zScore_eigen (idx : list nat) (zScore : list Q) : mat :=
  mkMat (length idx) 1 (fun i _ => nth (nth i idx 0%nat) zScore 0%Q).

Definition gather_VV (LDmat : mat) (idx : list nat) : mat :=
  mkMat (length idx) (length idx)
        (fun i j => elem LDmat (nth i idx 0%nat) (nth j idx 0%nat)).

(* lines 118-121 *)
Definition capped_K (K : Z) (eigval : list Q) (eigvec : mat) : Z :=
  let nRank := to_int (Z.of_nat (n_rows eigvec)) in
  let nZeros := to_int (Z.of_nat (count_below tolerance eigval)) in
  let nRank := nRank - nZeros in
  Z.min K (to_uint nRank).

(* column j of the loop of lines 128-132, for the m-th selected vector;
   j = n_rows - m - 1 is not negative there, since m < K <= n_rows when
   eig_sym returns an eigenvalue for each row *)
Definition tail_index (eigvec : mat) (m : nat) : nat :=
  Z.to_nat (Z.of_nat (n_rows eigvec) - Z.of_nat m - 1).

Definition select_ui (eigvec : mat) (K : nat) : mat :=
  mkMat (n_rows eigvec) K (fun r m => elem eigvec r (tail_index eigvec m)).

Definition select_wi (eigval : list Q) (eigvec : mat) (K : nat) : mat :=
  mkMat K K (fun l m =>
    if (l =? m)%nat then (1 / nth (tail_index eigvec m) eigval 0)%Q else 0%Q).

(* the body of the loop of lines 140-148 *)
Definition scatter_body (LDmat : mat) (idx2 : list nat) (zScore : list Q)
           (zScore_eigen_imp rsq_eigen : nat -> Q)
           (s : marker_vecs) (i : nat) : result marker_vecs :=
  let imputedZ := store (imputedZ s) (nth i idx2 0%nat) (zScore_eigen_imp i) in
  let rsqList := store (rsq s) (nth i idx2 0%nat) (rsq_eigen i) in
  if Qle_bool 1 (rsq_eigen i)
  then Fail (RcppStop (DividingZero (rsq_eigen i)))
  else
    let j := nth i idx2 0%nat in
    let zScore_e :=
      store (zScore_e s) j
            ((nth j zScore 0 - nth j imputedZ 0)
             / sqrt (elem LDmat j j - nth j rsqList 0))%Q in
    Ok (mkVecs imputedZ rsqList zScore_e).

(* the R-squared of the i-th target marker, line 137 *)
Definition rsq_eigen_of (LD_it ui wi : mat) : nat -> Q :=
  let beta := mat_mul (mat_mul LD_it ui) wi in
  fun i => elem (mat_mul beta (mat_mul (mat_t ui) (mat_t LD_it))) i i.

(* the truncation rank the call settles on, lines 91 and 118-121 *)
Definition rank_K (LDmat : mat) (idx : list nat) (nSample : Z) (probSVD : Q) : Z :=
  let '(eigval, eigvec) := eig_sym (gather_VV LDmat idx) in
  capped_K (initial_K idx nSample probSVD) eigval eigvec.

(* the R-squared values of line 137, one for each position of idx2 *)
Definition computed_rsq (LDmat : mat) (idx idx2 : list nat)
           (nSample : Z) (probSVD : Q) : nat -> Q :=
  let '(eigval, eigvec) := eig_sym (gather_VV LDmat idx) in
  let K := capped_K (initial_K idx nSample probSVD) eigval eigvec in
  rsq_eigen_of (gather_LD_it LDmat idx idx2)
               (select_ui eigvec (Z.to_nat K))
               (select_wi eigval eigvec (Z.to_nat K)).

Definition oneIteration (LDmat : mat) (idx idx2 : list nat) (zScore : list Q)
           (s : marker_vecs) (nSample : Z) (probSVD : Q) : result marker_vecs :=
  let K := initial_K idx nSample probSVD in
  let LD_it := gather_LD_it LDmat idx idx2 in
  let zScore_eigen := gather_zScore_eigen idx zScore in
  let VV := gather_VV LDmat idx in
  let '(eigval, eigvec) := eig_sym VV in
  let K := capped_K K eigval eigvec in
  if K <=? 1 then Fail (RcppStop RankLeOne)
  else
    let ui := select_ui eigvec (Z.to_nat K) in
    let wi := select_wi eigval eigvec (Z.to_nat K) in
    let beta := mat_mul (mat_mul LD_it ui) wi in
    let zScore_eigen_imp := mat_mul beta (mat_mul (mat_t ui) zScore_eigen) in
    let rsq_eigen := rsq_eigen_of LD_it ui wi in
    for_each (scatter_body LDmat idx2 zScore
                           (fun i => elem zScore_eigen_imp i 0%nat) rsq_eigen)
             (seq 0 (length idx2)) s.

End ImputationEngine.

(* The truncation rank in the words of the specification (section 4.2,
   steps 1 and 3): floor(min(|R|, n) * p), the product being the float
   product of the program, capped at the number of eigenvalues that are not
   below the tolerance. *)
Definition effective_rank (eigval : list Q) : nat :=
  length (filter (fun x => Qle_bool tolerance x) eigval).


(** ** SignificanceClassifier and QCOrchestrator: [dentist] *)

(* The arguments of [dentist]; [ncpus] only sets the thread count.  The
   interface requires [LDmat] to be markerSize x markerSize and [zScore] to
   have markerSize entries, so every marker id below markerSize is a valid
   position of both. *)
Record inputs : Type := mkInputs {
  LDmat : mat;
  markerSize : nat;
  nSample : Z;
  zScore : list Q;
  pValueThreshold : Q;
  propSVD : Q;
  gcControl : bool;
  nIter : Z;
  groupingPvalue_thresh : Q;
  seed : Z
}.

(* the local variables of [dentist] that live across rounds *)
Record state : Type := mkState {
  randOrder : list nat;
  idx : list nat;
  idx2 : list nat;
  fullIdx : list nat;
  vecs : marker_vecs;
  iterID : list Z
}.

(* [idx] and [idx2] split the active set with nothing lost and nothing shared *)
Definition partitions (st : state) : Prop :=
  (forall x, In x (fullIdx st) <-> In x (idx st) \/ In x (idx2 st)) /\
  (forall x, In x (idx st) -> ~ In x (idx2 st)) /\
  (length (idx st) + length (idx2 st) = length (fullIdx st))%nat.

(* the three vectors agree at marker j *)
Definition same_at (j : nat) (v w : marker_vecs) : Prop :=
  nth j (imputedZ w) 0%Q = nth j (imputedZ v) 0%Q /\
  nth j (rsq w) 0%Q = nth j (rsq v) 0%Q /\
  nth j (zScore_e w) 0%Q = nth j (zScore_e v) 0%Q.

(* the returned List *)
Record outputs : Type := mkOutputs {
  out_imputedZ : list Q;
  out_rsq : list Q;
  out_zScore_e : list Q;
  out_iterID : list Z;
  out_groupingGWAS : list nat
}.

(* the literal 0.995 as a double *)
Definition q995 : Q := round_double (995 # 1000).

(* the test of lines 238-239 and 251-252 *)
Definition within (g : nat) (d threshold1 threshold0 : Q) : bool :=
  ((g =? 1)%nat && Qle_bool d threshold1) || ((g =? 0)%nat && Qle_bool d threshold0).

(* iterID[i]++ *)
Definition bump (iterID : list Z) (i : nat) : list Z :=
  store iterID i (nth i iterID 0 + 1).

Section QCOrchestrator.

Variable dist_rng : Z -> nat -> Z.
Variable stray : list nat -> nat -> nat.
Variable eig_sym : mat -> list Q * mat.
Variable sqrt : Q -> Q.
(* arma::chi2cdf and log10 *)
Variable chi2cdf : Q -> Q -> Q.
Variable log10 : Q -> Q.
(* [chisq t]: the collection named chisq, which line 261 reads and no line
   declares, as it stands in round t *)
Variable chisq : Z -> list Q.
(* [vec_not v]: the value of [!v] for a std::vector<uint> v, which line 234
   uses and nothing defines *)
Variable vec_not : list nat -> list nat.

Definition minusLogPvalueChisq2 (stat : Q) : Q :=
  let p := (1 - chi2cdf stat 1)%Q in
  (- log10 p)%Q.

(* lines 204-209 *)
Definition classify (inp : inputs) : list nat :=
  map (fun i =>
         let z := nth i (zScore inp) 0%Q in
         if Qless (- log10 (groupingPvalue_thresh inp)) (minusLogPvalueChisq2 (z * z))
         then 1%nat else 0%nat)
      (seq 0 (markerSize inp)).

(* the loops of lines 199-202 and 279-282: each position goes to idx when
   its entry of randOrder exceeds [half], to idx2 otherwise *)
Definition bisect (randOrder : list nat) (half : nat) (positions : list nat)
  : list nat * list nat :=
  (filter (fun i => (half <? vread stray randOrder i)%nat) positions,
   filter (fun i => negb (half <? vread stray randOrder i)%nat) positions).

(* lines 195-214 *)
Definition init (fuel : nat) (inp : inputs) : result state :=
  let M := markerSize inp in
  randOrder <- generateSetOfNumbers dist_rng fuel (to_int (Z.of_nat M)) (seed inp) ;;
  let '(idx, idx2) := bisect randOrder (M / 2) (seq 0 M) in
  Ok (mkState randOrder idx idx2 randOrder
              (mkVecs (repeat 0%Q M) (repeat 0%Q M) (repeat 0%Q M))
              (repeat 0 M)).

(* the three thresholds of lines 232-234 *)
Definition thresholds (diff : list Q) (grouping_tmp : list nat)
  : result (Q * Q * Q) :=
  threshold <- getQuantile diff q995 ;;
  threshold1 <- getQuantile2 stray diff grouping_tmp q995 ;;
  threshold0 <- getQuantile2 stray diff (vec_not grouping_tmp) q995 ;;
  Ok (threshold, threshold1, threshold0).

(* lines 237-242 *)
Definition qc_targets (idx2 : list nat) (diff : list Q) (grouping_tmp : list nat)
           (threshold1 threshold0 : Q) : list nat :=
  map (fun i => nth i idx2 0%nat)
      (filter (fun i => within (nth i grouping_tmp 0%nat) (nth i diff 0%Q)
                               threshold1 threshold0)
              (seq 0 (length diff))).

(* the body of the loop of lines 249-256 on (fullIdx_tmp, iterID) *)
Definition survive_body (groupingGWAS : list nat) (zScore_e : list Q)
           (threshold1 threshold0 : Q) (acc : list nat * list Z) (i : nat)
  : list nat * list Z :=
  let currentDiff := Qabs (nth i zScore_e 0%Q) in
  if within (vread stray groupingGWAS i) currentDiff threshold1 threshold0
  then (fst acc ++ [i], bump (snd acc) i)
  else acc.

(* lines 261-263; nth_element leaves at position size/2 the element that
   sorting would put there.  A median of 0, with which the quotient of line
   267 is not a number, is outside the model. *)
Definition inflationFactor (t : Z) : Q :=
  let sorted := std_sort Qless (chisq t) in
  let medianChisq := nth (length sorted / 2) sorted 0%Q in
  (medianChisq / round_double (456 # 1000))%Q.

(* the markers appended by lines 266-271 *)
Definition gc_retained (inp : inputs) (t : Z) (zScore_e : list Q)
           (fullIdx : list nat) : list nat :=
  filter (fun i =>
            let z := nth i zScore_e 0%Q in
            Qless (z * z / inflationFactor t) (pValueThreshold inp))
         fullIdx.

(* one pass of the loop body, lines 217-282, in round t *)
Definition round (fuel : nat) (inp : inputs) (groupingGWAS : list nat)
           (t : Z) (st : state) : result state :=
  v1 <- oneIteration eig_sym sqrt (LDmat inp) (idx st) (idx2 st) (zScore inp)
                     (vecs st) (nSample inp) (propSVD inp) ;;
  let diff := map (fun j => Qabs (nth j (zScore_e v1) 0%Q)) (idx2 st) in
  let grouping_tmp := map (fun j => vread stray groupingGWAS j) (idx2 st) in
  '(_, threshold1, threshold0) <- thresholds diff grouping_tmp ;;
  let idx2_QCed := qc_targets (idx2 st) diff grouping_tmp threshold1 threshold0 in
  v2 <- oneIteration eig_sym sqrt (LDmat inp) (idx st) idx2_QCed (zScore inp)
                     v1 (nSample inp) (propSVD inp) ;;
  let '(fullIdx_tmp, iterID) :=
    fold_left (survive_body groupingGWAS (zScore_e v2) threshold1 threshold0)
              (fullIdx st) ([], iterID st) in
  let fullIdx_tmp :=
    if gcControl inp
    then fullIdx_tmp ++ gc_retained inp t (zScore_e v2) (fullIdx st)
    else fullIdx_tmp in
  let fullIdx := fullIdx_tmp in
  randOrder <- generateSetOfNumbers dist_rng fuel
                 (to_int (Z.of_nat (length fullIdx))) (20000 + t * 20000) ;;
  let '(idx, idx2) := bisect randOrder (length fullIdx / 2) fullIdx in
  Ok (mkState randOrder idx idx2 fullIdx v2 iterID).

(* the loop of line 216, with [todo] rounds left *)
Fixpoint rounds (fuel : nat) (inp : inputs) (groupingGWAS : list nat)
         (todo : nat) (t : Z) (st : state) : result state :=
  match todo with
  | O => Ok st
  | S todo' =>
      st' <- round fuel inp groupingGWAS t st ;;
      rounds fuel inp groupingGWAS todo' (t + 1) st'
  end.

(* the local variables after [n] passes of the loop *)
Definition state_after (fuel : nat) (inp : inputs) (n : nat) : result state :=
  st0 <- init fuel inp ;;
  rounds fuel inp (classify inp) n 0 st0.

Definition dentist (fuel : nat) (inp : inputs) : result outputs :=
  st <- state_after fuel inp (Z.to_nat (nIter inp)) ;;
  Ok (mkOutputs (imputedZ (vecs st)) (rsq (vecs st)) (zScore_e (vecs st))
                (iterID st) (classify inp)).

(* the target sets handed to [oneIteration] during [todo] rounds: idx2 of
   every round entered (idx2_QCed is drawn from it) *)
Fixpoint targets (fuel : nat) (inp : inputs) (groupingGWAS : list nat)
         (todo : nat) (t : Z) (st : state) : list nat :=
  match todo with
  | O => []
  | S todo' =>
      idx2 st ++
      match round fuel inp groupingGWAS t st with
      | Ok st' => targets fuel inp groupingGWAS todo' (t + 1) st'
      | Fail _ => []
      end
  end.

End QCOrchestrator.

(** ** Views of the code used to state further properties *)

(* ceil(size * q) as line 67 computes it, in double arithmetic *)
Definition quantile_rank (size : nat) (q : Q) : Z :=
  Qceiling (round_double (round_double (inject_Z (Z.of_nat size)) * q)).

(* the position ceil(size * q) - 1 of line 67, as a size_t *)
Definition quantile_position (size : nat) (q : Q) : Z :=
  to_size_t (Qtruncate (round_double (inject_Z (quantile_rank size q) - 1))).

(* the vector [numbers] of [generateSetOfNumbers] as it stands at line 60,
   before the indices are sorted *)
Definition drawn_numbers (dist_rng : Z -> nat -> Z) (fuel : nat) (SIZE seed : Z)
  : result (list Z) :=
  if SIZE <? 0 then Fail LengthError
  else
    match Z.to_nat SIZE with
    | O => Fail Undefined
    | S todo =>
        fill_numbers dist_rng fuel seed 1
                     (store (repeat 0 (S todo)) 0 (dist_rng seed 0%nat)) 1 todo
    end.

(* the comparison of line 28 on the keys [v] *)
Definition key_less (v : list Z) (i1 i2 : nat) : Prop := nth i1 v 0 < nth i2 v 0.

(* the imputed statistics of line 136, one for each position of idx2 *)
Definition computed_imputedZ (eig_sym : mat -> list Q * mat) (LDmat : mat)
           (idx idx2 : list nat) (zScore : list Q) (nSample : Z) (probSVD : Q)
  : nat -> Q :=
  let '(eigval, eigvec) := eig_sym (gather_VV LDmat idx) in
  let K := Z.to_nat (capped_K (initial_K idx nSample probSVD) eigval eigvec) in
  let beta := mat_mul (mat_mul (gather_LD_it LDmat idx idx2) (select_ui eigvec K))
                      (select_wi eigval eigvec K) in
  fun i => elem (mat_mul beta (mat_mul (mat_t (select_ui eigvec K))
                                       (gather_zScore_eigen idx zScore))) i 0%nat.

(* marker j holds what lines 141-147 store for it: the imputed statistic
   [F j], the R-squared [G j], and the quotient of line 147 formed from the
   entries of imputedZ and rsqList at j *)
Definition settled_with (F G : nat -> Q) (sqrt : Q -> Q) (LDmat : mat)
           (zScore : list Q) (j : nat) (s : marker_vecs) : Prop :=
  ((j < length (imputedZ s))%nat -> nth j (imputedZ s) 0%Q = F j) /\
  ((j < length (rsq s))%nat -> nth j (rsq s) 0%Q = G j) /\
  ((j < length (zScore_e s))%nat ->
   nth j (zScore_e s) 0%Q =
   ((nth j zScore 0 - nth j (imputedZ s) 0)
    / sqrt (elem LDmat j j - nth j (rsq s) 0))%Q).

(* the test of lines 251-252 at marker i *)
Definition retained (stray : list nat -> nat -> nat) (groupingGWAS : list nat)
           (zScore_e : list Q) (threshold1 threshold0 : Q) (i : nat) : bool :=
  within (vread stray groupingGWAS i) (Qabs (nth i zScore_e 0%Q))
         threshold1 threshold0.

(** ** Library instances used in the worked examples *)

(* a linear congruential stand-in for the Mersenne twister *)
Definition demo_rng (seed : Z) (k : nat) : Z :=
  (1103515245 * (seed + Z.of_nat k) + 12345) mod 2 ^ 31.

(* a generator that cycles through the draw space *)
Definition cycling_rng (seed : Z) (k : nat) : Z := (seed + Z.of_nat k) mod 2 ^ 31.

(* a generator that counts up from the seed *)
Definition counting_rng (seed : Z) (k : nat) : Z := seed + Z.of_nat k.

Definition demo_stray (v : list nat) (i : nat) : nat := 0%nat.

Definition identity_mat (n : nat) : mat :=
  mkMat n n (fun i j => if (i =? j)%nat then 1%Q else 0%Q).

(* the eigen-decomposition of an identity matrix *)
Definition demo_eig_sym (VV : mat) : list Q * mat :=
  (repeat 1%Q (n_rows VV), identity_mat (n_rows VV)).

(* agrees with the square root at 0 and 1 *)
Definition demo_sqrt (x : Q) : Q := x.

Definition demo_chi2cdf (x k : Q) : Q := 0%Q.
Definition demo_log10 (x : Q) : Q := 0%Q.
Definition demo_chisq (t : Z) : list Q := [1%Q].

(* element-wise logical complement of a label vector *)
Definition lnot_each (v : list nat) : list nat :=
  map (fun g => if (g =? 0)%nat then 1%nat else 0%nat) v.

(* six uncorrelated markers with zero statistics *)
Definition demo_inputs (gc : bool) (rounds : Z) : inputs :=
  mkInputs (identity_mat 6) 6 100 (repeat 0%Q 6) (5 # 100) 1 gc rounds (1 # 100) 10.

Definition demo_vecs : marker_vecs :=
  mkVecs (repeat 0%Q 6) (repeat 0%Q 6) (repeat 0%Q 6).

(** * Properties *)

(** ** Vectors and sorting *)

Lemma store_length {A : Type} (v : list A) (i : nat) (x : A) :
  length (store v i x) = length v.
Proof.
  revert i; induction v as [|y v IH]; intros [|i]; simpl; auto.
Qed.

Lemma nth_store_other {A : Type} (v : list A) (i j : nat) (x d : A) :
  i <> j -> nth j (store v i x) d = nth j v d.
Proof.
  revert i j; induction v as [|y v IH]; intros [|i] [|j] Hij; simpl; auto.
  - congruence.
Qed.

Lemma nth_store_same {A : Type} (v : list A) (i : nat) (x d : A) :
  (i < length v)%nat -> nth i (store v i x) d = x.
Proof.
  revert i; induction v as [|y v IH]; intros [|i] Hi; simpl in *; try lia; auto.
  apply IH; lia.
Qed.

Lemma sort_insert_perm {A : Type} (less : A -> A -> bool) (x : A) (l : list A) :
  Permutation (sort_insert less x l) (x :: l).
Proof.
  induction l as [|y l IH]; simpl.
  - apply Permutation_refl.
  - destruct (less x y).
    + apply Permutation_refl.
    + eapply Permutation_trans; [apply perm_skip, IH | apply perm_swap].
Qed.

Lemma std_sort_perm {A : Type} (less : A -> A -> bool) (l : list A) :
  Permutation (std_sort less l) l.
Proof.
  induction l as [|x l IH]; simpl.
  - apply perm_nil.
  - eapply Permutation_trans; [apply sort_insert_perm | apply perm_skip, IH].
Qed.

Lemma std_sort_length {A : Type} (less : A -> A -> bool) (l : list A) :
  length (std_sort less l) = length l.
Proof. apply Permutation_length, std_sort_perm. Qed.

Lemma Qless_false (a b : Q) : Qless a b = false <-> (b <= a)%Q.
Proof.
  unfold Qless; rewrite negb_false_iff; apply Qle_bool_iff.
Qed.

Lemma Qless_true (a b : Q) : Qless a b = true <-> (a < b)%Q.
Proof.
  unfold Qless; rewrite negb_true_iff.
  split; intro H.
  - apply Qnot_le_lt; intro Hle; apply Qle_bool_iff in Hle; congruence.
  - destruct (Qle_bool b a) eqn:E; auto.
    apply Qle_bool_iff in E; exfalso; apply (Qlt_not_le _ _ H E).
Qed.

Lemma sort_insert_sorted (x : Q) (l : list Q) :
  StronglySorted Qle l -> StronglySorted Qle (sort_insert Qless x l).
Proof.
  induction 1 as [|y l Hs IH Hy]; simpl.
  - constructor; [constructor | constructor].
  - destruct (Qless x y) eqn:E.
    + apply Qless_true in E.
      constructor; [constructor; assumption|].
      constructor; [apply Qlt_le_weak; assumption|].
      eapply Forall_impl; [|exact Hy].
      intros z Hz; eapply Qle_trans; [apply Qlt_le_weak; exact E | exact Hz].
    + apply Qless_false in E.
      constructor; [assumption|].
      eapply Permutation_Forall; [apply Permutation_sym, sort_insert_perm|].
      constructor; assumption.
Qed.

Lemma std_sort_sorted (l : list Q) : StronglySorted Qle (std_sort Qless l).
Proof.
  induction l as [|x l IH]; simpl.
  - constructor.
  - apply sort_insert_sorted, IH.
Qed.

Lemma sorted_nth_le (l : list Q) :
  StronglySorted Qle l ->
  forall a b, (a <= b < length l)%nat -> (nth a l 0 <= nth b l 0)%Q.
Proof.
  induction 1 as [|x l Hs IH Hx]; intros a b Hab; simpl in *; [lia|].
  destruct a as [|a], b as [|b]; try lia.
  - apply Qle_refl.
  - rewrite Forall_forall in Hx; apply Hx, nth_In; lia.
  - apply IH; lia.
Qed.

(** ** RandomPartitioner *)

Lemma sort_indexes_perm (v : list Z) (n : nat) :
  Permutation (sort_indexes v n) (seq 0 n).
Proof. apply std_sort_perm. Qed.

Lemma existsb_eqb_false (t : Z) (l : list Z) :
  existsb (Z.eqb t) l = false <-> ~ In t l.
Proof.
  split.
  - intros H Hin.
    assert (E : existsb (Z.eqb t) l = true)
      by (apply existsb_exists; exists t; split; [assumption | apply Z.eqb_refl]).
    congruence.
  - intro H; destruct (existsb (Z.eqb t) l) eqn:E; auto.
    apply existsb_exists in E; destruct E as [y [Hy Hty]].
    apply Z.eqb_eq in Hty; subst; contradiction.
Qed.

Section RandomPartitionerFacts.

Variable dist_rng : Z -> nat -> Z.

Lemma draw_unique_more_fuel fuel fuel' seed k numbers index r :
  draw_unique dist_rng fuel seed k numbers index = Ok r ->
  (fuel <= fuel')%nat ->
  draw_unique dist_rng fuel' seed k numbers index = Ok r.
Proof.
  revert fuel' k; induction fuel as [|fuel IH]; intros fuel' k H Hle; simpl in H.
  - discriminate.
  - destruct fuel' as [|fuel']; [lia|]; simpl.
    destruct (_ =? -1); auto.
    apply IH; [assumption | lia].
Qed.

Lemma fill_numbers_more_fuel fuel fuel' seed k numbers index todo r :
  fill_numbers dist_rng fuel seed k numbers index todo = Ok r ->
  (fuel <= fuel')%nat ->
  fill_numbers dist_rng fuel' seed k numbers index todo = Ok r.
Proof.
  revert k numbers index; induction todo as [|todo IH]; intros k numbers index H Hle;
    simpl in *; auto.
  destruct (draw_unique dist_rng fuel seed k numbers index) as [[t k']|f] eqn:E;
    simpl in H; [|discriminate].
  rewrite (draw_unique_more_fuel _ _ _ _ _ _ _ E Hle); simpl.
  apply IH; assumption.
Qed.

Lemma generateSetOfNumbers_more_fuel fuel fuel' SIZE seed p :
  generateSetOfNumbers dist_rng fuel SIZE seed = Ok p ->
  (fuel <= fuel')%nat ->
  generateSetOfNumbers dist_rng fuel' SIZE seed = Ok p.
Proof.
  unfold generateSetOfNumbers; intros H Hle.
  destruct (SIZE <? 0); [discriminate|].
  destruct (Z.to_nat SIZE) as [|todo]; [discriminate|].
  destruct (fill_numbers dist_rng fuel _ _ _ _ _) as [numbers|f] eqn:E;
    simpl in H; [|discriminate].
  rewrite (fill_numbers_more_fuel _ _ _ _ _ _ _ _ E Hle); simpl; assumption.
Qed.

(* the result does not depend on the fuel that was enough to reach it *)
Lemma generateSetOfNumbers_deterministic fuel1 fuel2 SIZE seed p1 p2 :
  generateSetOfNumbers dist_rng fuel1 SIZE seed = Ok p1 ->
  generateSetOfNumbers dist_rng fuel2 SIZE seed = Ok p2 ->
  p1 = p2.
Proof.
  intros H1 H2.
  apply generateSetOfNumbers_more_fuel with (fuel' := Nat.max fuel1 fuel2) in H1;
    [|lia].
  apply generateSetOfNumbers_more_fuel with (fuel' := Nat.max fuel1 fuel2) in H2;
    [|lia].
  congruence.
Qed.

Lemma generateSetOfNumbers_perm fuel SIZE seed p :
  generateSetOfNumbers dist_rng fuel SIZE seed = Ok p ->
  0 < SIZE /\ (SIZE < 2 ^ 32 -> Permutation p (seq 0 (Z.to_nat SIZE))).
Proof.
  unfold generateSetOfNumbers; intro H.
  destruct (SIZE <? 0) eqn:Eneg; [discriminate|].
  apply Z.ltb_ge in Eneg.
  destruct (Z.to_nat SIZE) as [|todo] eqn:En; [discriminate|].
  destruct (fill_numbers dist_rng fuel _ _ _ _ _) as [numbers|f]; simpl in H;
    [|discriminate].
  injection H as <-.
  split; [lia|].
  intro Hlt; unfold to_uint.
  rewrite Z.mod_small by lia.
  rewrite En; apply sort_indexes_perm.
Qed.

Lemma draw_unique_outcomes fuel seed k numbers index :
  (exists r, draw_unique dist_rng fuel seed k numbers index = Ok r) \/
  draw_unique dist_rng fuel seed k numbers index = Fail OutOfFuel.
Proof.
  revert k; induction fuel as [|fuel IH]; intro k; simpl.
  - right; reflexivity.
  - destruct (_ =? -1); [apply IH | left; eexists; reflexivity].
Qed.

Lemma fill_numbers_outcomes fuel seed todo :
  forall k numbers index,
    (exists r, fill_numbers dist_rng fuel seed k numbers index todo = Ok r) \/
    fill_numbers dist_rng fuel seed k numbers index todo = Fail OutOfFuel.
Proof.
  induction todo as [|todo IH]; intros k numbers index; simpl.
  - left; eexists; reflexivity.
  - destruct (draw_unique_outcomes fuel seed k numbers index) as [[[t k'] Hr] | Hr];
      rewrite Hr; simpl.
    + apply IH.
    + right; reflexivity.
Qed.

(* a call with a positive count returns or is still retrying: no other
   outcome exists *)
Lemma generateSetOfNumbers_outcomes fuel SIZE seed :
  0 < SIZE ->
  (exists p, generateSetOfNumbers dist_rng fuel SIZE seed = Ok p) \/
  generateSetOfNumbers dist_rng fuel SIZE seed = Fail OutOfFuel.
Proof.
  intro Hpos; unfold generateSetOfNumbers.
  destruct (SIZE <? 0) eqn:Eneg; [apply Z.ltb_lt in Eneg; lia|].
  destruct (Z.to_nat SIZE) as [|todo] eqn:En; [lia|].
  destruct (fill_numbers_outcomes fuel seed todo 1%nat
              (store (repeat 0 (S todo)) 0 (dist_rng seed 0)) 1%nat)
    as [[r Hr] | Hr]; rewrite Hr; simpl.
  - left; eexists; reflexivity.
  - right; reflexivity.
Qed.

Lemma draw_unique_terminates seed numbers index :
  fresh_draws dist_rng seed ->
  Z.of_nat index <= INT_MAX ->
  forall k, exists fuel r, draw_unique dist_rng fuel seed k numbers index = Ok r.
Proof.
  intros Hfresh Hidx k.
  destruct (Hfresh k (firstn index numbers)) as [j [Hne Hnew]].
  { pose proof (firstn_le_length index numbers); lia. }
  exists (S j).
  revert k Hne Hnew; induction j as [|j IH]; intros k Hne Hnew.
  - rewrite Nat.add_0_r in Hne, Hnew; simpl.
    apply existsb_eqb_false in Hnew; rewrite Hnew; simpl.
    destruct (dist_rng seed k =? -1) eqn:E; [apply Z.eqb_eq in E; contradiction|].
    eexists; reflexivity.
  - change (draw_unique dist_rng (S (S j)) seed k numbers index)
      with (let tempNum := dist_rng seed k in
            let isUnique := negb (existsb (Z.eqb tempNum) (firstn index numbers)) in
            let tempNum := if isUnique then tempNum else -1 in
            if tempNum =? -1
            then draw_unique dist_rng (S j) seed (S k) numbers index
            else Ok (tempNum, S k)).
    cbv zeta.
    destruct (_ =? -1); [|eexists; reflexivity].
    apply IH; rewrite Nat.add_succ_comm; assumption.
Qed.

Lemma fill_numbers_terminates seed :
  fresh_draws dist_rng seed ->
  forall todo k numbers index,
    Z.of_nat (index + todo) <= INT_MAX + 1 ->
    exists fuel r, fill_numbers dist_rng fuel seed k numbers index todo = Ok r.
Proof.
  intros Hfresh todo; induction todo as [|todo IH]; intros k numbers index Hb.
  - exists 0%nat; eexists; reflexivity.
  - destruct (draw_unique_terminates seed numbers index Hfresh) with (k := k)
      as [fuel1 [[t k'] H1]]; [lia|].
    destruct (IH k' (store numbers index t) (S index)) as [fuel2 [r H2]]; [lia|].
    exists (Nat.max fuel1 fuel2), r; simpl.
    rewrite (draw_unique_more_fuel _ _ _ _ _ _ _ H1) by lia; simpl.
    apply (fill_numbers_more_fuel _ _ _ _ _ _ _ _ H2); lia.
Qed.

Lemma generateSetOfNumbers_terminates SIZE seed :
  fresh_draws dist_rng seed ->
  0 < SIZE <= INT_MAX ->
  exists fuel p, generateSetOfNumbers dist_rng fuel SIZE seed = Ok p.
Proof.
  intros Hfresh Hsize; unfold generateSetOfNumbers.
  destruct (SIZE <? 0) eqn:Eneg; [apply Z.ltb_lt in Eneg; lia|].
  destruct (Z.to_nat SIZE) as [|todo] eqn:En; [lia|].
  destruct (fill_numbers_terminates seed Hfresh todo 1
              (store (repeat 0 (S todo)) 0 (dist_rng seed 0)) 1)
    as [fuel [numbers H]]; [lia|].
  exists fuel; rewrite H; simpl; eexists; reflexivity.
Qed.

End RandomPartitionerFacts.

Lemma list_upper_bound (l : list Z) :
  exists B, 0 <= B /\ forall x, In x l -> x < B.
Proof.
  induction l as [|y l [B [HB Hl]]].
  - exists 0; split; [lia | intros x []].
  - exists (Z.max B (y + 1)); split; [lia|].
    intros x [<- | Hx]; [lia | specialize (Hl x Hx); lia].
Qed.

Lemma counting_rng_fresh : fresh_draws counting_rng 0.
Proof.
  intros k l _.
  destruct (list_upper_bound l) as [B [HB Hl]].
  exists (Z.to_nat B); unfold counting_rng; split; [lia|].
  intro Hin; apply Hl in Hin; lia.
Qed.

(** X1.  For a positive count, with a generator that goes on yielding fresh
    values, [generateSetOfNumbers] returns a permutation of 0 .. SIZE-1, and
    every call that returns gives that same permutation. *)
Lemma generateSetOfNumbers_positive_count dist_rng SIZE seed :
  fresh_draws dist_rng seed ->
  0 < SIZE <= INT_MAX ->
  exists fuel p,
    generateSetOfNumbers dist_rng fuel SIZE seed = Ok p /\
    Permutation p (seq 0 (Z.to_nat SIZE)) /\
    NoDup p /\
    forall fuel' p', generateSetOfNumbers dist_rng fuel' SIZE seed = Ok p' -> p' = p.
Proof.
  intros Hfresh Hsize.
  destruct (generateSetOfNumbers_terminates dist_rng SIZE seed Hfresh Hsize)
    as [fuel [p Hp]].
  exists fuel, p.
  assert (Hperm : Permutation p (seq 0 (Z.to_nat SIZE))).
  { apply (generateSetOfNumbers_perm dist_rng fuel SIZE seed p Hp).
    unfold INT_MAX in Hsize; lia. }
  repeat split; auto.
  - eapply Permutation_NoDup; [apply Permutation_sym, Hperm | apply seq_NoDup].
  - intros fuel' p' Hp'.
    eapply generateSetOfNumbers_deterministic; eassumption.
Qed.

(** C4.  With count 0 the store [numbers[0] = dist(rng)] of line 39 falls
    outside the empty vector: whatever the generator, the seed and the fuel,
    [generateSetOfNumbers] yields no permutation, and [dentist] called with
    markerSize = 0 ends there. *)
Theorem generateSetOfNumbers_zero_count :
  forall dist_rng stray eig_sym sqrt chi2cdf log10 chisq vec_not fuel seed
         LD nS z pv p gc rounds thresh,
    generateSetOfNumbers dist_rng fuel 0 seed = Fail Undefined /\
    dentist dist_rng stray eig_sym sqrt chi2cdf log10 chisq vec_not fuel
            (mkInputs LD 0 nS z pv p gc rounds thresh seed) = Fail Undefined.
Proof.
  intros; split; reflexivity.
Qed.

(** C9, as stated, fails.  Whatever the generator yields, a call with count
    INT_MAX, one short of the 2^31 values of the draw space, is not rejected:
    however long it is run, it has returned a permutation or is still
    retrying. *)
Lemma no_rejection_near_draw_space :
  ~ (exists dist_rng fuel f,
        f <> OutOfFuel /\
        generateSetOfNumbers dist_rng fuel INT_MAX 10 = Fail f).
Proof.
  intros [dist_rng [fuel [f [Hf H]]]].
  destruct (generateSetOfNumbers_outcomes dist_rng fuel INT_MAX 10) as [[p Hp] | Ho].
  - reflexivity.
  - congruence.
  - congruence.
Qed.

(* fewer than n values leave one of 0 .. n-1 out *)
Lemma missing_value (n : nat) :
  forall l : list Z,
    (length l < n)%nat -> exists v, 0 <= v < Z.of_nat n /\ ~ In v l.
Proof.
  induction n as [|n IH]; intros l Hlen; [lia|].
  destruct (in_dec Z.eq_dec (Z.of_nat n) l) as [Hin|Hout].
  - pose proof (remove_length_lt Z.eq_dec l (Z.of_nat n) Hin) as Hshort.
    destruct (IH (remove Z.eq_dec (Z.of_nat n) l)) as [v [Hv Hnot]]; [lia|].
    exists v; split; [lia|].
    intro Hvin; apply Hnot.
    apply in_in_remove; [lia | exact Hvin].
  - exists (Z.of_nat n); split; [lia | exact Hout].
Qed.

(* a count that is an int stays below the size of the draw space, so a
   generator in which every value recurs goes on yielding fresh values *)
Lemma recurrent_draws_fresh dist_rng seed :
  recurrent_draws dist_rng seed -> fresh_draws dist_rng seed.
Proof.
  intros Hrec k l Hlen.
  destruct (missing_value (Z.to_nat (INT_MAX + 1)) l) as [v [Hv Hnot]].
  - unfold INT_MAX in *; lia.
  - destruct (Hrec k v) as [j Hj]; [unfold INT_MAX in *; lia|].
    exists j; rewrite Hj; split; [lia | exact Hnot].
Qed.

Lemma cycling_rng_recurrent : recurrent_draws cycling_rng 0.
Proof.
  intros k v Hv; unfold cycling_rng, INT_MAX in *.
  exists (Z.to_nat ((v - Z.of_nat k) mod 2 ^ 31)).
  pose proof (Z.mod_pos_bound (v - Z.of_nat k) (2 ^ 31) eq_refl) as Hb.
  rewrite Nat2Z.inj_add, Z2Nat.id, Z.add_0_l by lia.
  rewrite Zplus_mod_idemp_r.
  replace (Z.of_nat k + (v - Z.of_nat k)) with v by lia.
  apply Z.mod_small; lia.
Qed.

(** C9, amended.  [generateSetOfNumbers] has no guard: for a count from 1
    to INT_MAX, however long the call has run, it has returned or is still
    retrying, and it is never rejected.  The count is an int, so it stays
    below the 2^31 values of the draw space: with a generator in which every
    value of the draw space keeps occurring, each retry loop meets a value
    not yet stored and the call returns. *)
Theorem retry_loops_terminate :
  forall dist_rng SIZE seed,
    0 < SIZE <= INT_MAX ->
    (forall fuel,
        (exists p, generateSetOfNumbers dist_rng fuel SIZE seed = Ok p) \/
        generateSetOfNumbers dist_rng fuel SIZE seed = Fail OutOfFuel) /\
    (recurrent_draws dist_rng seed ->
     exists fuel p, generateSetOfNumbers dist_rng fuel SIZE seed = Ok p).
Proof.
  intros dist_rng SIZE seed Hsize; split.
  - intro fuel; apply generateSetOfNumbers_outcomes; lia.
  - intro Hrec.
    apply generateSetOfNumbers_terminates; [|assumption].
    apply recurrent_draws_fresh, Hrec.
Qed.

Lemma retry_loops_terminate_witness :
  exists fuel p, generateSetOfNumbers cycling_rng fuel 3 0 = Ok p.
Proof.
  apply (retry_loops_terminate cycling_rng 3 0).
  - unfold INT_MAX; lia.
  - exact cycling_rng_recurrent.
Defined.

(** ** Floating-point rounding *)

(* powers of two *)

Lemma pow2_pos (e : Z) : (0 < pow2 e)%Q.
Proof. apply Qpower_0_lt; reflexivity. Qed.

Lemma pow2_nonzero (e : Z) : ~ (pow2 e == 0)%Q.
Proof. intro H; pose proof (pow2_pos e) as P; rewrite H in P; discriminate. Qed.

Lemma pow2_add (a b : Z) : (pow2 (a + b) == pow2 a * pow2 b)%Q.
Proof. apply Qpower_plus; discriminate. Qed.

Lemma pow2_le (a b : Z) : a <= b -> (pow2 a <= pow2 b)%Q.
Proof. intro H; apply Qpower_le_compat_l; [assumption | discriminate]. Qed.

Lemma pow2_lt_inv (a b : Z) : (pow2 a < pow2 b)%Q -> a < b.
Proof. intro H; eapply Qpower_lt_compat_l_inv; [exact H | reflexivity]. Qed.

Lemma pow2_Z (n : Z) : 0 <= n -> (pow2 n == inject_Z (2 ^ n))%Q.
Proof. intro H; symmetry; apply (Zpower_Qpower 2 n H). Qed.

(* x / 2^e * 2^e *)
Lemma scale_back (x : Q) (e : Z) : (x / pow2 e * pow2 e == x)%Q.
Proof.
  unfold Qdiv; rewrite <- Qmult_assoc, (Qmult_comm (/ pow2 e)), Qmult_inv_r.
  - apply Qmult_1_r.
  - apply pow2_nonzero.
Qed.

Lemma scale_pow2 (a e : Z) : (pow2 a / pow2 e == pow2 (a - e))%Q.
Proof.
  apply Qmult_inj_r with (z := pow2 e); [apply pow2_nonzero|].
  rewrite scale_back, <- pow2_add.
  replace (a - e + e) with a by lia; reflexivity.
Qed.

Lemma scale_le (x y : Q) (e : Z) : (x <= y)%Q -> (x / pow2 e <= y / pow2 e)%Q.
Proof.
  intro H; unfold Qdiv; apply Qmult_le_compat_r; [assumption|].
  apply Qlt_le_weak, Qinv_lt_0_compat, pow2_pos.
Qed.

Lemma scale_lt (x y : Q) (e : Z) : (x < y)%Q -> (x / pow2 e < y / pow2 e)%Q.
Proof.
  intro H; unfold Qdiv; apply Qmult_lt_r; [|assumption].
  apply Qinv_lt_0_compat, pow2_pos.
Qed.

(* the binary logarithm *)

Lemma Qlog2_spec (x : Q) :
  (0 < x)%Q -> (pow2 (Qlog2 x) <= x)%Q /\ (x < pow2 (Qlog2 x + 1))%Q.
Proof.
  intro Hx.
  destruct x as [a b].
  assert (Ha : 0 < a) by (unfold Qlt in Hx; simpl in Hx; lia).
  pose proof (Z.log2_spec a Ha) as [La Ua].
  pose proof (Z.log2_spec (Zpos b) eq_refl) as [Lb Ub].
  pose proof (Z.log2_nonneg a) as Na.
  pose proof (Z.log2_nonneg (Zpos b)) as Nb.
  unfold Qlog2; cbn [Qnum Qden].
  set (la := Z.log2 a) in *; set (lb := Z.log2 (Zpos b)) in *.
  assert (Hup : (a # b < pow2 (la - lb + 1))%Q).
  { replace (la - lb + 1) with (Z.succ la - lb) by lia.
    rewrite <- scale_pow2.
    apply Qlt_shift_div_l; [apply pow2_pos|].
    rewrite !pow2_Z by lia.
    unfold Qlt, Qmult, inject_Z; cbn [Qnum Qden].
    rewrite Pos.mul_1_r, Z.mul_1_r.
    apply Z.lt_le_trans with (m := 2 ^ Z.succ la * 2 ^ lb).
    - apply Z.mul_lt_mono_pos_r; [apply Z.pow_pos_nonneg; lia | exact Ua].
    - apply Z.mul_le_mono_nonneg_l; [apply Z.pow_nonneg; lia | exact Lb]. }
  assert (Hlo : (pow2 (la - lb - 1) <= a # b)%Q).
  { replace (la - lb - 1) with (la - Z.succ lb) by lia.
    rewrite <- scale_pow2.
    apply Qle_shift_div_r; [apply pow2_pos|].
    rewrite !pow2_Z by lia.
    unfold Qle, Qmult, inject_Z; cbn [Qnum Qden].
    rewrite Pos.mul_1_r, Z.mul_1_r.
    apply Z.le_trans with (m := 2 ^ la * 2 ^ Z.succ lb).
    - apply Z.mul_le_mono_nonneg_l; [apply Z.pow_nonneg; lia | lia].
    - apply Z.mul_le_mono_nonneg_r; [apply Z.pow_nonneg; lia | exact La]. }
  destruct (Qle_bool (pow2 (la - lb)) (a # b)) eqn:E.
  - apply Qle_bool_iff in E; split; assumption.
  - split; [exact Hlo|].
    replace (la - lb - 1 + 1) with (la - lb) by lia.
    apply Qnot_le_lt; intro H; apply Qle_bool_iff in H; congruence.
Qed.

Lemma Qlog2_unique (x : Q) (e : Z) :
  (pow2 e <= x)%Q -> (x < pow2 (e + 1))%Q -> Qlog2 x = e.
Proof.
  intros Hlo Hup.
  assert (Hx : (0 < x)%Q) by (eapply Qlt_le_trans; [apply pow2_pos | exact Hlo]).
  destruct (Qlog2_spec x Hx) as [Slo Sup].
  assert (H1 : Qlog2 x < e + 1).
  { apply pow2_lt_inv; eapply Qle_lt_trans; eassumption. }
  assert (H2 : e < Qlog2 x + 1).
  { apply pow2_lt_inv; eapply Qle_lt_trans; eassumption. }
  lia.
Qed.

Lemma Qlog2_mono (x y : Q) : (0 < x)%Q -> (x <= y)%Q -> Qlog2 x <= Qlog2 y.
Proof.
  intros Hx Hxy.
  assert (Hy : (0 < y)%Q) by (eapply Qlt_le_trans; eassumption).
  destruct (Qlog2_spec x Hx) as [Lx _].
  destruct (Qlog2_spec y Hy) as [_ Uy].
  assert (H : Qlog2 x < Qlog2 y + 1).
  { apply pow2_lt_inv.
    eapply Qle_lt_trans; [exact Lx|].
    eapply Qle_lt_trans; eassumption. }
  lia.
Qed.

(* rounding to the nearest integer *)

Lemma round_half_even_floor (x : Q) :
  Qfloor x <= round_half_even x <= Qfloor x + 1.
Proof.
  unfold round_half_even.
  destruct (_ ?= _)%Q; [destruct (Z.even _)| |]; lia.
Qed.

Lemma round_half_even_comp (x y : Q) : (x == y)%Q -> round_half_even x = round_half_even y.
Proof.
  intro H; unfold round_half_even.
  rewrite (Qfloor_comp _ _ H).
  assert (E : (x - inject_Z (Qfloor y) ?= 1 # 2)%Q = (y - inject_Z (Qfloor y) ?= 1 # 2)%Q).
  { apply Qcompare_comp; [rewrite H|]; reflexivity. }
  rewrite E; reflexivity.
Qed.

Lemma round_half_even_Z (z : Z) : round_half_even (inject_Z z) = z.
Proof.
  unfold round_half_even; rewrite Qfloor_Z.
  assert (E : (inject_Z z - inject_Z z ?= 1 # 2)%Q = Lt).
  { apply Qlt_alt.
    setoid_replace (inject_Z z - inject_Z z)%Q with 0%Q by ring.
    reflexivity. }
  rewrite E; reflexivity.
Qed.

Lemma round_half_even_mono (x y : Q) :
  (x <= y)%Q -> round_half_even x <= round_half_even y.
Proof.
  intro H.
  pose proof (Qfloor_resp_le _ _ H) as Hf.
  pose proof (round_half_even_floor x) as Bx.
  pose proof (round_half_even_floor y) as By.
  destruct (Z.eq_dec (Qfloor x) (Qfloor y)) as [E|E]; [|lia].
  unfold round_half_even in *; rewrite <- E in *.
  set (f := Qfloor x) in *.
  assert (Hd : (x - inject_Z f <= y - inject_Z f)%Q).
  { apply Qplus_le_l with (z := inject_Z f).
    setoid_replace (x - inject_Z f + inject_Z f)%Q with x by ring.
    setoid_replace (y - inject_Z f + inject_Z f)%Q with y by ring.
    exact H. }
  destruct (x - inject_Z f ?= 1 # 2)%Q eqn:Cx;
    destruct (y - inject_Z f ?= 1 # 2)%Q eqn:Cy;
    try (destruct (Z.even f); lia); try lia; exfalso.
  - apply Qeq_alt in Cx; apply Qlt_alt in Cy.
    rewrite Cx in Hd; apply (Qlt_not_le _ _ Cy Hd).
  - apply Qgt_alt in Cx; apply Qeq_alt in Cy.
    rewrite Cy in Hd; apply (Qlt_not_le _ _ Cx Hd).
  - apply Qgt_alt in Cx; apply Qlt_alt in Cy.
    apply (Qlt_not_le _ _ Cx); eapply Qle_trans; [exact Hd | apply Qlt_le_weak, Cy].
Qed.

Lemma round_half_even_upper (x : Q) : (inject_Z (round_half_even x) <= x + 1)%Q.
Proof.
  pose proof (round_half_even_floor x) as [_ H].
  eapply Qle_trans; [rewrite <- Zle_Qle; exact H|].
  rewrite inject_Z_plus.
  apply Qplus_le_compat; [apply Qfloor_le | apply Qle_refl].
Qed.

Section Rounding.

Variable prec : Z.
Hypothesis prec_pos : 1 <= prec.

(* the rounded value stays within the binade of x *)
Lemma round_positive_binade (x : Q) :
  (0 < x)%Q ->
  (pow2 (Qlog2 x) <= round_positive prec x)%Q /\
  (round_positive prec x <= pow2 (Qlog2 x + 1))%Q.
Proof using prec_pos.
  intro Hx; destruct (Qlog2_spec x Hx) as [Lo Up].
  unfold round_positive.
  set (e := Qlog2 x - (prec - 1)).
  assert (Hlo : 2 ^ (prec - 1) <= round_half_even (x / pow2 e)).
  { rewrite <- (round_half_even_Z (2 ^ (prec - 1))).
    apply round_half_even_mono.
    rewrite <- pow2_Z by lia.
    setoid_replace (pow2 (prec - 1)) with (pow2 (Qlog2 x) / pow2 e)%Q.
    - apply scale_le, Lo.
    - rewrite scale_pow2; unfold e.
      replace (Qlog2 x - (Qlog2 x - (prec - 1))) with (prec - 1) by lia; reflexivity. }
  assert (Hup : round_half_even (x / pow2 e) <= 2 ^ prec).
  { rewrite <- (round_half_even_Z (2 ^ prec)).
    apply round_half_even_mono.
    rewrite <- pow2_Z by lia.
    setoid_replace (pow2 prec) with (pow2 (Qlog2 x + 1) / pow2 e)%Q.
    - apply Qlt_le_weak, scale_lt, Up.
    - rewrite scale_pow2; unfold e.
      replace (Qlog2 x + 1 - (Qlog2 x - (prec - 1))) with prec by lia; reflexivity. }
  split.
  - setoid_replace (pow2 (Qlog2 x)) with (inject_Z (2 ^ (prec - 1)) * pow2 e)%Q.
    + apply Qmult_le_compat_r; [|apply Qlt_le_weak, pow2_pos].
      rewrite <- Zle_Qle; exact Hlo.
    + rewrite <- pow2_Z, <- pow2_add by lia; unfold e.
      replace (prec - 1 + (Qlog2 x - (prec - 1))) with (Qlog2 x) by lia; reflexivity.
  - setoid_replace (pow2 (Qlog2 x + 1)) with (inject_Z (2 ^ prec) * pow2 e)%Q.
    + apply Qmult_le_compat_r; [|apply Qlt_le_weak, pow2_pos].
      rewrite <- Zle_Qle; exact Hup.
    + rewrite <- pow2_Z, <- pow2_add by lia; unfold e.
      replace (prec + (Qlog2 x - (prec - 1))) with (Qlog2 x + 1) by lia; reflexivity.
Qed.

Lemma round_positive_mono (x y : Q) :
  (0 < x)%Q -> (x <= y)%Q -> (round_positive prec x <= round_positive prec y)%Q.
Proof using prec_pos.
  intros Hx Hxy.
  assert (Hy : (0 < y)%Q) by (eapply Qlt_le_trans; eassumption).
  pose proof (Qlog2_mono x y Hx Hxy) as Hl.
  destruct (Z.eq_dec (Qlog2 x) (Qlog2 y)) as [E|E].
  - unfold round_positive; rewrite E.
    apply Qmult_le_compat_r; [|apply Qlt_le_weak, pow2_pos].
    rewrite <- Zle_Qle; apply round_half_even_mono, scale_le, Hxy.
  - destruct (round_positive_binade x Hx) as [_ Ux].
    destruct (round_positive_binade y Hy) as [Ly _].
    eapply Qle_trans; [exact Ux|].
    eapply Qle_trans; [|exact Ly].
    apply pow2_le; lia.
Qed.

Lemma Qnum_pos (x : Q) : (0 < x)%Q -> exists p, Qnum x = Zpos p.
Proof.
  destruct x as [[|p|p] d]; unfold Qlt; simpl; intro H; try lia.
  exists p; reflexivity.
Qed.

Lemma Qnum_zero (x : Q) : (x == 0)%Q -> Qnum x = 0.
Proof. destruct x as [a d]; unfold Qeq; simpl; lia. Qed.

Lemma round_binary_zero (x : Q) : (x == 0)%Q -> round_binary prec x = 0%Q.
Proof. intro H; unfold round_binary; rewrite (Qnum_zero x H); reflexivity. Qed.

Lemma round_binary_positive (x : Q) :
  (0 < x)%Q -> round_binary prec x = round_positive prec x.
Proof.
  intro H; destruct (Qnum_pos x H) as [p Hp].
  unfold round_binary; rewrite Hp; reflexivity.
Qed.

(* a positive value does not round to zero *)
Lemma round_binary_pos (x : Q) : (0 < x)%Q -> (0 < round_binary prec x)%Q.
Proof using prec_pos.
  intro H; rewrite (round_binary_positive x H).
  eapply Qlt_le_trans; [apply pow2_pos | apply round_positive_binade, H].
Qed.

Lemma round_binary_nonneg (x : Q) : (0 <= x)%Q -> (0 <= round_binary prec x)%Q.
Proof using prec_pos.
  intro H; apply Qle_lteq in H; destruct H as [H|H].
  - apply Qlt_le_weak, round_binary_pos, H.
  - rewrite round_binary_zero by (symmetry; exact H); apply Qle_refl.
Qed.

(* rounding keeps the order of values that are not negative *)
Lemma round_binary_mono (x y : Q) :
  (0 <= x)%Q -> (x <= y)%Q -> (round_binary prec x <= round_binary prec y)%Q.
Proof using prec_pos.
  intros Hx Hxy.
  apply Qle_lteq in Hx; destruct Hx as [Hx|Hx].
  - assert (Hy : (0 < y)%Q) by (eapply Qlt_le_trans; eassumption).
    rewrite (round_binary_positive x Hx), (round_binary_positive y Hy).
    apply round_positive_mono; assumption.
  - rewrite (round_binary_zero x) by (symmetry; exact Hx).
    apply round_binary_nonneg.
    rewrite Hx; exact Hxy.
Qed.

(* whole numbers below 2^prec are values of the format *)
Lemma round_binary_Z (x : Q) (z : Z) :
  (x == inject_Z z)%Q -> 0 <= z < 2 ^ prec -> (round_binary prec x == inject_Z z)%Q.
Proof using prec_pos.
  intros Hxz Hz.
  destruct (Z.eq_dec z 0) as [->|Hnz].
  - rewrite round_binary_zero by exact Hxz; reflexivity.
  - assert (Hzpos : 0 < z) by lia.
    assert (Hx : (0 < x)%Q).
    { rewrite Hxz; change 0%Q with (inject_Z 0); rewrite <- Zlt_Qlt; lia. }
    rewrite (round_binary_positive x Hx).
    pose proof (Z.log2_spec z Hzpos) as [Lz Uz].
    pose proof (Z.log2_nonneg z) as Nz.
    assert (Hlog : Qlog2 x = Z.log2 z).
    { apply Qlog2_unique; rewrite Hxz, pow2_Z by lia.
      - rewrite <- Zle_Qle; exact Lz.
      - rewrite <- Zlt_Qlt; replace (Z.log2 z + 1) with (Z.succ (Z.log2 z)) by lia.
        exact Uz. }
    assert (Hsmall : Z.log2 z < prec).
    { apply Z.log2_lt_pow2; lia. }
    unfold round_positive; rewrite Hlog.
    set (e := Z.log2 z - (prec - 1)).
    assert (Hs : (x / pow2 e == inject_Z (z * 2 ^ (- e)))%Q).
    { apply Qmult_inj_r with (z := pow2 e); [apply pow2_nonzero|].
      rewrite scale_back, inject_Z_mult, <- pow2_Z by (unfold e; lia).
      rewrite <- Qmult_assoc, <- pow2_add.
      replace (- e + e) with 0 by lia.
      rewrite Hxz; change (pow2 0) with 1%Q; ring. }
    rewrite (round_half_even_comp _ _ Hs), round_half_even_Z.
    rewrite <- Hs, scale_back; exact Hxz.
Qed.

(* the relative error of rounding is at most 2^(1-prec) *)
Lemma round_binary_upper (x : Q) :
  (0 <= x)%Q -> (round_binary prec x <= x * (1 + pow2 (1 - prec)))%Q.
Proof using prec_pos.
  intro Hx; apply Qle_lteq in Hx; destruct Hx as [Hx|Hx].
  - rewrite (round_binary_positive x Hx); unfold round_positive.
    destruct (Qlog2_spec x Hx) as [Lo _].
    set (e := Qlog2 x - (prec - 1)).
    eapply Qle_trans.
    + apply Qmult_le_compat_r; [apply round_half_even_upper|].
      apply Qlt_le_weak, pow2_pos.
    + rewrite Qmult_plus_distr_l, scale_back, Qmult_1_l.
      rewrite Qmult_plus_distr_r, Qmult_1_r.
      apply Qplus_le_r.
      setoid_replace (pow2 e) with (pow2 (Qlog2 x) * pow2 (1 - prec))%Q.
      * apply Qmult_le_compat_r; [exact Lo | apply Qlt_le_weak, pow2_pos].
      * rewrite <- pow2_add; unfold e.
        replace (Qlog2 x + (1 - prec)) with (Qlog2 x - (prec - 1)) by lia.
        reflexivity.
  - rewrite round_binary_zero by (symmetry; exact Hx).
    rewrite <- Hx, Qmult_0_l; apply Qle_refl.
Qed.

End Rounding.

(** ** QuantileEstimator *)

Lemma Qtruncate_Z (x : Q) (z : Z) : (x == inject_Z z)%Q -> Qtruncate x = z.
Proof.
  intro H; unfold Qtruncate.
  destruct (Qle_bool 0 x).
  - rewrite (Qfloor_comp _ _ H); apply Qfloor_Z.
  - rewrite (Qceiling_comp _ _ H); apply Qceiling_Z.
Qed.

Lemma inject_Z_nonneg (z : Z) : 0 <= z -> (0 <= inject_Z z)%Q.
Proof. intro H; change 0%Q with (inject_Z 0); rewrite <- Zle_Qle; exact H. Qed.

Lemma Qceiling_lower (x : Q) (z : Z) : (inject_Z z <= x)%Q -> z <= Qceiling x.
Proof. intro H; apply Qceiling_resp_le in H; rewrite Qceiling_Z in H; exact H. Qed.

Lemma Qceiling_upper (x : Q) (z : Z) : (x <= inject_Z z)%Q -> Qceiling x <= z.
Proof. intro H; apply Qceiling_resp_le in H; rewrite Qceiling_Z in H; exact H. Qed.

(* a size below 2^53 is converted to double without error *)
Lemma double_of_size (n : Z) :
  0 <= n < 2 ^ 53 -> (round_double (inject_Z n) == inject_Z n)%Q.
Proof.
  intro H; apply round_binary_Z; [lia | reflexivity | exact H].
Qed.

Lemma quantile_rank_bounds (size : nat) (q : Q) :
  1 <= Z.of_nat size < 2 ^ 53 -> (0 < q)%Q -> (q <= 1)%Q ->
  1 <= quantile_rank size q <= Z.of_nat size.
Proof.
  intros Hn Hq0 Hq1; unfold quantile_rank.
  set (n := Z.of_nat size) in *.
  pose proof (double_of_size n ltac:(lia)) as Hsize.
  set (x := (round_double (inject_Z n) * q)%Q).
  assert (Hn0 : (0 < inject_Z n)%Q).
  { change 0%Q with (inject_Z 0); rewrite <- Zlt_Qlt; lia. }
  assert (Hx0 : (0 < x)%Q).
  { unfold x; rewrite Hsize; apply Qmult_lt_0_compat; assumption. }
  assert (Hx1 : (x <= inject_Z n)%Q).
  { unfold x; rewrite Hsize.
    rewrite <- (Qmult_1_r (inject_Z n)) at 2.
    apply Qmult_le_l; assumption. }
  split.
  - pose proof (round_binary_pos 53 ltac:(lia) x Hx0) as Hpos.
    pose proof (Qle_ceiling (round_double x)) as Hc.
    assert (Hlt : (inject_Z 0 < inject_Z (Qceiling (round_double x)))%Q).
    { eapply Qlt_le_trans; [exact Hpos | exact Hc]. }
    rewrite <- Zlt_Qlt in Hlt; lia.
  - assert (H : (round_double x <= inject_Z n)%Q).
    { eapply Qle_trans; [|rewrite <- Hsize; apply Qle_refl].
      apply round_binary_mono; [lia | apply Qlt_le_weak, Hx0 | exact Hx1]. }
    apply Qceiling_resp_le in H; rewrite Qceiling_Z in H; exact H.
Qed.



(* the rank is the ceiling of the exact product, or the whole number just
   below it when the product rounds down to that number *)
Lemma quantile_rank_exact (size : nat) (q : Q) :
  Z.of_nat size < 2 ^ 53 -> (0 < q)%Q -> (q <= 1)%Q ->
  Qceiling (inject_Z (Z.of_nat size) * q) - 1 <= quantile_rank size q
  <= Qceiling (inject_Z (Z.of_nat size) * q).
Proof.
  intros Hn Hq0 Hq1; unfold quantile_rank.
  set (n := Z.of_nat size) in *.
  pose proof (double_of_size n ltac:(lia)) as Hsize.
  assert (Hn0 : (0 <= inject_Z n)%Q).
  { change 0%Q with (inject_Z 0); rewrite <- Zle_Qle; lia. }
  set (x := (inject_Z n * q)%Q).
  assert (Hx0 : (0 <= x)%Q).
  { apply Qmult_le_0_compat; [assumption | apply Qlt_le_weak, Hq0]. }
  assert (Hx1 : (x <= inject_Z n)%Q).
  { unfold x; rewrite <- (Qmult_1_r (inject_Z n)) at 2.
    rewrite (Qmult_comm _ q), (Qmult_comm _ 1).
    apply Qmult_le_compat_r; assumption. }
  assert (Hxx : (round_double (inject_Z n) * q == x)%Q).
  { unfold x; rewrite Hsize; reflexivity. }
  set (c := Qceiling x).
  assert (Hc0 : 0 <= c) by (apply Qceiling_lower, Hx0).
  assert (Hcn : c <= n) by (apply Qceiling_upper, Hx1).
  split.
  - destruct (Z.eq_dec c 0) as [Hz|Hz].
    + assert (H : (0 <= round_double (round_double (inject_Z n) * q))%Q).
      { apply round_binary_nonneg; [lia | rewrite Hxx; exact Hx0]. }
      apply (Qceiling_lower _ 0) in H; lia.
    + assert (Hlow : (inject_Z (c - 1) <= round_double (round_double (inject_Z n) * q))%Q).
      { rewrite <- (round_binary_Z 53 ltac:(lia) (inject_Z (c - 1)) (c - 1))
          by (try reflexivity; lia).
        apply round_binary_mono; [lia | |].
        - change 0%Q with (inject_Z 0); rewrite <- Zle_Qle; lia.
        - rewrite Hxx; apply Qlt_le_weak, Qceiling_lt. }
      apply Qceiling_lower, Hlow.
  - assert (Hhigh : (round_double (round_double (inject_Z n) * q) <= inject_Z c)%Q).
    { rewrite <- (round_binary_Z 53 ltac:(lia) (inject_Z c) c)
        by (try reflexivity; lia).
      apply round_binary_mono; [lia | rewrite Hxx; exact Hx0 |].
      rewrite Hxx; apply Qle_ceiling. }
    apply Qceiling_upper, Hhigh.
Qed.

(* for a rank inside the vector, [getQuantile] returns the element of the
   sorted data at that rank *)
Lemma getQuantile_in_range (dat : list Q) (q : Q) :
  Z.of_nat (length dat) < 2 ^ 53 ->
  1 <= quantile_rank (length dat) q <= Z.of_nat (length dat) ->
  getQuantile dat q =
  Ok (nth (Z.to_nat (quantile_rank (length dat) q - 1)) (std_sort Qless dat) 0%Q).
Proof.
  intros Hsize Hr.
  unfold getQuantile; cbv zeta.
  rewrite std_sort_length.
  change (Qceiling (round_double (round_double (inject_Z (Z.of_nat (length dat))) * q)))
    with (quantile_rank (length dat) q).
  set (r := quantile_rank (length dat) q) in *.
  assert (Hpos : Qtruncate (round_double (inject_Z r - 1)) = r - 1).
  { apply Qtruncate_Z, round_binary_Z; [lia | | lia].
    unfold Qminus, Z.sub; rewrite inject_Z_plus; reflexivity. }
  rewrite Hpos; unfold vector_at, to_size_t.
  rewrite std_sort_length.
  rewrite Z.mod_small by lia.
  destruct (_ <? _) eqn:E; [reflexivity|].
  apply Z.ltb_ge in E; lia.
Qed.

(* For q a little below 1, as 0.995 is, the position is inside the vector
   for every size a size_t holds: the three roundings of line 67 each add a
   relative error of at most 2^-52. *)
Lemma getQuantile_inside (dat : list Q) (q : Q) :
  dat <> [] -> Z.of_nat (length dat) < 2 ^ 64 ->
  (0 < q)%Q ->
  (q * ((1 + pow2 (1 - 53)) * (1 + pow2 (1 - 53)) * (1 + pow2 (1 - 53))) < 1)%Q ->
  exists x, getQuantile dat q = Ok x.
Proof.
  intros Hne Hsize Hq0 Hq1.
  assert (Hn : 1 <= Z.of_nat (length dat)).
  { destruct dat; [congruence | simpl length; lia]. }
  unfold getQuantile; cbv zeta.
  rewrite std_sort_length.
  set (n := Z.of_nat (length dat)) in *.
  set (u := (1 + pow2 (1 - 53))%Q) in *.
  assert (Hu : (0 < u)%Q) by reflexivity.
  assert (Hn0 : (0 < inject_Z n)%Q).
  { change 0%Q with (inject_Z 0); rewrite <- Zlt_Qlt; lia. }
  set (a := round_double (inject_Z n)).
  assert (Ha0 : (0 < a)%Q) by (apply round_binary_pos; [lia | exact Hn0]).
  assert (Ha : (a <= inject_Z n * u)%Q).
  { apply round_binary_upper; [lia | apply Qlt_le_weak, Hn0]. }
  set (b := round_double (a * q)).
  assert (Haq : (0 < a * q)%Q) by (apply Qmult_lt_0_compat; assumption).
  assert (Hb0 : (0 < b)%Q) by (apply round_binary_pos; [lia | exact Haq]).
  assert (Hb : (b <= a * q * u)%Q).
  { apply round_binary_upper; [lia | apply Qlt_le_weak, Haq]. }
  set (c := Qceiling b).
  assert (Hc1 : 1 <= c).
  { assert (H : 0 < c); [|lia].
    rewrite Zlt_Qlt; eapply Qlt_le_trans; [exact Hb0 | apply Qle_ceiling]. }
  assert (Hcb : (inject_Z c - 1 < b)%Q).
  { pose proof (Qceiling_lt b) as H; fold c in H.
    unfold Z.sub in H; rewrite inject_Z_plus in H; exact H. }
  assert (Hc0 : (0 <= inject_Z c - 1)%Q).
  { setoid_replace (inject_Z c - 1)%Q with (inject_Z (c - 1)).
    - apply inject_Z_nonneg; lia.
    - unfold Z.sub; rewrite inject_Z_plus; reflexivity. }
  set (d := round_double (inject_Z c - 1)).
  assert (Hd0 : (0 <= d)%Q) by (apply round_binary_nonneg; [lia | exact Hc0]).
  assert (Hd : (d <= (inject_Z c - 1) * u)%Q).
  { apply round_binary_upper; [lia | exact Hc0]. }
  assert (Hdn : (d < inject_Z n)%Q).
  { eapply Qle_lt_trans; [exact Hd|].
    apply Qlt_le_trans with (y := (b * u)%Q).
    { apply Qmult_lt_r; assumption. }
    apply Qle_trans with (y := (inject_Z n * (q * (u * u * u)))%Q).
    - apply Qle_trans with (y := (a * q * u * u)%Q).
      + apply Qmult_le_compat_r; [exact Hb | apply Qlt_le_weak, Hu].
      + setoid_replace (inject_Z n * (q * (u * u * u)))%Q
          with (inject_Z n * u * q * u * u)%Q by ring.
        repeat (apply Qmult_le_compat_r; [|apply Qlt_le_weak; assumption]).
        exact Ha.
    - rewrite <- (Qmult_1_r (inject_Z n)) at 2.
      apply Qmult_le_l; [exact Hn0 | apply Qlt_le_weak, Hq1]. }
  assert (Hpos : 0 <= Qtruncate d < n).
  { unfold Qtruncate.
    apply Qle_bool_iff in Hd0 as Hb'; rewrite Hb'.
    split.
    - apply Qfloor_resp_le in Hd0; exact Hd0.
    - rewrite Zlt_Qlt; eapply Qle_lt_trans; [apply Qfloor_le | exact Hdn]. }
  unfold vector_at, to_size_t.
  rewrite std_sort_length, Z.mod_small by lia.
  destruct (_ <? _) eqn:E; [eexists; reflexivity|].
  apply Z.ltb_ge in E; fold n in E; lia.
Qed.

(* 0.995 as a double lies in (0, 1), far enough below 1 *)
Lemma q995_range :
  (0 < q995)%Q /\ (q995 <= 1)%Q /\
  (q995 * ((1 + pow2 (1 - 53)) * (1 + pow2 (1 - 53)) * (1 + pow2 (1 - 53))) < 1)%Q.
Proof.
  split; [vm_compute; reflexivity|].
  split; [vm_compute; discriminate | vm_compute; reflexivity].
Qed.

Lemma getQuantile_q995_returns (dat : list Q) :
  dat <> [] -> Z.of_nat (length dat) < 2 ^ 64 ->
  exists x, getQuantile dat q995 = Ok x.
Proof.
  intros Hne Hsize; destruct q995_range as [H0 [_ H1]].
  apply getQuantile_inside; assumption.
Qed.

Section GroupedQuantileFacts.

Variable stray : list nat -> nat -> nat.

(* with a label for every value, line 74 keeps the values labelled 1 *)
Lemma filter_group_combine (dat : list Q) :
  forall (pre rest : list nat),
    (length dat <= length rest)%nat ->
    filter_group stray dat (pre ++ rest) (length pre) =
    map fst (filter (fun p => (snd p =? 1)%nat) (combine dat rest)).
Proof.
  induction dat as [|d dat IH]; intros pre rest Hlen; simpl; [reflexivity|].
  destruct rest as [|g rest]; simpl in *; [lia|].
  assert (Hread : vread stray (pre ++ g :: rest) (length pre) = g).
  { unfold vread; rewrite nth_error_app2 by lia.
    rewrite Nat.sub_diag; reflexivity. }
  rewrite Hread.
  assert (Hnext : filter_group stray dat (pre ++ g :: rest) (S (length pre)) =
                  map fst (filter (fun p => (snd p =? 1)%nat) (combine dat rest))).
  { specialize (IH (pre ++ [g]) rest).
    rewrite <- app_assoc in IH; simpl in IH.
    rewrite length_app in IH; simpl in IH.
    rewrite Nat.add_1_r in IH; apply IH; lia. }
  rewrite Hnext.
  destruct (g =? 1)%nat; reflexivity.
Qed.



End GroupedQuantileFacts.

Lemma round_double_zero (x : Q) : (x == 0)%Q -> round_double x = 0%Q.
Proof. apply round_binary_zero. Qed.

(* the double -1 becomes the largest size_t *)
Lemma minus_one_position : to_size_t (Qtruncate (round_double (- (1)))) = 2 ^ 64 - 1.
Proof. vm_compute; reflexivity. Qed.

(* on an empty vector the position is the largest size_t, whatever q *)
Lemma getQuantile_empty (q : Q) : getQuantile [] q = Fail OutOfRange.
Proof.
  unfold getQuantile; cbv zeta.
  change (std_sort Qless []) with (@nil Q).
  rewrite (round_double_zero (round_double (inject_Z (Z.of_nat (length (@nil Q)))) * q))
    by (change (round_double (inject_Z (Z.of_nat (length (@nil Q))))) with 0%Q;
        apply Qmult_0_l).
  change (to_size_t (Qtruncate (round_double (inject_Z (Qceiling 0) - 1))))
    with (to_size_t (Qtruncate (round_double (- (1))))).
  rewrite minus_one_position; reflexivity.
Qed.

(* a rank from 1 to 2^53 gives the position one below it *)
Lemma quantile_position_in_range (size : nat) (q : Q) :
  1 <= quantile_rank size q <= 2 ^ 53 ->
  quantile_position size q = quantile_rank size q - 1.
Proof.
  intro Hr; unfold quantile_position.
  set (r := quantile_rank size q) in *.
  assert (Hpos : Qtruncate (round_double (inject_Z r - 1)) = r - 1).
  { apply Qtruncate_Z, round_binary_Z; [lia | | lia].
    unfold Qminus, Z.sub; rewrite inject_Z_plus; reflexivity. }
  rewrite Hpos; unfold to_size_t; apply Z.mod_small; lia.
Qed.



(* beyond 2^53 the size is not converted exactly: at size 2^53 + 3 and
   q = 1 the position of line 67 is 2^53 + 4, past the end *)
Lemma position_beyond_exact_sizes :
  to_size_t (Qtruncate (round_double (inject_Z (Qceiling
    (round_double (round_double (inject_Z (2 ^ 53 + 3)) * 1))) - 1))) = 2 ^ 53 + 4.
Proof. vm_compute; reflexivity. Qed.

(** C10.  For a non-empty input whose size a double holds exactly (below
    2^53) and q in (0, 1], the position ceil(size * q) - 1 that line 67
    computes is inside the sorted vector and [getQuantile] returns.  For an
    empty input, whatever q, and for q = 0, the position becomes the largest
    [size_t] and [at] throws; so [round] cannot complete when the target set
    idx2 is empty. *)
Theorem getQuantile_position :
  forall (dat : list Q) (q : Q),
    Z.of_nat (length dat) < 2 ^ 64 ->
    (dat <> [] -> Z.of_nat (length dat) < 2 ^ 53 -> (0 < q)%Q -> (q <= 1)%Q ->
     0 <= quantile_position (length dat) q < Z.of_nat (length dat) /\
     exists x, getQuantile dat q = Ok x /\ In x dat) /\
    getQuantile [] q = Fail OutOfRange /\
    getQuantile dat 0 = Fail OutOfRange /\
    (forall dist_rng stray eig_sym sqrt chisq vec_not fuel inp groupingGWAS t st st',
        idx2 st = [] ->
        round dist_rng stray eig_sym sqrt chisq vec_not fuel inp groupingGWAS t st
        <> Ok st').
Proof.
  intros dat q Hsize; split; [|split; [|split]].
  - intros Hne Hexact Hq0 Hq1.
    assert (Hn : 1 <= Z.of_nat (length dat) < 2 ^ 53).
    { destruct dat; [congruence | simpl length in *; lia]. }
    pose proof (quantile_rank_bounds _ q Hn Hq0 Hq1) as Hr.
    split.
    + rewrite quantile_position_in_range by lia; lia.
    + eexists; split; [apply getQuantile_in_range; assumption|].
      eapply Permutation_in; [apply std_sort_perm|].
      apply nth_In; rewrite std_sort_length; lia.
  - apply getQuantile_empty.
  - unfold getQuantile; cbv zeta.
    rewrite std_sort_length.
    rewrite (round_double_zero (round_double (inject_Z (Z.of_nat (length dat))) * 0))
      by apply Qmult_0_r.
    change (to_size_t (Qtruncate (round_double (inject_Z (Qceiling 0) - 1))))
      with (to_size_t (Qtruncate (round_double (- (1))))).
    rewrite minus_one_position.
    unfold vector_at; rewrite std_sort_length.
    destruct (_ <? _) eqn:E; [|reflexivity].
    apply Z.ltb_lt in E; lia.
  - intros dist_rng stray eig_sym sqrt chisq vec_not fuel inp groupingGWAS t st st' Hempty.
    unfold round; rewrite Hempty.
    destruct (oneIteration _ _ _ _ _ _ _ _ _) as [v1|f]; [|discriminate].
    cbn [bind map]; unfold thresholds.
    rewrite getQuantile_empty; discriminate.
Qed.

Lemma getQuantile_position_witness :
  0 <= quantile_position (length [3; 1; 2]%Q) (1 # 2) < Z.of_nat (length [3; 1; 2]%Q) /\
  exists x, getQuantile [3; 1; 2]%Q (1 # 2) = Ok x /\ In x [3; 1; 2]%Q.
Proof.
  apply (getQuantile_position [3; 1; 2]%Q (1 # 2)).
  - reflexivity.
  - discriminate.
  - reflexivity.
  - reflexivity.
  - discriminate.
Defined.

(** ** ImputationEngine *)

Lemma sumQ_ext (n : nat) (f g : nat -> Q) :
  (forall k, (k < n)%nat -> (f k == g k)%Q) -> (sumQ n f == sumQ n g)%Q.
Proof.
  induction n as [|n IH]; intro H; simpl.
  - reflexivity.
  - rewrite IH by (intros k Hk; apply H; lia).
    rewrite (H n) by lia; reflexivity.
Qed.

Lemma sumQ_nonneg (n : nat) (f : nat -> Q) :
  (forall k, (k < n)%nat -> (0 <= f k)%Q) -> (0 <= sumQ n f)%Q.
Proof.
  induction n as [|n IH]; intro H; simpl.
  - apply Qle_refl.
  - rewrite <- (Qplus_0_r 0).
    apply Qplus_le_compat; [apply IH; intros k Hk; apply H; lia | apply H; lia].
Qed.

Lemma sumQ_zero (n : nat) (f : nat -> Q) :
  (forall k, (k < n)%nat -> (f k == 0)%Q) -> (sumQ n f == 0)%Q.
Proof.
  induction n as [|n IH]; intro H; simpl.
  - reflexivity.
  - rewrite IH by (intros k Hk; apply H; lia).
    rewrite (H n) by lia; ring.
Qed.

(* a product with a diagonal matrix keeps one term of each sum *)
Lemma sumQ_diagonal (n m : nat) (c : nat -> Q) (w : Q) :
  (m < n)%nat ->
  (sumQ n (fun l => c l * (if (l =? m)%nat then w else 0)) == c m * w)%Q.
Proof.
  induction n as [|n IH]; intro Hm; [lia|]; simpl.
  destruct (Nat.eq_dec m n) as [->|Hne].
  - rewrite Nat.eqb_refl.
    rewrite sumQ_zero; [ring|].
    intros k Hk.
    assert (E : (k =? n)%nat = false) by (apply Nat.eqb_neq; lia).
    rewrite E; ring.
  - rewrite IH by lia.
    assert (E : (n =? m)%nat = false) by (apply Nat.eqb_neq; lia).
    rewrite E; ring.
Qed.

Lemma Qsquare_nonneg (c : Q) : (0 <= c * c)%Q.
Proof. destruct c as [a b]; unfold Qle; simpl; nia. Qed.

(* with non-negative selected eigenvalues, every R-squared of line 137 is a
   sum of squares over those eigenvalues *)
Lemma rsq_eigen_of_nonneg (LD_it : mat) (eigval : list Q) (eigvec : mat) (K i : nat) :
  n_cols LD_it = n_rows eigvec ->
  (forall m, (m < K)%nat -> (0 <= nth (tail_index eigvec m) eigval 0)%Q) ->
  (0 <= rsq_eigen_of LD_it (select_ui eigvec K) (select_wi eigval eigvec K) i)%Q.
Proof.
  intros Hdim Hpos.
  unfold rsq_eigen_of, mat_mul; simpl.
  apply sumQ_nonneg; intros m Hm.
  rewrite sumQ_diagonal by assumption.
  rewrite Hdim.
  set (c := sumQ (n_rows eigvec)
              (fun k => (elem LD_it i k * elem eigvec k (tail_index eigvec m))%Q)).
  assert (Hc : (sumQ (n_rows eigvec)
                  (fun k => elem eigvec k (tail_index eigvec m) * elem LD_it i k)
                == c)%Q).
  { apply sumQ_ext; intros k _; apply Qmult_comm. }
  rewrite Hc.
  assert (E : (c * (1 / nth (tail_index eigvec m) eigval 0) * c
               == / nth (tail_index eigvec m) eigval 0 * (c * c))%Q)
    by (unfold Qdiv; ring).
  rewrite E.
  apply Qmult_le_0_compat; [|apply Qsquare_nonneg].
  apply Qinv_le_0_compat, Hpos, Hm.
Qed.

Lemma count_below_le (tol : Q) (v : list Q) : (count_below tol v <= length v)%nat.
Proof. apply filter_length_le. Qed.

(* in an ascending vector the entries below the tolerance come first *)
Lemma sorted_above_tolerance (tol : Q) (v : list Q) :
  StronglySorted Qle v ->
  forall j, (count_below tol v <= j < length v)%nat -> (tol <= nth j v 0)%Q.
Proof.
  unfold count_below.
  induction 1 as [|x v Hs IH Hx]; intros j Hj; simpl in *; [lia|].
  destruct (Qless x tol) eqn:E; simpl in Hj.
  - destruct j as [|j]; [lia|].
    apply IH; lia.
  - apply Qless_false in E.
    destruct j as [|j]; [assumption|].
    eapply Qle_trans; [exact E|].
    rewrite Forall_forall in Hx; apply Hx, nth_In; lia.
Qed.

Lemma effective_rank_count (eigval : list Q) :
  (effective_rank eigval + count_below tolerance eigval = length eigval)%nat.
Proof.
  unfold effective_rank, count_below.
  generalize tolerance as tol; intro tol.
  induction eigval as [|x v IH]; simpl; [reflexivity|].
  unfold Qless at 1.
  destruct (Qle_bool tol x); simpl; lia.
Qed.

Lemma to_int_small (z : Z) : 0 <= z < 2 ^ 31 -> to_int z = z.
Proof.
  intro H; unfold to_int.
  rewrite Z.mod_small; lia.
Qed.

Lemma to_uint_small (z : Z) : 0 <= z < 2 ^ 32 -> to_uint z = z.
Proof. intro H; unfold to_uint; apply Z.mod_small; lia. Qed.

(* lines 118-121 without wrap-around *)
Lemma capped_K_small (K : Z) (eigval : list Q) (eigvec : mat) :
  length eigval = n_rows eigvec ->
  Z.of_nat (n_rows eigvec) < 2 ^ 31 ->
  capped_K K eigval eigvec = Z.min K (Z.of_nat (effective_rank eigval)).
Proof.
  intros Hlen Hsmall; unfold capped_K.
  pose proof (count_below_le tolerance eigval) as Hc.
  pose proof (effective_rank_count eigval) as He.
  rewrite !to_int_small by lia.
  rewrite to_uint_small by lia.
  f_equal; lia.
Qed.

Lemma float_mul_uint_nonneg (m : Z) (p : Q) :
  0 <= m -> (0 <= p)%Q -> (0 <= float_mul_uint m p)%Q.
Proof.
  intros Hm Hp; unfold float_mul_uint.
  apply round_binary_nonneg; [lia|].
  apply Qmult_le_0_compat; [|exact Hp].
  apply round_binary_nonneg; [lia | apply inject_Z_nonneg, Hm].
Qed.

(* with a factor in [0, 1] the float product stays below any float that
   bounds the integer *)
Lemma float_mul_uint_le (m B : Z) (p : Q) :
  0 <= m <= B ->
  (round_float (inject_Z B) == inject_Z B)%Q ->
  (0 <= p)%Q -> (p <= 1)%Q ->
  (float_mul_uint m p <= inject_Z B)%Q.
Proof.
  intros Hm HB Hp0 Hp1; unfold float_mul_uint.
  assert (Hfm0 : (0 <= round_float (inject_Z m))%Q).
  { apply round_binary_nonneg; [lia | apply inject_Z_nonneg; lia]. }
  assert (Hfm : (round_float (inject_Z m) <= inject_Z B)%Q).
  { eapply Qle_trans; [|rewrite <- HB; apply Qle_refl].
    apply round_binary_mono; [lia | apply inject_Z_nonneg; lia |].
    rewrite <- Zle_Qle; lia. }
  eapply Qle_trans; [|rewrite <- HB; apply Qle_refl].
  apply round_binary_mono; [lia | apply Qmult_le_0_compat; assumption |].
  eapply Qle_trans; [|exact Hfm].
  rewrite <- (Qmult_1_r (round_float (inject_Z m))) at 2.
  rewrite (Qmult_comm _ p), (Qmult_comm _ 1).
  apply Qmult_le_compat_r; assumption.
Qed.

(* the float product is the exact one rounded when the integer is below
   2^24 *)
Lemma float_mul_uint_exact_factor (m : Z) (p : Q) :
  0 <= m < 2 ^ 24 -> (0 <= p)%Q ->
  (float_mul_uint m p <= round_float (inject_Z m * p))%Q /\
  (round_float (inject_Z m * p) <= float_mul_uint m p)%Q.
Proof.
  intros Hm Hp; unfold float_mul_uint.
  assert (E : (round_float (inject_Z m) == inject_Z m)%Q).
  { apply round_binary_Z; [lia | reflexivity | exact Hm]. }
  assert (Hx : (0 <= inject_Z m * p)%Q).
  { apply Qmult_le_0_compat; [apply inject_Z_nonneg; lia | exact Hp]. }
  split; apply round_binary_mono; try lia; rewrite ?E; auto; apply Qle_refl.
Qed.

(* line 91 without wrap-around *)
Lemma initial_K_small (idx : list nat) (nSample : Z) (probSVD : Q) :
  Z.of_nat (length idx) < 2 ^ 31 ->
  0 <= nSample ->
  (0 <= probSVD)%Q -> (probSVD <= 1)%Q ->
  initial_K idx nSample probSVD =
  Qfloor (float_mul_uint (Z.min (Z.of_nat (length idx)) nSample) probSVD).
Proof.
  intros Hsize Hn Hp0 Hp1; unfold initial_K.
  rewrite (to_uint_small (Z.of_nat (length idx))) by lia.
  set (m := Z.min (Z.of_nat (length idx)) nSample).
  assert (Hm : 0 <= m <= 2 ^ 31) by (unfold m; lia).
  pose proof (float_mul_uint_nonneg m probSVD ltac:(lia) Hp0) as Hprod0.
  assert (Hprod1 : (float_mul_uint m probSVD <= inject_Z (2 ^ 31))%Q).
  { apply float_mul_uint_le; auto.
    vm_compute; reflexivity. }
  unfold Qtruncate.
  apply Qle_bool_iff in Hprod0 as Hb; rewrite Hb.
  apply to_uint_small.
  pose proof (Qfloor_resp_le _ _ Hprod0) as Hlo.
  pose proof (Qfloor_resp_le _ _ Hprod1) as Hhi.
  change 0%Q with (inject_Z 0) in Hlo.
  rewrite Qfloor_Z in Hlo, Hhi; lia.
Qed.

Section ScatterLoop.

Variable sqrt : Q -> Q.
Variable LDmat : mat.
Variable idx2 : list nat.
Variable zScore : list Q.
Variables zScore_eigen_imp rsq_eigen : nat -> Q.

Let body := scatter_body sqrt LDmat idx2 zScore zScore_eigen_imp rsq_eigen.

Lemma scatter_body_ok s i s' :
  body s i = Ok s' ->
  (rsq_eigen i < 1)%Q /\
  imputedZ s' = store (imputedZ s) (nth i idx2 0%nat) (zScore_eigen_imp i) /\
  rsq s' = store (rsq s) (nth i idx2 0%nat) (rsq_eigen i) /\
  exists e, zScore_e s' = store (zScore_e s) (nth i idx2 0%nat) e.
Proof.
  unfold body, scatter_body.
  destruct (Qle_bool 1 (rsq_eigen i)) eqn:E; [discriminate|].
  intro H; injection H as <-; simpl.
  split; [|repeat split; eexists; reflexivity].
  apply Qnot_le_lt; intro Hle; apply Qle_bool_iff in Hle; congruence.
Qed.

(* the loop writes at the positions idx2[i] only *)
Lemma scatter_frame l : forall s s',
  for_each body l s = Ok s' ->
  (length (imputedZ s') = length (imputedZ s) /\
   length (rsq s') = length (rsq s) /\
   length (zScore_e s') = length (zScore_e s)) /\
  forall j, (forall i, In i l -> nth i idx2 0%nat <> j) ->
    nth j (imputedZ s') 0%Q = nth j (imputedZ s) 0%Q /\
    nth j (rsq s') 0%Q = nth j (rsq s) 0%Q /\
    nth j (zScore_e s') 0%Q = nth j (zScore_e s) 0%Q.
Proof.
  induction l as [|i l IH]; intros s s' H; simpl in H.
  - injection H as <-; auto.
  - destruct (body s i) as [s1|f] eqn:E; simpl in H; [|discriminate].
    destruct (scatter_body_ok _ _ _ E) as [_ [Hz [Hr [e He]]]].
    destruct (IH _ _ H) as [[L1 [L2 L3]] Hframe].
    split.
    + rewrite L1, L2, L3, Hz, Hr, He, !store_length; auto.
    + intros j Hj.
      destruct (Hframe j) as [F1 [F2 F3]]; [intros i' Hi'; apply Hj; right; assumption|].
      assert (Hne : nth i idx2 0%nat <> j) by (apply Hj; left; reflexivity).
      rewrite F1, F2, F3, Hz, Hr, He, !nth_store_other by assumption; auto.
Qed.

(* a loop that completes has found every R-squared below 1 *)
Lemma scatter_checked l : forall s s',
  for_each body l s = Ok s' ->
  forall i, In i l -> (rsq_eigen i < 1)%Q.
Proof.
  induction l as [|i0 l IH]; intros s s' H i Hi; simpl in *; [contradiction|].
  destruct (body s i0) as [s1|f] eqn:E; simpl in H; [|discriminate].
  destruct Hi as [<- | Hi].
  - apply (scatter_body_ok _ _ _ E).
  - eapply IH; eassumption.
Qed.

(* a written entry of rsqList holds one of the computed R-squared *)
Lemma scatter_written l : forall s s',
  for_each body l s = Ok s' ->
  forall j, (j < length (rsq s))%nat ->
    (exists i, In i l /\ nth i idx2 0%nat = j) ->
    exists i, In i l /\ nth j (rsq s') 0%Q = rsq_eigen i.
Proof.
  induction l as [|i0 l IH]; intros s s' H j Hj [i [Hi Hij]]; simpl in *;
    [contradiction|].
  destruct (body s i0) as [s1|f] eqn:E; simpl in H; [|discriminate].
  destruct (scatter_body_ok _ _ _ E) as [_ [_ [Hr _]]].
  destruct (existsb (fun i => (nth i idx2 0 =? j)%nat) l) eqn:Elater.
  - apply existsb_exists in Elater; destruct Elater as [i' [Hi' Hi'j]].
    apply Nat.eqb_eq in Hi'j.
    destruct (IH _ _ H j) as [i'' [Hin Hval]].
    + rewrite Hr, store_length; assumption.
    + exists i'; auto.
    + exists i''; auto.
  - assert (Hnone : forall i', In i' l -> nth i' idx2 0%nat <> j).
    { intros i' Hi' Heq.
      assert (existsb (fun i => (nth i idx2 0 =? j)%nat) l = true)
        by (apply existsb_exists; exists i'; split; [assumption | apply Nat.eqb_eq, Heq]).
      congruence. }
    destruct Hi as [<- | Hi]; [|exfalso; eapply Hnone; eassumption].
    destruct (scatter_frame _ _ _ H) as [_ Hframe].
    destruct (Hframe j Hnone) as [_ [F2 _]].
    exists i0; split; [left; reflexivity|].
    rewrite F2, Hr, Hij; apply nth_store_same; assumption.
Qed.

(* an R-squared of 1 or more stops the loop *)
Lemma scatter_stops l : forall s,
  (exists i, In i l /\ (1 <= rsq_eigen i)%Q) ->
  exists r, (1 <= r)%Q /\ for_each body l s = Fail (RcppStop (DividingZero r)).
Proof.
  induction l as [|i0 l IH]; intros s [i [Hi Hbig]]; simpl in *; [contradiction|].
  unfold body at 1, scatter_body.
  destruct (Qle_bool 1 (rsq_eigen i0)) eqn:E.
  - exists (rsq_eigen i0); split; [apply Qle_bool_iff; assumption | reflexivity].
  - destruct Hi as [<- | Hi].
    + apply Qle_bool_iff in Hbig; congruence.
    + simpl; apply IH; exists i; auto.
Qed.

End ScatterLoop.

Section ImputationEngineFacts.

Variable eig_sym : mat -> list Q * mat.
Variable sqrt : Q -> Q.

(* [oneIteration] is the rank check followed by the scatter loop *)
Lemma oneIteration_unfold LDmat idx idx2 zScore s nSample probSVD :
  oneIteration eig_sym sqrt LDmat idx idx2 zScore s nSample probSVD =
  if rank_K eig_sym LDmat idx nSample probSVD <=? 1
  then Fail (RcppStop RankLeOne)
  else
    let '(eigval, eigvec) := eig_sym (gather_VV LDmat idx) in
    let K := Z.to_nat (rank_K eig_sym LDmat idx nSample probSVD) in
    let beta := mat_mul (mat_mul (gather_LD_it LDmat idx idx2) (select_ui eigvec K))
                        (select_wi eigval eigvec K) in
    let imp := mat_mul beta (mat_mul (mat_t (select_ui eigvec K))
                                     (gather_zScore_eigen idx zScore)) in
    for_each (scatter_body sqrt LDmat idx2 zScore
                           (fun i => elem imp i 0%nat)
                           (computed_rsq eig_sym LDmat idx idx2 nSample probSVD))
             (seq 0 (length idx2)) s.
Proof.
  unfold oneIteration, rank_K, computed_rsq.
  destruct (eig_sym (gather_VV LDmat idx)) as [eigval eigvec].
  reflexivity.
Qed.

Lemma oneIteration_rank_failure LDmat idx idx2 zScore s nSample probSVD :
  oneIteration eig_sym sqrt LDmat idx idx2 zScore s nSample probSVD
  = Fail (RcppStop RankLeOne) <->
  rank_K eig_sym LDmat idx nSample probSVD <= 1.
Proof.
  rewrite oneIteration_unfold.
  destruct (rank_K eig_sym LDmat idx nSample probSVD <=? 1) eqn:E.
  - apply Z.leb_le in E; split; auto.
  - apply Z.leb_gt in E.
    split; [|lia].
    destruct (eig_sym (gather_VV LDmat idx)) as [eigval eigvec]; cbv zeta.
    generalize (seq 0 (length idx2)); intros l; revert s.
    induction l as [|i l IH]; intros s H; simpl in H; [discriminate|].
    unfold scatter_body at 1 in H.
    destruct (Qle_bool 1 _); [discriminate|].
    simpl in H; apply IH in H; lia.
Qed.


(* [oneIteration] leaves every entry outside idx2 as it was *)
Lemma oneIteration_frame LDmat idx idx2 zScore s nSample probSVD s' :
  oneIteration eig_sym sqrt LDmat idx idx2 zScore s nSample probSVD = Ok s' ->
  (length (imputedZ s') = length (imputedZ s) /\
   length (rsq s') = length (rsq s) /\
   length (zScore_e s') = length (zScore_e s)) /\
  forall j, ~ In j idx2 ->
    nth j (imputedZ s') 0%Q = nth j (imputedZ s) 0%Q /\
    nth j (rsq s') 0%Q = nth j (rsq s) 0%Q /\
    nth j (zScore_e s') 0%Q = nth j (zScore_e s) 0%Q.
Proof.
  rewrite oneIteration_unfold.
  destruct (_ <=? 1); [discriminate|].
  destruct (eig_sym (gather_VV LDmat idx)) as [eigval eigvec]; cbv zeta.
  intro H; apply scatter_frame in H; destruct H as [Hlen Hframe].
  split; [assumption|].
  intros j Hj; apply Hframe.
  intros i Hi Heq; apply in_seq in Hi.
  apply Hj; rewrite <- Heq; apply nth_In; lia.
Qed.

End ImputationEngineFacts.

(** ** QCOrchestrator *)

Lemma filter_seq_above (h n : nat) :
  length (filter (fun v => (h <? v)%nat) (seq 0 n)) = (n - (h + 1))%nat.
Proof.
  induction n as [|n IH]; [reflexivity|].
  rewrite seq_S, filter_app, length_app, IH.
  cbn [filter Nat.add].
  destruct (h <? n)%nat eqn:E; cbn [length].
  - apply Nat.ltb_lt in E; lia.
  - apply Nat.ltb_ge in E; lia.
Qed.

Lemma filter_length_perm {A : Type} (f : A -> bool) (l l' : list A) :
  Permutation l l' -> length (filter f l) = length (filter f l').
Proof.
  induction 1 as [| x l l' _ IH | x y l | l l' l'' _ IH1 _ IH2]; simpl; auto.
  - destruct (f x); simpl; auto.
  - destruct (f x), (f y); reflexivity.
  - congruence.
Qed.

Lemma filter_positions {A : Type} (f : A -> bool) (d : A) (l : list A) :
  length (filter (fun i => f (nth i l d)) (seq 0 (length l))) = length (filter f l).
Proof.
  induction l as [|x l IH] using rev_ind; [reflexivity|].
  rewrite length_app; simpl length.
  rewrite Nat.add_1_r, seq_S, !filter_app, !length_app; simpl.
  rewrite app_nth2, Nat.sub_diag by lia; simpl.
  f_equal.
  - rewrite <- IH.
    f_equal; apply filter_ext_in.
    intros i Hi; apply in_seq in Hi.
    rewrite app_nth1 by lia; reflexivity.
  - destruct (f x); reflexivity.
Qed.

(* what the loop of lines 249-256 leaves in (fullIdx_tmp, iterID) *)
Section SurvivorLoop.

Variable stray : list nat -> nat -> nat.
Variable groupingGWAS : list nat.
Variable zScore_e : list Q.
Variables threshold1 threshold0 : Q.

Let passes (i : nat) : bool :=
  within (vread stray groupingGWAS i) (Qabs (nth i zScore_e 0%Q))
         threshold1 threshold0.

Lemma bump_length iterID i : length (bump iterID i) = length iterID.
Proof. apply store_length. Qed.

Lemma bump_increases iterID i j :
  nth j iterID 0 <= nth j (bump iterID i) 0.
Proof.
  unfold bump.
  destruct (Nat.eq_dec i j) as [->|Hne].
  - destruct (Nat.lt_ge_cases j (length iterID)) as [Hlt|Hge].
    + rewrite nth_store_same by assumption; lia.
    + rewrite !nth_overflow; rewrite ?store_length; lia.
  - rewrite nth_store_other by assumption; lia.
Qed.

Lemma survivors l : forall acc iterID,
  exists iterID',
    fold_left (survive_body stray groupingGWAS zScore_e threshold1 threshold0)
              l (acc, iterID) = (acc ++ filter passes l, iterID') /\
    length iterID' = length iterID /\
    forall j, nth j iterID 0 <= nth j iterID' 0.
Proof.
  induction l as [|i l IH]; intros acc iterID; simpl.
  - exists iterID; rewrite app_nil_r; repeat split; auto; intros; lia.
  - unfold survive_body at 2; fold (passes i); simpl fst; simpl snd.
    destruct (passes i).
    + destruct (IH (acc ++ [i]) (bump iterID i)) as [it [H1 [H2 H3]]].
      exists it; rewrite H1, H2, <- app_assoc, bump_length; repeat split; auto.
      intro j; specialize (H3 j).
      pose proof (bump_increases iterID i j); lia.
    + apply IH.
Qed.

End SurvivorLoop.

Section QCOrchestratorFacts.

Variable dist_rng : Z -> nat -> Z.
Variable stray : list nat -> nat -> nat.
Variable eig_sym : mat -> list Q * mat.
Variable sqrt : Q -> Q.
Variable chi2cdf : Q -> Q -> Q.
Variable log10 : Q -> Q.
Variable chisq : Z -> list Q.
Variable vec_not : list nat -> list nat.

Lemma bisect_splits randOrder half positions a b :
  bisect stray randOrder half positions = (a, b) ->
  (forall x, In x positions <-> In x a \/ In x b) /\
  (forall x, In x a -> ~ In x b) /\
  (length a + length b = length positions)%nat.
Proof.
  unfold bisect; intro H; injection H as <- <-.
  split; [|split].
  - intro x; rewrite !filter_In.
    destruct (half <? vread stray randOrder x)%nat; simpl; split.
    + intro Hx; left; split; [assumption | reflexivity].
    + intros [[Hx _] | [_ Hx]]; [assumption | discriminate].
    + intro Hx; right; split; [assumption | reflexivity].
    + intros [[_ Hx] | [Hx _]]; [discriminate | assumption].
  - intros x Ha Hb; apply filter_In in Ha, Hb.
    destruct Ha as [_ Ha], Hb as [_ Hb]; rewrite Ha in Hb; discriminate.
  - apply filter_length.
Qed.

Lemma vread_in_range (v : list nat) (i : nat) :
  (i < length v)%nat -> vread stray v i = nth i v 0%nat.
Proof.
  intro Hi; unfold vread.
  destruct (nth_error v i) as [x|] eqn:E.
  - symmetry; apply nth_error_nth; assumption.
  - apply nth_error_None in E; lia.
Qed.

(* lines 195-202: the first active set is all of 0 .. markerSize-1, of
   which the ranks above markerSize/2 go to idx *)
Lemma init_partition fuel inp st :
  Z.of_nat (markerSize inp) < 2 ^ 32 ->
  init dist_rng stray fuel inp = Ok st ->
  Permutation (fullIdx st) (seq 0 (markerSize inp)) /\
  partitions st /\
  length (idx st) = (markerSize inp - (markerSize inp / 2 + 1))%nat /\
  length (idx2 st) = (markerSize inp / 2 + 1)%nat /\
  vecs st = mkVecs (repeat 0%Q (markerSize inp)) (repeat 0%Q (markerSize inp))
                   (repeat 0%Q (markerSize inp)) /\
  iterID st = repeat 0 (markerSize inp).
Proof.
  intros HM; unfold init.
  set (M := markerSize inp) in *.
  destruct (generateSetOfNumbers dist_rng fuel (to_int (Z.of_nat M)) (seed inp))
    as [ro|f] eqn:Egen; cbn [bind]; [|discriminate].
  destruct (bisect stray ro (M / 2) (seq 0 M)) as [a b] eqn:Eb.
  intro H; injection H as <-; unfold partitions; cbn [fullIdx idx idx2 vecs iterID].
  destruct (generateSetOfNumbers_perm _ _ _ _ _ Egen) as [Hpos Hperm].
  assert (Hsmall : Z.of_nat M < 2 ^ 31).
  { unfold to_int in Hpos.
    destruct (Z_lt_ge_dec (Z.of_nat M) (2 ^ 31)) as [Hlt|Hge]; [assumption|].
    exfalso.
    replace ((Z.of_nat M + 2 ^ 31) mod 2 ^ 32) with (Z.of_nat M - 2 ^ 31) in Hpos;
      [lia|].
    apply Z.mod_unique with (q := 1); lia. }
  rewrite to_int_small in Hperm, Hpos by lia.
  rewrite Nat2Z.id in Hperm.
  specialize (Hperm ltac:(lia)).
  destruct (bisect_splits _ _ _ _ _ Eb) as [Hunion [Hdisj Hsum]].
  assert (Hlen : length ro = M).
  { rewrite (Permutation_length Hperm); apply length_seq. }
  assert (Ha : length a = (M - (M / 2 + 1))%nat).
  { unfold bisect in Eb; injection Eb as <- _.
    rewrite <- (filter_seq_above (M / 2) M).
    rewrite <- (filter_length_perm (fun v => (M / 2 <? v)%nat) _ _ Hperm).
    rewrite <- (filter_positions (fun v => (M / 2 <? v)%nat) 0%nat ro).
    rewrite Hlen; f_equal.
    apply filter_ext_in; intros i Hi; apply in_seq in Hi.
    rewrite vread_in_range by lia; reflexivity. }
  rewrite length_seq in Hsum.
  assert (Hhalf : (M / 2 < M)%nat).
  { apply Nat.div_lt; lia. }
  repeat split; auto; try lia.
  - intro Hx; apply Hunion.
    eapply Permutation_in; [exact Hperm | exact Hx].
  - intro Hx; apply Hunion in Hx.
    eapply Permutation_in; [apply Permutation_sym, Hperm | exact Hx].
Qed.

Lemma qc_targets_incl idx2 diff grouping_tmp t1 t0 :
  length diff = length idx2 ->
  incl (qc_targets idx2 diff grouping_tmp t1 t0) idx2.
Proof.
  intros Hlen x Hx; unfold qc_targets in Hx.
  apply in_map_iff in Hx; destruct Hx as [i [<- Hi]].
  apply filter_In in Hi; destruct Hi as [Hi _].
  apply in_seq in Hi; apply nth_In; lia.
Qed.

(* what a completed pass of the loop body has done *)
Lemma round_ok fuel inp groupingGWAS t st st' :
  round dist_rng stray eig_sym sqrt chisq vec_not fuel inp groupingGWAS t st = Ok st' ->
  exists v1 qc survivors iterID',
    oneIteration eig_sym sqrt (LDmat inp) (idx st) (idx2 st) (zScore inp)
                 (vecs st) (nSample inp) (propSVD inp) = Ok v1 /\
    incl qc (idx2 st) /\
    oneIteration eig_sym sqrt (LDmat inp) (idx st) qc (zScore inp)
                 v1 (nSample inp) (propSVD inp) = Ok (vecs st') /\
    incl survivors (fullIdx st) /\
    (length survivors <= length (fullIdx st))%nat /\
    fullIdx st' =
      (if gcControl inp
       then survivors ++ gc_retained chisq inp t (zScore_e (vecs st')) (fullIdx st)
       else survivors) /\
    iterID st' = iterID' /\
    length iterID' = length (iterID st) /\
    (forall j, nth j (iterID st) 0 <= nth j iterID' 0) /\
    bisect stray (randOrder st') (length (fullIdx st') / 2) (fullIdx st')
    = (idx st', idx2 st').
Proof.
  unfold round.
  destruct (oneIteration _ _ _ _ _ _ _ _ _) as [v1|f] eqn:E1; [|discriminate].
  cbn [bind].
  set (diff := map (fun j => Qabs (nth j (zScore_e v1) 0%Q)) (idx2 st)).
  set (grouping_tmp := map (fun j => vread stray groupingGWAS j) (idx2 st)).
  destruct (thresholds stray vec_not diff grouping_tmp) as [[[thr t1] t0]|f] eqn:Et;
    [|discriminate].
  cbn [bind].
  set (qc := qc_targets (idx2 st) diff grouping_tmp t1 t0).
  destruct (oneIteration eig_sym sqrt (LDmat inp) (idx st) qc _ _ _ _) as [v2|f] eqn:E2;
    [|discriminate].
  cbn [bind].
  destruct (survivors stray groupingGWAS (zScore_e v2) t1 t0 (fullIdx st) [] (iterID st))
    as [it [Hfold [Hlen Hmono]]].
  rewrite Hfold.
  set (fullIdx' := if gcControl inp then _ else _).
  destruct (generateSetOfNumbers _ _ _ _) as [ro|f]; [|discriminate].
  cbn [bind].
  destruct (bisect stray ro (length fullIdx' / 2) fullIdx') as [a b] eqn:Eb.
  intro H; injection H as <-; cbn [vecs fullIdx iterID randOrder idx idx2].
  exists v1, qc, (filter (fun i => within (vread stray groupingGWAS i)
                                       (Qabs (nth i (zScore_e v2) 0%Q)) t1 t0)
                    (fullIdx st)), it.
  repeat split; auto.
  - apply qc_targets_incl; unfold diff; apply length_map.
  - intros x Hx; apply filter_In in Hx; destruct Hx; assumption.
  - apply filter_length_le.
Qed.

Lemma gc_retained_incl inp t zScore_e fullIdx :
  incl (gc_retained chisq inp t zScore_e fullIdx) fullIdx.
Proof. intros x Hx; apply filter_In in Hx; destruct Hx; assumption. Qed.

(* a property that [init] sets up or every round restores holds after
   any number of rounds *)
Lemma rounds_invariant (P : state -> Prop) fuel inp groupingGWAS :
  (forall t st st',
      round dist_rng stray eig_sym sqrt chisq vec_not fuel inp groupingGWAS t st = Ok st' ->
      P st -> P st') ->
  forall todo t st st',
    rounds dist_rng stray eig_sym sqrt chisq vec_not fuel inp groupingGWAS todo t st
    = Ok st' ->
    P st -> P st'.
Proof.
  intros Hstep todo; induction todo as [|todo IH]; intros t st st' H HP; simpl in H.
  - injection H as <-; assumption.
  - destruct (round _ _ _ _ _ _ _ _ _ _ _) as [st1|f] eqn:E; [|discriminate].
    cbn [bind] in H.
    eapply IH; [exact H|].
    eapply Hstep; eassumption.
Qed.

Lemma round_partitions fuel inp groupingGWAS t st st' :
  round dist_rng stray eig_sym sqrt chisq vec_not fuel inp groupingGWAS t st = Ok st' ->
  partitions st'.
Proof.
  intro H; apply round_ok in H.
  destruct H as [v1 [qc [sv [it [_ [_ [_ [_ [_ [_ [_ [_ [_ Hb]]]]]]]]]]]]].
  apply bisect_splits in Hb; exact Hb.
Qed.

(* rounds compose *)
Lemma rounds_app fuel inp groupingGWAS a b : forall t st,
  rounds dist_rng stray eig_sym sqrt chisq vec_not fuel inp groupingGWAS (a + b) t st =
  (st' <- rounds dist_rng stray eig_sym sqrt chisq vec_not fuel inp groupingGWAS a t st ;;
   rounds dist_rng stray eig_sym sqrt chisq vec_not fuel inp groupingGWAS b
          (t + Z.of_nat a) st').
Proof.
  induction a as [|a IH]; intros t st.
  - simpl; rewrite Z.add_0_r; reflexivity.
  - cbn [rounds Nat.add].
    destruct (round _ _ _ _ _ _ _ _ _ _ _) as [st1|f]; cbn [bind]; [|reflexivity].
    rewrite IH; replace (t + 1 + Z.of_nat a) with (t + Z.of_nat (S a)) by lia.
    reflexivity.
Qed.

(* a failure of the first call of [oneIteration] in some round is the
   outcome of every longer run *)
Lemma abort_propagates fuel inp a b st f :
  state_after dist_rng stray eig_sym sqrt chi2cdf log10 chisq vec_not fuel inp a = Ok st ->
  oneIteration eig_sym sqrt (LDmat inp) (idx st) (idx2 st) (zScore inp)
               (vecs st) (nSample inp) (propSVD inp) = Fail f ->
  state_after dist_rng stray eig_sym sqrt chi2cdf log10 chisq vec_not fuel inp (a + S b)
  = Fail f.
Proof.
  unfold state_after; intros Ha Hf.
  destruct (init dist_rng stray fuel inp) as [st0|f0]; [|discriminate].
  cbn [bind] in *.
  rewrite rounds_app, Ha; cbn [bind rounds].
  unfold round; rewrite Hf; reflexivity.
Qed.

(* every marker of the active set is a marker id below markerSize, so the
   reads of zScore_e, groupingGWAS and iterID at these ids are in range *)
Lemma active_markers_in_range fuel inp n st :
  Z.of_nat (markerSize inp) < 2 ^ 32 ->
  state_after dist_rng stray eig_sym sqrt chi2cdf log10 chisq vec_not fuel inp n = Ok st ->
  forall x, In x (fullIdx st) -> (x < markerSize inp)%nat.
Proof.
  intros HM; unfold state_after.
  destruct (init dist_rng stray fuel inp) as [st0|f] eqn:E0; [|discriminate].
  cbn [bind]; intro H.
  destruct (init_partition fuel inp st0 HM E0) as [Hperm _].
  refine (rounds_invariant
            (fun s => forall x, In x (fullIdx s) -> (x < markerSize inp)%nat)
            fuel inp _ _ n 0 st0 st H _).
  - intros t s s' Hr Hs x Hx.
    apply round_ok in Hr.
    destruct Hr as [v1 [qc [sv [it [_ [_ [_ [Hsv [_ [Hfull _]]]]]]]]]].
    rewrite Hfull in Hx; apply Hs.
    destruct (gcControl inp); [|apply Hsv, Hx].
    apply in_app_or in Hx; destruct Hx as [Hx|Hx];
      [apply Hsv, Hx | eapply gc_retained_incl, Hx].
  - intros x Hx.
    apply (Permutation_in _ Hperm), in_seq in Hx; lia.
Qed.

End QCOrchestratorFacts.

(** C1, as stated, fails.  With six markers the first bisection puts two
    markers in idx and four in idx2: the sizes differ by 2. *)
Lemma even_marker_count_unbalanced :
  exists st,
    state_after demo_rng demo_stray demo_eig_sym demo_sqrt demo_chi2cdf demo_log10
                demo_chisq lnot_each 5 (demo_inputs false 1) 0 = Ok st /\
    length (idx st) = 2%nat /\ length (idx2 st) = 4%nat /\
    ~ (length (idx2 st) - length (idx st) <= 1)%nat.
Proof.
  eexists; split; [vm_compute; reflexivity|].
  cbn [idx idx2 length]; repeat split; lia.
Qed.

(** C1, amended.  After [init] and after every completed round, idx and
    idx2 partition the active set fullIdx: no marker is in both, a marker is
    in fullIdx exactly when it is in one of them, and
    |idx| + |idx2| = |fullIdx|.  In the first partition idx2 holds
    markerSize/2 + 1 markers and idx the other markerSize - markerSize/2 - 1,
    so their sizes differ by 1 when markerSize is odd and by 2 when it is
    even. *)
Theorem bisection_partitions_active_set :
  forall dist_rng stray eig_sym sqrt chi2cdf log10 chisq vec_not fuel inp n st,
    Z.of_nat (markerSize inp) < 2 ^ 32 ->
    state_after dist_rng stray eig_sym sqrt chi2cdf log10 chisq vec_not fuel inp n = Ok st ->
    partitions st /\
    (n = 0%nat ->
     length (idx2 st) = (markerSize inp / 2 + 1)%nat /\
     length (idx st) = (markerSize inp - (markerSize inp / 2 + 1))%nat).
Proof.
  intros dist_rng stray eig_sym sqrt chi2cdf log10 chisq vec_not fuel inp n st HM.
  unfold state_after.
  destruct (init dist_rng stray fuel inp) as [st0|f] eqn:E0; [|discriminate].
  cbn [bind]; intro H.
  destruct (init_partition dist_rng stray fuel inp st0 HM E0) as [_ [Hp [Ha [Hb _]]]].
  split.
  - refine (rounds_invariant dist_rng stray eig_sym sqrt chisq vec_not partitions
              fuel inp _ _ n 0 st0 st H Hp).
    intros t s s' Hr _; eapply round_partitions; exact Hr.
  - intros ->; simpl in H; injection H as <-; auto.
Qed.

Lemma bisection_partitions_active_set_witness :
  exists st,
    state_after demo_rng demo_stray demo_eig_sym demo_sqrt demo_chi2cdf demo_log10
                demo_chisq lnot_each 5 (demo_inputs false 2) 1 = Ok st /\
    partitions st.
Proof.
  eexists; split; [vm_compute; reflexivity|].
  eapply (bisection_partitions_active_set demo_rng demo_stray demo_eig_sym demo_sqrt
            demo_chi2cdf demo_log10 demo_chisq lnot_each 5 (demo_inputs false 2) 1).
  - reflexivity.
  - vm_compute; reflexivity.
Defined.

(* a round reads the collection chisq only to choose the markers that lines
   266-271 append *)
Lemma round_chisq dist_rng stray eig_sym sqrt chisq chisq' vec_not fuel inp
      groupingGWAS t st st' :
  round dist_rng stray eig_sym sqrt chisq vec_not fuel inp groupingGWAS t st = Ok st' ->
  gc_retained chisq' inp t (zScore_e (vecs st')) (fullIdx st) =
  gc_retained chisq inp t (zScore_e (vecs st')) (fullIdx st) ->
  round dist_rng stray eig_sym sqrt chisq' vec_not fuel inp groupingGWAS t st = Ok st'.
Proof.
  unfold round.
  destruct (oneIteration _ _ _ _ _ _ _ _ _) as [v1|f]; [|discriminate].
  cbn [bind].
  destruct (thresholds _ _ _ _) as [[[thr t1] t0]|f]; [|discriminate].
  cbn [bind].
  destruct (oneIteration _ _ _ _ _ _ _ _ _) as [v2|f]; [|discriminate].
  cbn [bind].
  destruct (fold_left _ _ _) as [fullIdx_tmp it].
  destruct (gcControl inp).
  - destruct (generateSetOfNumbers dist_rng fuel
                (to_int (Z.of_nat (length (fullIdx_tmp ++ gc_retained chisq inp t
                                             (zScore_e v2) (fullIdx st)))))
                (20000 + t * 20000)) as [ro|f] eqn:Eg; [|discriminate].
    cbn [bind].
    destruct (bisect stray ro _ _) as [a b] eqn:Eb.
    intro H; injection H as <-; cbn [vecs]; intro Hgc.
    rewrite Hgc, Eg; cbn [bind]; rewrite Eb; reflexivity.
  - intros H _; exact H.
Qed.

Lemma rounds_one dist_rng stray eig_sym sqrt chisq vec_not fuel inp groupingGWAS t st :
  rounds dist_rng stray eig_sym sqrt chisq vec_not fuel inp groupingGWAS 1 t st =
  round dist_rng stray eig_sym sqrt chisq vec_not fuel inp groupingGWAS t st.
Proof.
  cbn [rounds]; destruct (round _ _ _ _ _ _ _ _ _ _ _); reflexivity.
Qed.

(* lines 266-271 append every active marker whose adjusted statistic is 0 *)
Lemma gc_retained_zero chisq inp t zScore_e fullIdx :
  (0 < pValueThreshold inp)%Q ->
  (forall i, In i fullIdx -> (nth i zScore_e 0 == 0)%Q) ->
  gc_retained chisq inp t zScore_e fullIdx = fullIdx.
Proof.
  intros Hp Hz; unfold gc_retained.
  induction fullIdx as [|i l IH]; [reflexivity|].
  cbn [filter].
  assert (Hi : Qless (nth i zScore_e 0%Q * nth i zScore_e 0%Q / inflationFactor chisq t)
                     (pValueThreshold inp) = true).
  { apply Qless_true.
    unfold Qdiv; rewrite (Hz i (or_introl eq_refl)), !Qmult_0_l; exact Hp. }
  cbv zeta; rewrite Hi; f_equal.
  apply IH; intros j Hj; apply Hz; right; exact Hj.
Qed.

(** C5.  With genomic control on, lines 266-271 append to the vector that
    lines 249-256 have just filled.  For six uncorrelated markers with zero
    statistics, whatever the collection chisq holds, provided its median is
    not 0 (so that the quotient of line 267 is a number), every marker passes
    both tests of the first round and is listed twice: the first active set
    has six entries, the next one twelve. *)
Theorem genomic_control_grows_active_set :
  forall chisq : Z -> list Q,
    ~ (inflationFactor chisq 0 == 0)%Q ->
    exists st0 st1,
      state_after demo_rng demo_stray demo_eig_sym demo_sqrt demo_chi2cdf demo_log10
                  chisq lnot_each 5 (demo_inputs true 1) 0 = Ok st0 /\
      state_after demo_rng demo_stray demo_eig_sym demo_sqrt demo_chi2cdf demo_log10
                  chisq lnot_each 5 (demo_inputs true 1) 1 = Ok st1 /\
      length (fullIdx st0) = 6%nat /\ length (fullIdx st1) = 12%nat /\
      fullIdx st1 = fullIdx st0 ++ fullIdx st0.
Proof.
  intros chisq _.
  do 2 eexists; split; [vm_compute; reflexivity|].
  split.
  { unfold state_after.
    remember (init demo_rng demo_stray 5 (demo_inputs true 1)) as i0 eqn:E0.
    vm_compute in E0; subst i0; cbn [bind].
    rewrite rounds_one.
    eapply (round_chisq demo_rng demo_stray demo_eig_sym demo_sqrt demo_chisq chisq).
    - vm_compute; reflexivity.
    - cbn [vecs zScore_e fullIdx].
      rewrite gc_retained_zero; [vm_compute; reflexivity | reflexivity |].
      intros i Hi; cbn [In] in Hi.
      repeat (destruct Hi as [<-|Hi]; [reflexivity|]); contradiction. }
  split; [reflexivity | split; reflexivity].
Qed.

Lemma genomic_control_grows_active_set_witness :
  exists st0 st1,
    state_after demo_rng demo_stray demo_eig_sym demo_sqrt demo_chi2cdf demo_log10
                demo_chisq lnot_each 5 (demo_inputs true 1) 0 = Ok st0 /\
    state_after demo_rng demo_stray demo_eig_sym demo_sqrt demo_chi2cdf demo_log10
                demo_chisq lnot_each 5 (demo_inputs true 1) 1 = Ok st1 /\
    length (fullIdx st0) = 6%nat /\ length (fullIdx st1) = 12%nat /\
    fullIdx st1 = fullIdx st0 ++ fullIdx st0.
Proof.
  apply (genomic_control_grows_active_set demo_chisq).
  intro H; vm_compute in H; discriminate H.
Defined.

(** X18.  Across any number of rounds every marker of the later active set
    comes from the earlier one; with genomic control off the size of fullIdx
    does not increase; and, with or without genomic control, no entry of
    iterID decreases. *)
Theorem active_set_and_survival_counts :
  forall dist_rng stray eig_sym sqrt chisq vec_not fuel inp groupingGWAS todo t st st',
    rounds dist_rng stray eig_sym sqrt chisq vec_not fuel inp groupingGWAS todo t st
    = Ok st' ->
    incl (fullIdx st') (fullIdx st) /\
    (gcControl inp = false -> (length (fullIdx st') <= length (fullIdx st))%nat) /\
    length (iterID st') = length (iterID st) /\
    forall j, nth j (iterID st) 0 <= nth j (iterID st') 0.
Proof.
  intros dist_rng stray eig_sym sqrt chisq vec_not fuel inp groupingGWAS todo t st st' H.
  refine (rounds_invariant dist_rng stray eig_sym sqrt chisq vec_not
           (fun s => incl (fullIdx s) (fullIdx st) /\
                     (gcControl inp = false ->
                      (length (fullIdx s) <= length (fullIdx st))%nat) /\
                     length (iterID s) = length (iterID st) /\
                     forall j, nth j (iterID st) 0 <= nth j (iterID s) 0)
           fuel inp groupingGWAS _ todo t st st' H _).
  - intros t0 s s' Hr [Hincl [Hsize [Hlen Hmono]]].
    apply round_ok in Hr.
    destruct Hr as [v1 [qc [sv [it [_ [_ [_ [Hsv [Hsvlen [Hfull [Hit [Hitlen [Hitmono _]]]]]]]]]]]]].
    repeat split.
    + rewrite Hfull; destruct (gcControl inp).
      * apply incl_app; eapply incl_tran; try eassumption.
        apply gc_retained_incl.
      * eapply incl_tran; eassumption.
    + intro Hgc; rewrite Hfull, Hgc; specialize (Hsize Hgc); lia.
    + rewrite Hit, Hitlen; assumption.
    + intro j; rewrite Hit; specialize (Hmono j); specialize (Hitmono j); lia.
  - repeat split; auto; try lia.
    apply incl_refl.
Qed.

Lemma active_set_and_survival_counts_witness :
  exists st',
    rounds demo_rng demo_stray demo_eig_sym demo_sqrt demo_chisq lnot_each 5
           (demo_inputs false 1) (repeat 0%nat 6) 1 0
           (mkState [] [4; 5]%nat [0; 1; 2; 3]%nat [0; 1; 2; 3; 4; 5]%nat
                    demo_vecs (repeat 0 6)) = Ok st' /\
    (length (fullIdx st') <= 6)%nat /\
    0 <= nth 3 (iterID st') 0.
Proof.
  eexists; split; [vm_compute; reflexivity|].
  pose proof (active_set_and_survival_counts demo_rng demo_stray demo_eig_sym demo_sqrt
                demo_chisq lnot_each 5 (demo_inputs false 1) (repeat 0%nat 6) 1 0
                (mkState [] [4; 5]%nat [0; 1; 2; 3]%nat [0; 1; 2; 3; 4; 5]%nat
                         demo_vecs (repeat 0 6)) _ ltac:(vm_compute; reflexivity))
    as [_ [Hsize [_ Hmono]]].
  split; [apply Hsize; reflexivity | apply (Hmono 3%nat)].
Defined.



(** C3.  With eigenvalues in ascending order, one per reference marker, a
    completed call of [oneIteration] has computed, for every target marker, an
    R-squared in [0, 1), and that is what rsqList holds at the markers of
    idx2.  Once the rank check has passed, a computed R-squared of 1 or more
    stops the call with "Dividing zero", and the stop is the outcome of every
    run that goes beyond that round. *)
Theorem rsq_in_unit_interval :
  forall eig_sym sqrt LD ref tgt z s n probSVD,
    StronglySorted Qle (fst (eig_sym (gather_VV LD ref))) ->
    length (fst (eig_sym (gather_VV LD ref))) = length ref ->
    n_rows (snd (eig_sym (gather_VV LD ref))) = length ref ->
    Z.of_nat (length ref) < 2 ^ 31 ->
    (forall s',
        oneIteration eig_sym sqrt LD ref tgt z s n probSVD = Ok s' ->
        (forall i, (i < length tgt)%nat ->
           (0 <= computed_rsq eig_sym LD ref tgt n probSVD i)%Q /\
           (computed_rsq eig_sym LD ref tgt n probSVD i < 1)%Q) /\
        (forall j, In j tgt ->
           (0 <= nth j (rsq s') 0)%Q /\ (nth j (rsq s') 0 < 1)%Q)) /\
    (2 <= rank_K eig_sym LD ref n probSVD ->
     (exists i, (i < length tgt)%nat /\
                (1 <= computed_rsq eig_sym LD ref tgt n probSVD i)%Q) ->
     exists r,
       (1 <= r)%Q /\
       oneIteration eig_sym sqrt LD ref tgt z s n probSVD
       = Fail (RcppStop (DividingZero r))) /\
    (forall dist_rng stray chi2cdf log10 chisq vec_not fuel inp a b st r,
        state_after dist_rng stray eig_sym sqrt chi2cdf log10 chisq vec_not fuel inp a
        = Ok st ->
        oneIteration eig_sym sqrt (LDmat inp) (idx st)
                     (idx2 st) (zScore inp) (vecs st)
                     (nSample inp) (propSVD inp)
        = Fail (RcppStop (DividingZero r)) ->
        state_after dist_rng stray eig_sym sqrt chi2cdf log10 chisq vec_not fuel inp
                    (a + S b)
        = Fail (RcppStop (DividingZero r))).
Proof.
  intros eig_sym sqrt LD ref tgt z s n probSVD
         Hsorted Hval Hvec Hsize.
  assert (Hnonneg : forall i,
             (0 <= computed_rsq eig_sym LD ref tgt n probSVD i)%Q).
  { intro i; unfold computed_rsq.
    destruct (eig_sym (gather_VV LD ref)) as [eigval eigvec]; simpl in *.
    apply rsq_eigen_of_nonneg; [simpl; congruence|].
    intros m Hm.
    rewrite capped_K_small in Hm by (rewrite ?Hval, ?Hvec; auto).
    pose proof (effective_rank_count eigval) as Hcount.
    apply Qle_trans with (y := tolerance); [vm_compute; discriminate|].
    apply sorted_above_tolerance; [assumption|].
    unfold tail_index; lia. }
  split; [|split].
  - intros s' Hok.
    assert (Hlt : forall i, (i < length tgt)%nat ->
               (computed_rsq eig_sym LD ref tgt n probSVD i < 1)%Q).
    { intros i Hi.
      rewrite oneIteration_unfold in Hok.
      destruct (_ <=? 1); [discriminate|].
      destruct (eig_sym (gather_VV LD ref)) as [eigval eigvec]; cbv zeta in Hok.
      eapply scatter_checked; [exact Hok|].
      apply in_seq; lia. }
    split; [intros i Hi; split; auto|].
    intros j Hj.
    destruct (Nat.lt_ge_cases j (length (rsq s))) as [Hin|Hout].
    + rewrite oneIteration_unfold in Hok.
      destruct (_ <=? 1); [discriminate|].
      destruct (eig_sym (gather_VV LD ref)) as [eigval eigvec]; cbv zeta in Hok.
      destruct (In_nth _ _ 0%nat Hj) as [i [Hi Hij]].
      destruct (scatter_written _ _ _ _ _ _ _ _ _ Hok j Hin) as [i' [Hi' Hval']].
      * exists i; split; [apply in_seq; lia | assumption].
      * apply in_seq in Hi'; rewrite Hval'; split; [apply Hnonneg | apply Hlt; lia].
    + destruct (oneIteration_frame _ _ _ _ _ _ _ _ _ _ Hok) as [[_ [Hlen _]] _].
      rewrite nth_overflow by lia.
      split; [apply Qle_refl | reflexivity].
  - intros Hrank [i [Hi Hbig]].
    rewrite oneIteration_unfold.
    destruct (_ <=? 1) eqn:E; [apply Z.leb_le in E; lia|].
    destruct (eig_sym (gather_VV LD ref)) as [eigval eigvec]; cbv zeta.
    apply scatter_stops.
    exists i; split; [apply in_seq; lia | assumption].
  - intros dist_rng stray chi2cdf log10 chisq vec_not fuel inp a b st r Ha Hstop.
    eapply abort_propagates; eassumption.
Qed.

Lemma rsq_in_unit_interval_witness :
  exists s',
    oneIteration demo_eig_sym demo_sqrt (identity_mat 6) [2; 5]%nat [0; 1; 3; 4]%nat
                 (repeat 0%Q 6) demo_vecs 100 1 = Ok s' /\
    (forall j, In j [0; 1; 3; 4]%nat ->
       (0 <= nth j (rsq s') 0)%Q /\ (nth j (rsq s') 0 < 1)%Q).
Proof.
  eexists; split; [vm_compute; reflexivity|].
  destruct (rsq_in_unit_interval demo_eig_sym demo_sqrt (identity_mat 6) [2; 5]%nat
              [0; 1; 3; 4]%nat (repeat 0%Q 6) demo_vecs 100 1) as [Hok _].
  - repeat constructor; discriminate.
  - reflexivity.
  - reflexivity.
  - reflexivity.
  - eapply Hok; vm_compute; reflexivity.
Defined.

Section TargetFrame.

Variable dist_rng : Z -> nat -> Z.
Variable stray : list nat -> nat -> nat.
Variable eig_sym : mat -> list Q * mat.
Variable sqrt : Q -> Q.
Variable chisq : Z -> list Q.
Variable vec_not : list nat -> list nat.

(* both calls of a round write inside that round's idx2 *)
Lemma round_frame fuel inp groupingGWAS t st st' j :
  round dist_rng stray eig_sym sqrt chisq vec_not fuel inp groupingGWAS t st = Ok st' ->
  ~ In j (idx2 st) ->
  same_at j (vecs st) (vecs st').
Proof.
  intros Hr Hj; apply round_ok in Hr.
  destruct Hr as [v1 [qc [sv [it [H1 [Hqc [H2 _]]]]]]].
  apply oneIteration_frame in H1, H2.
  destruct H1 as [_ F1], H2 as [_ F2].
  destruct (F1 j Hj) as [A1 [A2 A3]].
  destruct (F2 j) as [B1 [B2 B3]]; [intro Hin; apply Hj, Hqc, Hin|].
  unfold same_at; rewrite B1, B2, B3; auto.
Qed.

Lemma rounds_frame fuel inp groupingGWAS j : forall todo t st st',
  rounds dist_rng stray eig_sym sqrt chisq vec_not fuel inp groupingGWAS todo t st
  = Ok st' ->
  ~ In j (targets dist_rng stray eig_sym sqrt chisq vec_not fuel inp groupingGWAS
                  todo t st) ->
  same_at j (vecs st) (vecs st').
Proof.
  induction todo as [|todo IH]; intros t st st' H Hj; simpl in H, Hj.
  - injection H as <-; unfold same_at; auto.
  - destruct (round _ _ _ _ _ _ _ _ _ _ _) as [st1|f] eqn:E; [|discriminate].
    cbn [bind] in H.
    assert (Hnow : ~ In j (idx2 st)) by (intro Hin; apply Hj, in_or_app; left; exact Hin).
    assert (Hlater : ~ In j (targets dist_rng stray eig_sym sqrt chisq vec_not fuel inp
                                     groupingGWAS todo (t + 1) st1))
      by (intro Hin; apply Hj, in_or_app; right; exact Hin).
    destruct (round_frame _ _ _ _ _ _ _ E Hnow) as [A1 [A2 A3]].
    destruct (IH _ _ _ H Hlater) as [B1 [B2 B3]].
    unfold same_at; rewrite B1, B2, B3; auto.
Qed.

End TargetFrame.

(** C8.  A completed call of [oneIteration] leaves imputedZ, rsqList and
    zScore_e unchanged at every index outside its target set idx2.  So in the
    output of [dentist] a marker that was in no round's target set still has
    the initial 0 in imputedZ, rsq and zScore_e. *)
Theorem untargeted_markers_keep_zero :
  forall dist_rng stray eig_sym sqrt chi2cdf log10 chisq vec_not,
    (forall LD ref tgt z s n probSVD s',
        oneIteration eig_sym sqrt LD ref tgt z s n probSVD = Ok s' ->
        forall j, ~ In j tgt ->
          nth j (imputedZ s') 0%Q = nth j (imputedZ s) 0%Q /\
          nth j (rsq s') 0%Q = nth j (rsq s) 0%Q /\
          nth j (zScore_e s') 0%Q = nth j (zScore_e s) 0%Q) /\
    (forall fuel inp st0 out,
        Z.of_nat (markerSize inp) < 2 ^ 32 ->
        init dist_rng stray fuel inp = Ok st0 ->
        dentist dist_rng stray eig_sym sqrt chi2cdf log10 chisq vec_not fuel inp = Ok out ->
        forall j,
          ~ In j (targets dist_rng stray eig_sym sqrt chisq vec_not fuel inp
                          (classify chi2cdf log10 inp) (Z.to_nat (nIter inp)) 0 st0) ->
          nth j (out_imputedZ out) 0%Q = 0%Q /\
          nth j (out_rsq out) 0%Q = 0%Q /\
          nth j (out_zScore_e out) 0%Q = 0%Q).
Proof.
  intros dist_rng stray eig_sym sqrt chi2cdf log10 chisq vec_not; split.
  - intros LD ref tgt z s n probSVD s' Hok j Hj.
    apply (oneIteration_frame _ _ _ _ _ _ _ _ _ _ Hok); assumption.
  - intros fuel inp st0 out HM Hinit Hout j Hj.
    unfold dentist, state_after in Hout.
    rewrite Hinit in Hout; cbn [bind] in Hout.
    destruct (rounds _ _ _ _ _ _ _ _ _ _ _ _) as [st|f] eqn:E; [|discriminate].
    cbn [bind] in Hout; injection Hout as <-.
    cbn [out_imputedZ out_rsq out_zScore_e].
    destruct (rounds_frame _ _ _ _ _ _ _ _ _ _ _ _ _ _ E Hj) as [A1 [A2 A3]].
    destruct (init_partition _ _ _ _ _ HM Hinit) as [_ [_ [_ [_ [Hv _]]]]].
    rewrite A1, A2, A3, Hv; cbn [imputedZ rsq zScore_e].
    repeat split; apply nth_repeat.
Qed.

Lemma untargeted_markers_keep_zero_witness :
  exists st0 out,
    init demo_rng demo_stray 5 (demo_inputs false 1) = Ok st0 /\
    dentist demo_rng demo_stray demo_eig_sym demo_sqrt demo_chi2cdf demo_log10
            demo_chisq lnot_each 5 (demo_inputs false 1) = Ok out /\
    nth 2 (out_imputedZ out) 0%Q = 0%Q /\
    nth 2 (out_rsq out) 0%Q = 0%Q /\
    nth 2 (out_zScore_e out) 0%Q = 0%Q.
Proof.
  do 2 eexists; split; [vm_compute; reflexivity|].
  split; [vm_compute; reflexivity|].
  destruct (untargeted_markers_keep_zero demo_rng demo_stray demo_eig_sym demo_sqrt
              demo_chi2cdf demo_log10 demo_chisq lnot_each) as [_ Hrun].
  eapply (Hrun 5%nat (demo_inputs false 1)).
  - reflexivity.
  - vm_compute; reflexivity.
  - vm_compute; reflexivity.
  - vm_compute; intros [H|[H|[H|[H|H]]]]; try discriminate; contradiction.
Defined.

Lemma complement_selects_label_zero (dat : list Q) :
  forall grouping : list nat,
    map fst (filter (fun p => (snd p =? 1)%nat) (combine dat (lnot_each grouping))) =
    map fst (filter (fun p => (snd p =? 0)%nat) (combine dat grouping)).
Proof.
  induction dat as [|d dat IH]; intros [|g grouping]; simpl; auto.
  destruct (g =? 0)%nat; simpl; rewrite IH; reflexivity.
Qed.

(** Were [!] the element-wise logical complement, the third threshold of
    line 234 would be the grouped quantile over the target markers labelled
    0. *)
Lemma complement_reading_gives_group0_quantile stray diff grouping_tmp q :
  length grouping_tmp = length diff ->
  getQuantile2 stray diff (lnot_each grouping_tmp) q =
  spec_grouped_quantile 0 diff grouping_tmp q.
Proof.
  intro Hlen; unfold getQuantile2, spec_grouped_quantile.
  pose proof (filter_group_combine stray diff [] (lnot_each grouping_tmp)) as Hsel.
  simpl in Hsel; rewrite Hsel by (unfold lnot_each; rewrite length_map; lia).
  rewrite complement_selects_label_zero; reflexivity.
Qed.

(** C7.  Line 234 hands [!grouping_tmp] to [getQuantile2], and the source
    gives [!] no meaning on a vector.  On fifty targets labelled 0 with
    statistic 1, the quantile over the markers labelled 0 is 1; the model of
    line 234 yields it when [!] is read as the element-wise complement and
    yields 0 when [!] leaves the labels as they are: the code does not settle
    threshold0. *)
Theorem threshold0_not_fixed_by_source :
  spec_grouped_quantile 0 (repeat 1%Q 50) (repeat 0%nat 50) q995 = Ok 1%Q /\
  thresholds demo_stray lnot_each (repeat 1%Q 50) (repeat 0%nat 50)
  = Ok (1%Q, 0%Q, 1%Q) /\
  thresholds demo_stray (fun v => v) (repeat 1%Q 50) (repeat 0%nat 50)
  = Ok (1%Q, 0%Q, 0%Q).
Proof.
  repeat split; vm_compute; reflexivity.
Qed.


(** * Further properties of the code *)

(** ** RandomPartitioner *)

Lemma draw_unique_fresh dist_rng fuel seed numbers index : forall k t k',
  draw_unique dist_rng fuel seed k numbers index = Ok (t, k') ->
  t <> -1 /\ ~ In t (firstn index numbers).
Proof.
  induction fuel as [|fuel IH]; intros k t k' H; simpl in H; [discriminate|].
  destruct (existsb (Z.eqb (dist_rng seed k)) (firstn index numbers)) eqn:E;
    simpl in H.
  - eapply IH; exact H.
  - destruct (dist_rng seed k =? -1) eqn:E1.
    + eapply IH; exact H.
    + injection H as <- _.
      split; [apply Z.eqb_neq, E1 | apply existsb_eqb_false, E].
Qed.

Lemma firstn_store_next {A : Type} (v : list A) (i : nat) (x : A) :
  (i < length v)%nat -> firstn (S i) (store v i x) = firstn i v ++ [x].
Proof.
  revert i; induction v as [|y v IH]; intros [|i] Hi; simpl in *; try lia.
  - reflexivity.
  - f_equal; apply IH; lia.
Qed.

(* the loop of lines 40-57 keeps the numbers stored so far distinct *)
Lemma fill_numbers_distinct dist_rng fuel seed todo : forall k numbers index r,
  (index + todo = length numbers)%nat ->
  NoDup (firstn index numbers) ->
  fill_numbers dist_rng fuel seed k numbers index todo = Ok r ->
  length r = length numbers /\ NoDup r.
Proof.
  induction todo as [|todo IH]; intros k numbers index r Hlen Hnd H; simpl in H.
  - injection H as <-; split; [reflexivity|].
    rewrite firstn_all2 in Hnd by lia; exact Hnd.
  - destruct (draw_unique dist_rng fuel seed k numbers index) as [[t k']|f] eqn:E;
      [|discriminate].
    cbn [bind] in H.
    destruct (draw_unique_fresh _ _ _ _ _ _ _ _ E) as [_ Hnew].
    assert (Hlen' : (S index + todo = length (store numbers index t))%nat)
      by (rewrite store_length; lia).
    assert (Hnd' : NoDup (firstn (S index) (store numbers index t))).
    { rewrite firstn_store_next by lia.
      eapply Permutation_NoDup; [apply Permutation_cons_append|].
      constructor; assumption. }
    destruct (IH _ _ _ _ Hlen' Hnd' H) as [L N].
    rewrite store_length in L; auto.
Qed.

Lemma generateSetOfNumbers_numbers dist_rng fuel SIZE seed p :
  generateSetOfNumbers dist_rng fuel SIZE seed = Ok p ->
  exists numbers,
    drawn_numbers dist_rng fuel SIZE seed = Ok numbers /\
    length numbers = Z.to_nat SIZE /\ NoDup numbers /\
    p = sort_indexes numbers (Z.to_nat (to_uint SIZE)).
Proof.
  unfold generateSetOfNumbers, drawn_numbers; intro H.
  destruct (SIZE <? 0); [discriminate|].
  destruct (Z.to_nat SIZE) as [|todo]; [discriminate|].
  destruct (fill_numbers dist_rng fuel seed 1 _ 1 todo) as [numbers|f] eqn:E;
    [|discriminate].
  cbn [bind] in H; injection H as <-.
  exists numbers.
  set (first := store (repeat 0 (S todo)) 0 (dist_rng seed 0%nat)) in *.
  assert (Hlen : (1 + todo = length first)%nat)
    by (unfold first; simpl; rewrite repeat_length; lia).
  assert (Hnd : NoDup (firstn 1 first)).
  { unfold first; simpl; constructor; [intros [] | constructor]. }
  destruct (fill_numbers_distinct _ _ _ _ _ _ _ _ Hlen Hnd E) as [L N].
  unfold first in L; simpl in L; rewrite repeat_length in L; auto.
Qed.

Lemma sort_insert_by_key_sorted (key : nat -> Z) (x : nat) (l : list nat) :
  StronglySorted (fun i j => key i <= key j) l ->
  StronglySorted (fun i j => key i <= key j)
                 (sort_insert (fun i1 i2 => key i1 <? key i2) x l).
Proof.
  induction 1 as [|y l Hs IH Hy]; simpl.
  - constructor; constructor.
  - destruct (key x <? key y) eqn:E.
    + apply Z.ltb_lt in E.
      constructor; [constructor; assumption|].
      constructor; [lia|].
      eapply Forall_impl; [|exact Hy]; simpl; intros; lia.
    + apply Z.ltb_ge in E.
      constructor; [assumption|].
      eapply Permutation_Forall; [apply Permutation_sym, sort_insert_perm|].
      constructor; assumption.
Qed.

Lemma std_sort_by_key_sorted (key : nat -> Z) (l : list nat) :
  StronglySorted (fun i j => key i <= key j)
                 (std_sort (fun i1 i2 => key i1 <? key i2) l).
Proof.
  induction l as [|x l IH]; simpl; [constructor|].
  apply sort_insert_by_key_sorted, IH.
Qed.

Lemma StronglySorted_refine {A : Type} (R R' : A -> A -> Prop) (l : list A) :
  (forall x y, In x l -> In y l -> x <> y -> R x y -> R' x y) ->
  NoDup l -> StronglySorted R l -> StronglySorted R' l.
Proof.
  intros Href Hnd Hs; induction Hs as [|x l Hs IH Hx]; [constructor|].
  inversion Hnd as [|? ? Hnotin Hnd']; subst.
  constructor.
  - apply IH; [|assumption].
    intros a b Ha Hb; apply Href; right; assumption.
  - rewrite Forall_forall in *; intros y Hy.
    apply Href; [left; reflexivity | right; assumption | | apply Hx, Hy].
    intros ->; contradiction.
Qed.

(* two arrangements of the same elements in a strict order coincide *)
Lemma strictly_sorted_unique {A : Type} (R : A -> A -> Prop) :
  (forall x y, R x y -> R y x -> False) ->
  forall l1 l2,
    StronglySorted R l1 -> StronglySorted R l2 -> Permutation l1 l2 -> l1 = l2.
Proof.
  intros Hasym l1; induction l1 as [|x l1 IH]; intros l2 H1 H2 Hp.
  - apply Permutation_nil in Hp; auto.
  - destruct l2 as [|y l2]; [apply Permutation_sym, Permutation_nil in Hp; discriminate|].
    inversion H1 as [|? ? H1' Hx]; inversion H2 as [|? ? H2' Hy]; subst.
    rewrite Forall_forall in Hx, Hy.
    assert (Hxy : x = y).
    { assert (Hin1 : In x (y :: l2)) by (eapply Permutation_in; [exact Hp | left; auto]).
      assert (Hin2 : In y (x :: l1))
        by (eapply Permutation_in; [apply Permutation_sym, Hp | left; auto]).
      destruct Hin1 as [->|Hin1]; [reflexivity|].
      destruct Hin2 as [->|Hin2]; [reflexivity|].
      exfalso; apply (Hasym x y); [apply Hx, Hin2 | apply Hy, Hin1]. }
    subst y; f_equal.
    apply IH; auto.
    eapply Permutation_cons_inv; exact Hp.
Qed.

Lemma generateSetOfNumbers_positive_count_witness :
  exists fuel p,
    generateSetOfNumbers counting_rng fuel 3 0 = Ok p /\
    Permutation p (seq 0 (Z.to_nat 3)) /\
    NoDup p /\
    forall fuel' p', generateSetOfNumbers counting_rng fuel' 3 0 = Ok p' -> p' = p.
Proof.
  apply (generateSetOfNumbers_positive_count counting_rng 3 0).
  - exact counting_rng_fresh.
  - unfold INT_MAX; lia.
Defined.

(** X2.  When [generateSetOfNumbers] returns, the numbers it drew are
    pairwise distinct, the returned indices list them in strictly increasing
    order of the drawn numbers, and no other arrangement of 0 .. SIZE-1 does:
    the result does not depend on how std::sort breaks ties, since there are
    none. *)
Theorem ranks_order_distinct_draws :
  forall dist_rng fuel SIZE seed p,
    SIZE < 2 ^ 32 ->
    generateSetOfNumbers dist_rng fuel SIZE seed = Ok p ->
    exists numbers,
      drawn_numbers dist_rng fuel SIZE seed = Ok numbers /\
      length numbers = Z.to_nat SIZE /\
      NoDup numbers /\
      StronglySorted (key_less numbers) p /\
      forall q,
        Permutation q (seq 0 (Z.to_nat SIZE)) ->
        StronglySorted (key_less numbers) q -> q = p.
Proof.
  intros dist_rng fuel SIZE seed p Hsize H.
  destruct (generateSetOfNumbers_perm _ _ _ _ _ H) as [Hpos Hperm].
  specialize (Hperm Hsize).
  destruct (generateSetOfNumbers_numbers _ _ _ _ _ H) as [numbers [Hd [Hlen [Hnd Hp]]]].
  rewrite to_uint_small in Hp by lia.
  exists numbers; repeat split; auto.
  - assert (Hle : StronglySorted (fun i j => nth i numbers 0 <= nth j numbers 0) p).
    { rewrite Hp; unfold sort_indexes.
      apply (std_sort_by_key_sorted (fun i => nth i numbers 0)). }
    revert Hle; apply StronglySorted_refine.
    + intros x y Hx Hy Hxy Hle; unfold key_less.
      apply (Permutation_in _ Hperm), in_seq in Hx.
      apply (Permutation_in _ Hperm), in_seq in Hy.
      assert (nth x numbers 0 <> nth y numbers 0); [|lia].
      intro Heq; apply Hxy.
      apply (proj1 (NoDup_nth numbers 0) Hnd); auto; lia.
    + eapply Permutation_NoDup; [apply Permutation_sym, Hperm | apply seq_NoDup].
  - intros q Hq Hsorted.
    apply (strictly_sorted_unique (key_less numbers)); auto.
    + unfold key_less; intros; lia.
    + assert (Hle : StronglySorted (fun i j => nth i numbers 0 <= nth j numbers 0) p).
      { rewrite Hp; unfold sort_indexes.
        apply (std_sort_by_key_sorted (fun i => nth i numbers 0)). }
      revert Hle; apply StronglySorted_refine.
      * intros x y Hx Hy Hxy Hle; unfold key_less.
        apply (Permutation_in _ Hperm), in_seq in Hx.
        apply (Permutation_in _ Hperm), in_seq in Hy.
        assert (nth x numbers 0 <> nth y numbers 0); [|lia].
        intro Heq; apply Hxy.
        apply (proj1 (NoDup_nth numbers 0) Hnd); auto; lia.
      * eapply Permutation_NoDup; [apply Permutation_sym, Hperm | apply seq_NoDup].
    + eapply Permutation_trans; [exact Hq | apply Permutation_sym, Hperm].
Qed.

Lemma ranks_order_distinct_draws_witness :
  exists numbers,
    drawn_numbers demo_rng 5 6 10 = Ok numbers /\
    length numbers = Z.to_nat 6 /\
    NoDup numbers /\
    StronglySorted (key_less numbers) [0; 2; 4; 1; 3; 5]%nat /\
    forall q,
      Permutation q (seq 0 (Z.to_nat 6)) ->
      StronglySorted (key_less numbers) q -> q = [0; 2; 4; 1; 3; 5]%nat.
Proof.
  apply (ranks_order_distinct_draws demo_rng 5 6 10).
  - reflexivity.
  - vm_compute; reflexivity.
Defined.

(** ** QuantileEstimator *)

Lemma vector_at_member (v : list Q) (pos : Z) (x : Q) :
  0 <= pos -> vector_at v pos = Ok x -> In x v.
Proof.
  unfold vector_at; intros Hpos H.
  destruct (pos <? Z.of_nat (length v)) eqn:E; [|discriminate].
  apply Z.ltb_lt in E; injection H as <-.
  apply nth_In; lia.
Qed.

Lemma getQuantile_member (dat : list Q) (q x : Q) :
  getQuantile dat q = Ok x -> In x dat.
Proof.
  unfold getQuantile; intro H.
  apply vector_at_member in H.
  - eapply Permutation_in; [apply std_sort_perm | exact H].
  - unfold to_size_t; apply Z.mod_pos_bound; reflexivity.
Qed.

Lemma filter_group_incl stray (dat : list Q) (grouping : list nat) :
  forall i x, In x (filter_group stray dat grouping i) -> In x dat.
Proof.
  induction dat as [|d dat IH]; intros i x Hx; simpl in *; [contradiction|].
  destruct (vread stray grouping i =? 1)%nat.
  - destruct Hx as [<-|Hx]; [left; reflexivity | right; eapply IH; exact Hx].
  - right; eapply IH; exact Hx.
Qed.

Lemma filter_group_length_le stray (dat : list Q) (grouping : list nat) :
  forall i, (length (filter_group stray dat grouping i) <= length dat)%nat.
Proof.
  induction dat as [|d dat IH]; intro i; simpl; [lia|].
  destruct (vread stray grouping i =? 1)%nat; simpl; specialize (IH (S i)); lia.
Qed.

Lemma getQuantile2_q995_returns stray (dat : list Q) (grouping : list nat) :
  Z.of_nat (length dat) < 2 ^ 64 ->
  exists x, getQuantile2 stray dat grouping q995 = Ok x.
Proof.
  intros Hsize; unfold getQuantile2.
  destruct (length (filter_group stray dat grouping 0) <? 50)%nat eqn:E.
  - eexists; reflexivity.
  - apply Nat.ltb_ge in E.
    pose proof (filter_group_length_le stray dat grouping 0).
    apply getQuantile_q995_returns; [|lia].
    intro Hnil; rewrite Hnil in E; simpl in E; lia.
Qed.

Lemma getQuantile2_member stray (dat : list Q) (grouping : list nat) (q x : Q) :
  getQuantile2 stray dat grouping q = Ok x -> x = 0%Q \/ In x dat.
Proof.
  unfold getQuantile2.
  destruct (_ <? 50)%nat.
  - intro H; injection H as <-; left; reflexivity.
  - intro H; right.
    apply getQuantile_member in H.
    eapply filter_group_incl; exact H.
Qed.

(** X3.  Whatever q is, a value returned by [getQuantile] is one of the
    input values, and a value returned by [getQuantile2] is the literal 0 or
    one of the input values: no interpolation takes place. *)
Theorem quantile_is_a_data_value :
  forall stray (dat : list Q) (grouping : list nat) (q x : Q),
    (getQuantile dat q = Ok x -> In x dat) /\
    (getQuantile2 stray dat grouping q = Ok x -> x = 0%Q \/ In x dat).
Proof.
  intros stray dat grouping q x; split.
  - apply getQuantile_member.
  - apply getQuantile2_member.
Qed.

Lemma quantile_is_a_data_value_witness : In 2%Q [3; 1; 2]%Q.
Proof.
  apply (quantile_is_a_data_value demo_stray [3; 1; 2]%Q [] (1 # 2) 2%Q).
  vm_compute; reflexivity.
Defined.

Lemma filter_prefix_count {A : Type} (f : A -> bool) (d : A) (l : list A) :
  forall k, (k <= length l)%nat ->
    (forall i, (i < k)%nat -> f (nth i l d) = true) ->
    (k <= length (filter f l))%nat.
Proof.
  induction l as [|y l IH]; intros k Hk Hf; simpl in *; [lia|].
  destruct k as [|k]; [lia|].
  rewrite (Hf 0%nat) by lia; simpl.
  apply le_n_S, IH; [lia|].
  intros i Hi; apply (Hf (S i)); lia.
Qed.

Lemma filter_suffix_count {A : Type} (f : A -> bool) (d : A) (l : list A) :
  forall a,
    (forall i, (a <= i < length l)%nat -> f (nth i l d) = true) ->
    (length l - a <= length (filter f l))%nat.
Proof.
  induction l as [|y l IH]; intros a Hf; simpl in *; [lia|].
  destruct a as [|a].
  - rewrite (Hf 0%nat) by lia; simpl.
    specialize (IH 0%nat); rewrite Nat.sub_0_r in IH.
    apply le_n_S, IH.
    intros i Hi; apply (Hf (S i)); lia.
  - assert (H : (length l - a <= length (filter f l))%nat).
    { apply IH; intros i Hi; apply (Hf (S i)); lia. }
    destruct (f y); simpl; lia.
Qed.

(** X4.  For non-empty data of fewer than 2^53 values and q in (0, 1],
    with r = ceil(size * q) as line 67 computes it in double arithmetic, the
    value x returned by [getQuantile] is an r-th order statistic of the
    input: at least r input values are <= x and at least size - r + 1 input
    values are >= x. *)
Theorem getQuantile_order_statistic :
  forall (dat : list Q) (q : Q),
    dat <> [] -> Z.of_nat (length dat) < 2 ^ 53 ->
    (0 < q)%Q -> (q <= 1)%Q ->
    exists x,
      getQuantile dat q = Ok x /\
      quantile_rank (length dat) q
      <= Z.of_nat (length (filter (fun y => Qle_bool y x) dat)) /\
      Z.of_nat (length dat) - quantile_rank (length dat) q + 1
      <= Z.of_nat (length (filter (fun y => Qle_bool x y) dat)).
Proof.
  intros dat q Hne Hsize Hq0 Hq1.
  assert (Hn : 1 <= Z.of_nat (length dat) < 2 ^ 53).
  { destruct dat; [congruence | simpl length in *; lia]. }
  pose proof (quantile_rank_bounds _ q Hn Hq0 Hq1) as Hr.
  set (r := quantile_rank (length dat) q) in *.
  pose proof (std_sort_sorted dat) as Hsorted.
  pose proof (std_sort_perm Qless dat) as Hperm.
  pose proof (std_sort_length Qless dat) as Hlen.
  exists (nth (Z.to_nat (r - 1)) (std_sort Qless dat) 0%Q).
  split; [apply getQuantile_in_range; assumption|].
  rewrite <- !(filter_length_perm _ _ _ Hperm).
  split.
  - assert (H : (Z.to_nat r <= length (filter
                   (fun y => Qle_bool y (nth (Z.to_nat (r - 1)) (std_sort Qless dat) 0%Q))
                   (std_sort Qless dat)))%nat).
    { apply (filter_prefix_count _ 0%Q); [lia|].
      intros i Hi; apply Qle_bool_iff, sorted_nth_le; [assumption | lia]. }
    lia.
  - assert (H : (length (std_sort Qless dat) - Z.to_nat (r - 1) <= length (filter
                   (fun y => Qle_bool (nth (Z.to_nat (r - 1)) (std_sort Qless dat) 0%Q) y)
                   (std_sort Qless dat)))%nat).
    { apply (filter_suffix_count _ 0%Q).
      intros i Hi; apply Qle_bool_iff, sorted_nth_le; [assumption | lia]. }
    lia.
Qed.

Lemma getQuantile_order_statistic_witness :
  exists x,
    getQuantile [3; 1; 2]%Q (1 # 2) = Ok x /\
    quantile_rank (length [3; 1; 2]%Q) (1 # 2)
    <= Z.of_nat (length (filter (fun y => Qle_bool y x) [3; 1; 2]%Q)) /\
    Z.of_nat (length [3; 1; 2]%Q) - quantile_rank (length [3; 1; 2]%Q) (1 # 2) + 1
    <= Z.of_nat (length (filter (fun y => Qle_bool x y) [3; 1; 2]%Q)).
Proof.
  apply (getQuantile_order_statistic [3; 1; 2]%Q (1 # 2)).
  - discriminate.
  - reflexivity.
  - reflexivity.
  - discriminate.
Defined.

(** X5.  The three thresholds of lines 232-234 fail exactly when the target
    set is empty, with std::out_of_range; otherwise, whatever [!] and the
    labels are, all three are returned, the overall one is a value of diff,
    each grouped one is 0 or a value of diff, and so for the absolute values
    that diff holds none of them is negative. *)
Theorem thresholds_fail_only_when_empty :
  forall stray vec_not (diff : list Q) (grouping_tmp : list nat),
    Z.of_nat (length diff) < 2 ^ 64 ->
    (diff = [] -> thresholds stray vec_not diff grouping_tmp = Fail OutOfRange) /\
    (diff <> [] ->
     exists t t1 t0,
       thresholds stray vec_not diff grouping_tmp = Ok (t, t1, t0) /\
       In t diff /\ (t1 = 0%Q \/ In t1 diff) /\ (t0 = 0%Q \/ In t0 diff) /\
       ((forall d, In d diff -> (0 <= d)%Q) ->
        (0 <= t)%Q /\ (0 <= t1)%Q /\ (0 <= t0)%Q)).
Proof.
  intros stray vec_not diff grouping_tmp Hsize; split.
  - intros ->; unfold thresholds; rewrite getQuantile_empty; reflexivity.
  - intro Hne; unfold thresholds.
    destruct (getQuantile_q995_returns diff Hne Hsize) as [t Ht].
    destruct (getQuantile2_q995_returns stray diff grouping_tmp Hsize) as [t1 Ht1].
    destruct (getQuantile2_q995_returns stray diff (vec_not grouping_tmp) Hsize)
      as [t0 Ht0].
    rewrite Ht, Ht1, Ht0; cbn [bind].
    exists t, t1, t0.
    pose proof (getQuantile_member _ _ _ Ht) as Hin.
    pose proof (getQuantile2_member _ _ _ _ _ Ht1) as Hin1.
    pose proof (getQuantile2_member _ _ _ _ _ Ht0) as Hin0.
    repeat split; auto.
    + destruct Hin1 as [->|Hin1]; [apply Qle_refl | auto].
    + destruct Hin0 as [->|Hin0]; [apply Qle_refl | auto].
Qed.

Lemma thresholds_fail_only_when_empty_witness :
  thresholds demo_stray lnot_each [] [] = Fail OutOfRange.
Proof.
  apply (thresholds_fail_only_when_empty demo_stray lnot_each [] []).
  - reflexivity.
  - reflexivity.
Defined.

(** ** ImputationEngine *)

(* what is computed for a target depends on the target list only through
   the marker found at that position *)
Lemma computed_rsq_by_marker eig_sym LD ref tgt n p i :
  computed_rsq eig_sym LD ref tgt n p i =
  computed_rsq eig_sym LD ref [nth i tgt 0%nat] n p 0.
Proof.
  unfold computed_rsq.
  destruct (eig_sym (gather_VV LD ref)) as [eigval eigvec].
  reflexivity.
Qed.

Lemma computed_imputedZ_by_marker eig_sym LD ref tgt z n p i :
  computed_imputedZ eig_sym LD ref tgt z n p i =
  computed_imputedZ eig_sym LD ref [nth i tgt 0%nat] z n p 0.
Proof.
  unfold computed_imputedZ.
  destruct (eig_sym (gather_VV LD ref)) as [eigval eigvec].
  reflexivity.
Qed.

Lemma oneIteration_scatter eig_sym sqrt LD ref tgt z s n p :
  oneIteration eig_sym sqrt LD ref tgt z s n p =
  if rank_K eig_sym LD ref n p <=? 1
  then Fail (RcppStop RankLeOne)
  else for_each (scatter_body sqrt LD tgt z
                              (computed_imputedZ eig_sym LD ref tgt z n p)
                              (computed_rsq eig_sym LD ref tgt n p))
                (seq 0 (length tgt)) s.
Proof.
  unfold oneIteration, rank_K, computed_rsq, computed_imputedZ.
  destruct (eig_sym (gather_VV LD ref)) as [eigval eigvec].
  reflexivity.
Qed.

Section ScatterValues.

Variable sqrt : Q -> Q.
Variable LD : mat.
Variable tgt : list nat.
Variable z : list Q.
Variables imp rsqe : nat -> Q.
Variables F G : nat -> Q.
Hypothesis imp_by_marker : forall i, imp i = F (nth i tgt 0%nat).
Hypothesis rsqe_by_marker : forall i, rsqe i = G (nth i tgt 0%nat).

Lemma scatter_body_settles s i s' :
  scatter_body sqrt LD tgt z imp rsqe s i = Ok s' ->
  settled_with F G sqrt LD z (nth i tgt 0%nat) s'.
Proof using imp_by_marker rsqe_by_marker.
  unfold scatter_body.
  destruct (Qle_bool 1 (rsqe i)); [discriminate|].
  intro H; injection H as <-; unfold settled_with; cbn [imputedZ rsq zScore_e].
  rewrite !store_length.
  repeat split; intro Hj.
  - rewrite nth_store_same by assumption; apply imp_by_marker.
  - rewrite nth_store_same by assumption; apply rsqe_by_marker.
  - rewrite (nth_store_same (zScore_e s)) by assumption; reflexivity.
Qed.

Lemma scatter_body_keeps j s i s' :
  settled_with F G sqrt LD z j s ->
  scatter_body sqrt LD tgt z imp rsqe s i = Ok s' ->
  settled_with F G sqrt LD z j s'.
Proof using imp_by_marker rsqe_by_marker.
  intros Hs H.
  destruct (Nat.eq_dec (nth i tgt 0%nat) j) as [<-|Hne].
  - eapply scatter_body_settles; exact H.
  - unfold scatter_body in H.
    destruct (Qle_bool 1 (rsqe i)); [discriminate|].
    injection H as <-; unfold settled_with in *; cbn [imputedZ rsq zScore_e].
    rewrite !store_length, !nth_store_other by assumption.
    exact Hs.
Qed.

Lemma scatter_keeps j l : forall s s',
  settled_with F G sqrt LD z j s ->
  for_each (scatter_body sqrt LD tgt z imp rsqe) l s = Ok s' ->
  settled_with F G sqrt LD z j s'.
Proof using imp_by_marker rsqe_by_marker.
  induction l as [|i l IH]; intros s s' Hs H; simpl in H.
  - injection H as <-; assumption.
  - destruct (scatter_body sqrt LD tgt z imp rsqe s i) as [s1|f] eqn:E; [|discriminate].
    cbn [bind] in H.
    eapply IH; [|exact H].
    eapply scatter_body_keeps; eassumption.
Qed.

(* after the loop every marker it visited is settled *)
Lemma scatter_settles l : forall s s',
  for_each (scatter_body sqrt LD tgt z imp rsqe) l s = Ok s' ->
  forall i, In i l -> settled_with F G sqrt LD z (nth i tgt 0%nat) s'.
Proof using imp_by_marker rsqe_by_marker.
  induction l as [|i0 l IH]; intros s s' H i Hi; simpl in *; [contradiction|].
  destruct (scatter_body sqrt LD tgt z imp rsqe s i0) as [s1|f] eqn:E; [|discriminate].
  cbn [bind] in H.
  destruct Hi as [<-|Hi].
  - eapply scatter_keeps; [|exact H].
    eapply scatter_body_settles; exact E.
  - eapply IH; eassumption.
Qed.

End ScatterValues.

Lemma oneIteration_settles eig_sym sqrt LD ref tgt z s n p s' :
  oneIteration eig_sym sqrt LD ref tgt z s n p = Ok s' ->
  forall j, In j tgt ->
    settled_with (fun j => computed_imputedZ eig_sym LD ref [j] z n p 0)
                 (fun j => computed_rsq eig_sym LD ref [j] n p 0)
                 sqrt LD z j s' /\
    (computed_rsq eig_sym LD ref [j] n p 0 < 1)%Q.
Proof.
  rewrite oneIteration_scatter.
  destruct (_ <=? 1); [discriminate|].
  intros H j Hj.
  destruct (In_nth _ _ 0%nat Hj) as [i [Hi <-]].
  assert (Hin : In i (seq 0 (length tgt))) by (apply in_seq; lia).
  split.
  - apply (scatter_settles sqrt LD tgt z
             (computed_imputedZ eig_sym LD ref tgt z n p)
             (computed_rsq eig_sym LD ref tgt n p)
             (fun j => computed_imputedZ eig_sym LD ref [j] z n p 0)
             (fun j => computed_rsq eig_sym LD ref [j] n p 0)
             (computed_imputedZ_by_marker eig_sym LD ref tgt z n p)
             (computed_rsq_by_marker eig_sym LD ref tgt n p)
             _ _ _ H i Hin).
  - rewrite <- computed_rsq_by_marker.
    eapply scatter_checked; eassumption.
Qed.

Lemma initial_K_tiny (ref : list nat) (n : Z) (p : Q) :
  Z.of_nat (length ref) < 2 ^ 32 ->
  0 <= n ->
  (0 <= p)%Q ->
  (float_mul_uint (Z.min (Z.of_nat (length ref)) n) p < 2)%Q ->
  initial_K ref n p <= 1.
Proof.
  intros Hsize Hn Hp Hlt; unfold initial_K.
  rewrite (to_uint_small (Z.of_nat (length ref))) by lia.
  set (m := Z.min (Z.of_nat (length ref)) n) in *.
  pose proof (float_mul_uint_nonneg m p ltac:(unfold m; lia) Hp) as Hx0.
  set (x := float_mul_uint m p) in *.
  unfold Qtruncate.
  apply Qle_bool_iff in Hx0 as Hb; rewrite Hb.
  pose proof (Qfloor_resp_le _ _ Hx0) as Hlo.
  change 0%Q with (inject_Z 0) in Hlo; rewrite Qfloor_Z in Hlo.
  assert (Hhi : Qfloor x < 2).
  { rewrite Zlt_Qlt.
    eapply Qle_lt_trans; [apply Qfloor_le | exact Hlt]. }
  rewrite to_uint_small; lia.
Qed.

(* the float product is below 2 when the exact product of an integer below
   2^24 is at most the largest float below 2 *)
Lemma float_mul_uint_below_two (m : Z) (p : Q) :
  0 <= m < 2 ^ 24 -> (0 <= p)%Q ->
  (inject_Z m * p <= 2 - pow2 (-23))%Q ->
  (float_mul_uint m p < 2)%Q.
Proof.
  intros Hm Hp Hle.
  destruct (float_mul_uint_exact_factor m p Hm Hp) as [H _].
  eapply Qle_lt_trans; [exact H|].
  apply Qle_lt_trans with (y := round_float (2 - pow2 (-23))).
  - apply round_binary_mono; [lia | | exact Hle].
    apply Qmult_le_0_compat; [apply inject_Z_nonneg; lia | exact Hp].
  - vm_compute; reflexivity.
Qed.

(** X6.  [oneIteration] stops with "Rank of eigen matrix <= 1" whenever the
    float product min(|idx|, nSample) * probSVD of line 91 is below 2, as it
    is when the exact product is at most 2 - 2^-23, whatever the LD matrix
    and the eigen-decomposition are: a reference set of fewer than two
    markers cannot be used.  So [dentist] with one to four markers, asked for
    at least one round, ends with that stop in its very first round. *)
Theorem small_reference_set_stops :
  forall eig_sym sqrt LD ref tgt z s n p,
    Z.of_nat (length ref) < 2 ^ 32 ->
    0 <= n ->
    (0 <= p)%Q ->
    ((float_mul_uint (Z.min (Z.of_nat (length ref)) n) p < 2)%Q ->
     oneIteration eig_sym sqrt LD ref tgt z s n p = Fail (RcppStop RankLeOne)) /\
    (Z.min (Z.of_nat (length ref)) n < 2 ^ 24 ->
     (inject_Z (Z.min (Z.of_nat (length ref)) n) * p <= 2 - pow2 (-23))%Q ->
     oneIteration eig_sym sqrt LD ref tgt z s n p = Fail (RcppStop RankLeOne)) /\
    (forall dist_rng stray chi2cdf log10 chisq vec_not fuel inp st0,
        (markerSize inp <= 4)%nat ->
        0 <= nSample inp ->
        (0 <= propSVD inp)%Q -> (propSVD inp <= 1)%Q ->
        1 <= nIter inp ->
        init dist_rng stray fuel inp = Ok st0 ->
        dentist dist_rng stray eig_sym sqrt chi2cdf log10 chisq vec_not fuel inp
        = Fail (RcppStop RankLeOne)).
Proof.
  intros eig_sym sqrt LD ref tgt z s n p Hsize Hn Hp.
  assert (Hstops : (float_mul_uint (Z.min (Z.of_nat (length ref)) n) p < 2)%Q ->
                   oneIteration eig_sym sqrt LD ref tgt z s n p
                   = Fail (RcppStop RankLeOne)).
  { intro Hlt.
    apply oneIteration_rank_failure.
    pose proof (initial_K_tiny ref n p Hsize Hn Hp Hlt) as HK.
    unfold rank_K.
    destruct (eig_sym (gather_VV LD ref)) as [eigval eigvec].
    unfold capped_K; lia. }
  split; [exact Hstops | split].
  - intros Hm Hle; apply Hstops.
    apply float_mul_uint_below_two; [lia | exact Hp | exact Hle].
  - intros dist_rng stray chi2cdf log10 chisq vec_not fuel inp st0
           HM HnS Hp0 Hp1 Hiter Hinit.
    assert (HM32 : Z.of_nat (markerSize inp) < 2 ^ 32) by lia.
    destruct (init_partition dist_rng stray fuel inp st0 HM32 Hinit)
      as [_ [_ [Hidx _]]].
    assert (Hstop : oneIteration eig_sym sqrt (LDmat inp) (idx st0) (idx2 st0)
                      (zScore inp) (vecs st0) (nSample inp) (propSVD inp)
                    = Fail (RcppStop RankLeOne)).
    { apply oneIteration_rank_failure.
      assert (Hsmall : (length (idx st0) <= 1)%nat).
      { rewrite Hidx.
        destruct (markerSize inp) as [|[|[|[|[|m]]]]]; simpl; lia. }
      assert (HK : initial_K (idx st0) (nSample inp) (propSVD inp) <= 1).
      { apply initial_K_tiny; auto; [lia|].
        apply Qle_lt_trans with (y := inject_Z 1); [|reflexivity].
        apply float_mul_uint_le; auto; [lia|].
        vm_compute; reflexivity. }
      unfold rank_K.
      destruct (eig_sym _) as [eigval eigvec].
      unfold capped_K; lia. }
    assert (Hafter0 : state_after dist_rng stray eig_sym sqrt chi2cdf log10 chisq
                        vec_not fuel inp 0 = Ok st0).
    { unfold state_after; rewrite Hinit; reflexivity. }
    pose proof (abort_propagates dist_rng stray eig_sym sqrt chi2cdf log10 chisq
                  vec_not fuel inp 0 (Z.to_nat (nIter inp) - 1) st0 _ Hafter0 Hstop)
      as Hrun.
    unfold dentist.
    replace (Z.to_nat (nIter inp)) with (0 + S (Z.to_nat (nIter inp) - 1))%nat by lia.
    rewrite Hrun; reflexivity.
Qed.

Lemma small_reference_set_stops_witness :
  oneIteration demo_eig_sym demo_sqrt (identity_mat 4) [3]%nat [0; 1; 2]%nat
               (repeat 0%Q 4) (mkVecs (repeat 0%Q 4) (repeat 0%Q 4) (repeat 0%Q 4))
               100 1
  = Fail (RcppStop RankLeOne).
Proof.
  destruct (small_reference_set_stops demo_eig_sym demo_sqrt (identity_mat 4) [3]%nat
              [0; 1; 2]%nat (repeat 0%Q 4)
              (mkVecs (repeat 0%Q 4) (repeat 0%Q 4) (repeat 0%Q 4)) 100 1)
    as [H _].
  - reflexivity.
  - discriminate.
  - discriminate.
  - apply H; vm_compute; reflexivity.
Defined.

(* line 91 against the exact product, for an integer factor below 2^24 *)
Lemma initial_K_exact (idx : list nat) (nSample : Z) (probSVD : Q) :
  Z.of_nat (length idx) < 2 ^ 24 ->
  0 <= nSample ->
  (0 <= probSVD)%Q -> (probSVD <= 1)%Q ->
  Qfloor (inject_Z (Z.min (Z.of_nat (length idx)) nSample) * probSVD)
  <= initial_K idx nSample probSVD
  <= Qfloor (inject_Z (Z.min (Z.of_nat (length idx)) nSample) * probSVD) + 1.
Proof.
  intros Hsize Hn Hp0 Hp1.
  rewrite initial_K_small by (auto; lia).
  set (m := Z.min (Z.of_nat (length idx)) nSample).
  assert (Hm : 0 <= m < 2 ^ 24) by (unfold m; lia).
  destruct (float_mul_uint_exact_factor m probSVD Hm Hp0) as [Hup Hlo].
  set (x := (inject_Z m * probSVD)%Q) in *.
  set (y := float_mul_uint m probSVD) in *.
  assert (Hx0 : (0 <= x)%Q).
  { apply Qmult_le_0_compat; [apply inject_Z_nonneg; lia | exact Hp0]. }
  assert (Hx1 : (x <= inject_Z m)%Q).
  { unfold x; rewrite <- (Qmult_1_r (inject_Z m)) at 2.
    rewrite (Qmult_comm _ probSVD), (Qmult_comm _ 1).
    apply Qmult_le_compat_r; [exact Hp1 | apply inject_Z_nonneg; lia]. }
  assert (Hf0 : 0 <= Qfloor x).
  { apply Qfloor_resp_le in Hx0; exact Hx0. }
  assert (Hfm : Qfloor x <= m).
  { apply Qfloor_resp_le in Hx1; rewrite Qfloor_Z in Hx1; exact Hx1. }
  assert (Hym : (y <= inject_Z m)%Q).
  { apply float_mul_uint_le; auto; [lia|].
    apply round_binary_Z; [lia | reflexivity | exact Hm]. }
  split.
  - assert (H : (inject_Z (Qfloor x) <= y)%Q).
    { eapply Qle_trans; [|exact Hlo].
      rewrite <- (round_binary_Z 24 ltac:(lia) (inject_Z (Qfloor x)) (Qfloor x))
        by (try reflexivity; lia).
      apply round_binary_mono; [lia | apply inject_Z_nonneg, Hf0 | apply Qfloor_le]. }
    apply Qfloor_resp_le in H; rewrite Qfloor_Z in H; exact H.
  - destruct (Z_lt_ge_dec (Qfloor x + 1) (2 ^ 24)) as [Hsmall|Hbig].
    + assert (H : (y <= inject_Z (Qfloor x + 1))%Q).
      { eapply Qle_trans; [exact Hup|].
        rewrite <- (round_binary_Z 24 ltac:(lia) (inject_Z (Qfloor x + 1)) (Qfloor x + 1))
          by (try reflexivity; lia).
        apply round_binary_mono; [lia | exact Hx0 |].
        apply Qlt_le_weak, Qlt_floor. }
      apply Qfloor_resp_le in H; rewrite Qfloor_Z in H; exact H.
    + apply Qfloor_resp_le in Hym; rewrite Qfloor_Z in Hym; lia.
Qed.

(** X19.  The two integers that the code takes from a floating product
    follow the exact product to within one.  For a size below 2^53 and q in
    (0, 1], the rank ceil(size * q) of line 67 is the ceiling of the exact
    product, or one less when the double product rounds down to a whole
    number, as for size 10 and q = 0.1.  For fewer than 2^24 reference
    markers and probSVD in [0, 1], the K of line 91 is the floor of the exact
    product, or one more when the float product rounds up to a whole number,
    as for 25 markers and probSVD = 0.08. *)
Theorem rounded_products_within_one :
  forall (size : nat) (q : Q) (idx : list nat) (nSample : Z) (probSVD : Q),
    Z.of_nat size < 2 ^ 53 -> (0 < q)%Q -> (q <= 1)%Q ->
    Z.of_nat (length idx) < 2 ^ 24 -> 0 <= nSample ->
    (0 <= probSVD)%Q -> (probSVD <= 1)%Q ->
    (Qceiling (inject_Z (Z.of_nat size) * q) - 1 <= quantile_rank size q
     <= Qceiling (inject_Z (Z.of_nat size) * q)) /\
    (Qfloor (inject_Z (Z.min (Z.of_nat (length idx)) nSample) * probSVD)
     <= initial_K idx nSample probSVD
     <= Qfloor (inject_Z (Z.min (Z.of_nat (length idx)) nSample) * probSVD) + 1) /\
    (quantile_rank 10 (round_double (1 # 10)) = 1 /\
     Qceiling (inject_Z 10 * round_double (1 # 10)) = 2) /\
    (initial_K (seq 0 25) 100 (round_float (8 # 100)) = 2 /\
     Qfloor (inject_Z 25 * round_float (8 # 100)) = 1).
Proof.
  intros size q idx nSample probSVD Hsize Hq0 Hq1 Hidx Hn Hp0 Hp1.
  split; [apply quantile_rank_exact; assumption|].
  split; [apply initial_K_exact; assumption|].
  split; split; vm_compute; reflexivity.
Qed.

Lemma rounded_products_within_one_witness :
  (Qceiling (inject_Z (Z.of_nat 3) * (1 # 2)) - 1 <= quantile_rank 3 (1 # 2)
   <= Qceiling (inject_Z (Z.of_nat 3) * (1 # 2))) /\
  (Qfloor (inject_Z (Z.min (Z.of_nat (length [2; 5]%nat)) 100) * (1 # 2))
   <= initial_K [2; 5]%nat 100 (1 # 2)
   <= Qfloor (inject_Z (Z.min (Z.of_nat (length [2; 5]%nat)) 100) * (1 # 2)) + 1).
Proof.
  destruct (rounded_products_within_one 3 (1 # 2) [2; 5]%nat 100 (1 # 2))
    as [A [B _]].
  - reflexivity.
  - reflexivity.
  - discriminate.
  - reflexivity.
  - discriminate.
  - discriminate.
  - discriminate.
  - split; assumption.
Defined.

(* a zero row of A is a zero row of A * B *)
Lemma mat_mul_zero_row (A B : mat) (i j : nat) :
  (forall m, (m < n_cols A)%nat -> (elem A i m == 0)%Q) ->
  (elem (mat_mul A B) i j == 0)%Q.
Proof.
  intro H; unfold mat_mul; cbn [elem].
  apply sumQ_zero; intros m Hm.
  rewrite (H m Hm); ring.
Qed.

(* a target whose row of LD_it is zero has a zero row of beta *)
Lemma zero_row_imputes_zero eig_sym LD ref z n p j :
  (forall k, (k < length ref)%nat -> (elem LD j (nth k ref 0%nat) == 0)%Q) ->
  (computed_imputedZ eig_sym LD ref [j] z n p 0 == 0)%Q /\
  (computed_rsq eig_sym LD ref [j] n p 0 == 0)%Q.
Proof.
  intro Hrow.
  unfold computed_imputedZ, computed_rsq, rsq_eigen_of.
  destruct (eig_sym (gather_VV LD ref)) as [eigval eigvec].
  set (K := Z.to_nat (capped_K (initial_K ref n p) eigval eigvec)).
  assert (Hbeta : forall m,
             (elem (mat_mul (mat_mul (gather_LD_it LD ref [j]) (select_ui eigvec K))
                            (select_wi eigval eigvec K)) 0 m == 0)%Q).
  { intro m; apply mat_mul_zero_row; intros l _.
    apply mat_mul_zero_row; intros k Hk.
    apply (Hrow k Hk). }
  split; apply mat_mul_zero_row; intros m _; apply Hbeta.
Qed.

(** X9.  For a target marker whose LD entries with every reference marker
    are 0, a completed call of [oneIteration] stores an imputed statistic
    equal to 0 and an R-squared equal to 0, and the adjusted statistic is the
    observed one divided by sqrt(LDmat(j,j) - rsq[j]). *)
Theorem uncorrelated_target_keeps_statistic :
  forall eig_sym sqrt LD ref tgt z s n p s' j,
    oneIteration eig_sym sqrt LD ref tgt z s n p = Ok s' ->
    In j tgt ->
    (forall k, (k < length ref)%nat -> (elem LD j (nth k ref 0%nat) == 0)%Q) ->
    (j < length (imputedZ s'))%nat ->
    (j < length (rsq s'))%nat ->
    (j < length (zScore_e s'))%nat ->
    (nth j (imputedZ s') 0 == 0)%Q /\
    (nth j (rsq s') 0 == 0)%Q /\
    (nth j (zScore_e s') 0 == nth j z 0 / sqrt (elem LD j j - nth j (rsq s') 0))%Q.
Proof.
  intros eig_sym sqrt LD ref tgt z s n p s' j H Hj Hrow La Lb Lc.
  destruct (oneIteration_settles _ _ _ _ _ _ _ _ _ _ H j Hj) as [[A [B C]] _].
  destruct (zero_row_imputes_zero eig_sym LD ref z n p j Hrow) as [Z1 Z2].
  assert (Ea : (nth j (imputedZ s') 0 == 0)%Q) by (rewrite A; auto).
  repeat split; auto.
  - rewrite B; auto.
  - rewrite C by assumption.
    rewrite Ea; unfold Qdiv, Qminus.
    rewrite Qplus_0_r; reflexivity.
Qed.

Lemma uncorrelated_target_keeps_statistic_witness :
  exists s',
    oneIteration demo_eig_sym demo_sqrt (identity_mat 6) [2; 5]%nat [0; 1; 3; 4]%nat
                 (repeat 1%Q 6) demo_vecs 100 1 = Ok s' /\
    (nth 3 (imputedZ s') 0 == 0)%Q /\
    (nth 3 (rsq s') 0 == 0)%Q.
Proof.
  eexists; split; [vm_compute; reflexivity|].
  destruct (uncorrelated_target_keeps_statistic demo_eig_sym demo_sqrt (identity_mat 6)
              [2; 5]%nat [0; 1; 3; 4]%nat (repeat 1%Q 6) demo_vecs 100 1
              _ 3%nat ltac:(vm_compute; reflexivity)) as [A [B _]].
  - simpl; auto.
  - intros [|[|k]] Hk; simpl in Hk; try lia; reflexivity.
  - simpl; lia.
  - simpl; lia.
  - simpl; lia.
  - split; assumption.
Defined.

(** ** SignificanceClassifier and QCOrchestrator *)

Lemma Qsquare_opp (a : Q) : (Qopp a * Qopp a)%Q = (a * a)%Q.
Proof.
  destruct a as [n d]; unfold Qmult, Qopp; simpl.
  f_equal; lia.
Qed.

Lemma classify_labels chi2cdf log10 inp :
  length (classify chi2cdf log10 inp) = markerSize inp /\
  forall g, In g (classify chi2cdf log10 inp) -> g = 0%nat \/ g = 1%nat.
Proof.
  unfold classify; split.
  - rewrite length_map; apply length_seq.
  - intros g Hg; apply in_map_iff in Hg; destruct Hg as [i [<- _]].
    destruct (Qless _ _); auto.
Qed.

(** X10.  The group labels of lines 204-209 are one per marker, each 0 or
    1, and they depend on the square of the observed statistic only: changing
    the sign of every z-score leaves every label as it was. *)
Theorem labels_depend_on_squared_statistic :
  forall chi2cdf log10 LD M nS z pv p gc rounds thresh sd,
    length (classify chi2cdf log10 (mkInputs LD M nS z pv p gc rounds thresh sd)) = M /\
    (forall g,
        In g (classify chi2cdf log10 (mkInputs LD M nS z pv p gc rounds thresh sd)) ->
        g = 0%nat \/ g = 1%nat) /\
    classify chi2cdf log10 (mkInputs LD M nS (map Qopp z) pv p gc rounds thresh sd) =
    classify chi2cdf log10 (mkInputs LD M nS z pv p gc rounds thresh sd).
Proof.
  intros chi2cdf log10 LD M nS z pv p gc rounds thresh sd.
  destruct (classify_labels chi2cdf log10
              (mkInputs LD M nS z pv p gc rounds thresh sd)) as [Hlen Hlab].
  repeat split; auto.
  unfold classify; cbn [zScore markerSize groupingPvalue_thresh].
  apply map_ext; intro i; cbv zeta.
  assert (E : nth i (map Qopp z) 0%Q = Qopp (nth i z 0%Q))
    by (apply (map_nth Qopp z 0%Q)).
  rewrite E, Qsquare_opp; reflexivity.
Qed.

Section SurvivorCounts.

Variable stray : list nat -> nat -> nat.
Variable groupingGWAS : list nat.
Variable zScore_e : list Q.
Variables threshold1 threshold0 : Q.

Local Notation "'kept'" := (retained stray groupingGWAS zScore_e threshold1 threshold0).

(* over an active set without repeats, the loop of lines 249-256 adds 1 to
   iterID at the retained markers and nowhere else *)
Lemma survivors_exact l : forall acc iterID,
  NoDup l ->
  exists iterID',
    fold_left (survive_body stray groupingGWAS zScore_e threshold1 threshold0)
              l (acc, iterID) = (acc ++ filter kept l, iterID') /\
    length iterID' = length iterID /\
    forall j,
      (In j (filter kept l) -> (j < length iterID)%nat ->
       nth j iterID' 0 = nth j iterID 0 + 1) /\
      (~ In j (filter kept l) -> nth j iterID' 0 = nth j iterID 0).
Proof.
  induction l as [|i l IH]; intros acc iterID Hnd; simpl.
  - exists iterID; rewrite app_nil_r; repeat split; auto; contradiction.
  - inversion Hnd as [|? ? Hnotin Hnd']; subst.
    unfold survive_body at 2; fold (kept i); simpl fst; simpl snd.
    destruct (kept i) eqn:Ei.
    + destruct (IH (acc ++ [i]) (bump iterID i) Hnd') as [it [H1 [H2 H3]]].
      exists it; rewrite H1, H2, <- app_assoc.
      unfold bump at 1; rewrite store_length.
      repeat split; auto.
      * intros [<-|Hj] Hlt.
        -- destruct (H3 i) as [_ Hout].
           rewrite Hout by (intro Hin; apply filter_In in Hin; tauto).
           unfold bump; apply nth_store_same; assumption.
        -- destruct (H3 j) as [Hin _].
           rewrite Hin; [|assumption | unfold bump; rewrite store_length; assumption].
           unfold bump; rewrite nth_store_other; [reflexivity|].
           intros ->; apply filter_In in Hj; tauto.
      * intro Hj.
        destruct (H3 j) as [_ Hout].
        rewrite Hout by (intro Hin; apply Hj; right; assumption).
        unfold bump; apply nth_store_other.
        intros ->; apply Hj; left; reflexivity.
    + apply IH; assumption.
Qed.

End SurvivorCounts.

Lemma thresholds_nonneg stray vec_not (diff : list Q) (grouping_tmp : list nat) t t1 t0 :
  (forall d, In d diff -> (0 <= d)%Q) ->
  thresholds stray vec_not diff grouping_tmp = Ok (t, t1, t0) ->
  (0 <= t1)%Q /\ (0 <= t0)%Q.
Proof.
  intros Hpos; unfold thresholds.
  destruct (getQuantile diff q995) as [a|f]; [|discriminate]; cbn [bind].
  destruct (getQuantile2 stray diff grouping_tmp q995) as [b|f] eqn:E1;
    [|discriminate]; cbn [bind].
  destruct (getQuantile2 stray diff (vec_not grouping_tmp) q995) as [c|f] eqn:E0;
    [|discriminate]; cbn [bind].
  intro H; injection H as _ <- <-.
  split.
  - destruct (getQuantile2_member _ _ _ _ _ E1) as [->|Hin];
      [apply Qle_refl | apply Hpos, Hin].
  - destruct (getQuantile2_member _ _ _ _ _ E0) as [->|Hin];
      [apply Qle_refl | apply Hpos, Hin].
Qed.

Section RoundSteps.

Variable dist_rng : Z -> nat -> Z.
Variable stray : list nat -> nat -> nat.
Variable eig_sym : mat -> list Q * mat.
Variable sqrt : Q -> Q.
Variable chi2cdf : Q -> Q -> Q.
Variable log10 : Q -> Q.
Variable chisq : Z -> list Q.
Variable vec_not : list nat -> list nat.

(* a completed pass of the loop body, step by step, in terms of the
   vectors it ends with *)
Lemma round_steps fuel inp groupingGWAS t st st' :
  round dist_rng stray eig_sym sqrt chisq vec_not fuel inp groupingGWAS t st = Ok st' ->
  exists t1 t0,
    (0 <= t1)%Q /\ (0 <= t0)%Q /\
    fold_left (survive_body stray groupingGWAS (zScore_e (vecs st')) t1 t0)
              (fullIdx st) ([], iterID st)
    = (filter (retained stray groupingGWAS (zScore_e (vecs st')) t1 t0) (fullIdx st),
       iterID st') /\
    fullIdx st' =
      (if gcControl inp
       then filter (retained stray groupingGWAS (zScore_e (vecs st')) t1 t0) (fullIdx st)
            ++ gc_retained chisq inp t (zScore_e (vecs st')) (fullIdx st)
       else filter (retained stray groupingGWAS (zScore_e (vecs st')) t1 t0)
                   (fullIdx st)).
Proof.
  unfold round.
  destruct (oneIteration _ _ _ _ _ _ _ _ _) as [v1|f] eqn:E1; [|discriminate].
  cbn [bind].
  set (diff := map (fun j => Qabs (nth j (zScore_e v1) 0%Q)) (idx2 st)).
  set (grouping_tmp := map (fun j => vread stray groupingGWAS j) (idx2 st)).
  destruct (thresholds stray vec_not diff grouping_tmp) as [[[thr t1] t0]|f] eqn:Et;
    [|discriminate].
  cbn [bind].
  destruct (oneIteration eig_sym sqrt (LDmat inp) (idx st)
              (qc_targets (idx2 st) diff grouping_tmp t1 t0) _ _ _ _) as [v2|f];
    [|discriminate].
  cbn [bind].
  destruct (survivors stray groupingGWAS (zScore_e v2) t1 t0 (fullIdx st) [] (iterID st))
    as [it [Hfold _]].
  rewrite Hfold.
  destruct (generateSetOfNumbers _ _ _ _) as [ro|f]; [|discriminate].
  cbn [bind].
  destruct (bisect stray ro _ _) as [a b].
  intro H; injection H as <-; cbn [vecs fullIdx iterID].
  destruct (thresholds_nonneg stray vec_not diff grouping_tmp thr t1 t0) as [P1 P0];
    [|exact Et|].
  { intros d Hd; unfold diff in Hd; apply in_map_iff in Hd.
    destruct Hd as [j [<- _]]; apply Qabs_nonneg. }
  exists t1, t0; repeat split; auto.
Qed.

Lemma state_after_succ fuel inp n st' :
  state_after dist_rng stray eig_sym sqrt chi2cdf log10 chisq vec_not fuel inp (S n)
  = Ok st' ->
  exists st,
    state_after dist_rng stray eig_sym sqrt chi2cdf log10 chisq vec_not fuel inp n
    = Ok st /\
    round dist_rng stray eig_sym sqrt chisq vec_not fuel inp (classify chi2cdf log10 inp)
          (Z.of_nat n) st = Ok st'.
Proof.
  unfold state_after.
  destruct (init dist_rng stray fuel inp) as [st0|f]; [|discriminate].
  cbn [bind].
  replace (S n) with (n + 1)%nat by lia.
  rewrite rounds_app.
  destruct (rounds _ _ _ _ _ _ _ _ _ n 0 st0) as [st|f]; [|discriminate].
  cbn [bind rounds]; rewrite Z.add_0_l.
  destruct (round _ _ _ _ _ _ _ _ _ _ st) as [st1|f] eqn:Er; [|discriminate].
  cbn [bind]; intro H; injection H as <-.
  exists st; auto.
Qed.

(* the four per-marker vectors keep markerSize entries, and no entry of
   iterID is negative *)
Lemma state_lengths fuel inp n st :
  Z.of_nat (markerSize inp) < 2 ^ 32 ->
  state_after dist_rng stray eig_sym sqrt chi2cdf log10 chisq vec_not fuel inp n = Ok st ->
  length (imputedZ (vecs st)) = markerSize inp /\
  length (rsq (vecs st)) = markerSize inp /\
  length (zScore_e (vecs st)) = markerSize inp /\
  length (iterID st) = markerSize inp /\
  forall j, 0 <= nth j (iterID st) 0.
Proof.
  intros HM; unfold state_after.
  destruct (init dist_rng stray fuel inp) as [st0|f] eqn:E0; [|discriminate].
  cbn [bind]; intro H.
  destruct (init_partition dist_rng stray fuel inp st0 HM E0)
    as [_ [_ [_ [_ [Hv Hit]]]]].
  refine (rounds_invariant dist_rng stray eig_sym sqrt chisq vec_not
            (fun s => length (imputedZ (vecs s)) = markerSize inp /\
                      length (rsq (vecs s)) = markerSize inp /\
                      length (zScore_e (vecs s)) = markerSize inp /\
                      length (iterID s) = markerSize inp /\
                      forall j, 0 <= nth j (iterID s) 0)
            fuel inp _ _ n 0 st0 st H _).
  - intros t s s' Hr [L1 [L2 [L3 [L4 Hpos]]]].
    apply round_ok in Hr.
    destruct Hr as [v1 [qc [sv [it [H1 [_ [H2 [_ [_ [_ [Hit' [Hlen [Hmono _]]]]]]]]]]]]].
    destruct (oneIteration_frame _ _ _ _ _ _ _ _ _ _ H1) as [[A1 [A2 A3]] _].
    destruct (oneIteration_frame _ _ _ _ _ _ _ _ _ _ H2) as [[B1 [B2 B3]] _].
    repeat split; try congruence.
    intro j; rewrite Hit'; specialize (Hpos j); specialize (Hmono j); lia.
  - rewrite Hv, Hit; cbn [imputedZ rsq zScore_e].
    rewrite !repeat_length; repeat split; auto.
    intro j; destruct (Nat.lt_ge_cases j (markerSize inp)).
    + rewrite nth_repeat_lt by assumption; lia.
    + rewrite nth_overflow by (rewrite repeat_length; lia); lia.
Qed.

End RoundSteps.

(** X11.  When [dentist] returns, each of the five vectors of the result
    has one entry per marker, no survival count is negative, and every group
    label is 0 or 1. *)
Theorem output_vectors_cover_every_marker :
  forall dist_rng stray eig_sym sqrt chi2cdf log10 chisq vec_not fuel inp out,
    Z.of_nat (markerSize inp) < 2 ^ 32 ->
    dentist dist_rng stray eig_sym sqrt chi2cdf log10 chisq vec_not fuel inp = Ok out ->
    length (out_imputedZ out) = markerSize inp /\
    length (out_rsq out) = markerSize inp /\
    length (out_zScore_e out) = markerSize inp /\
    length (out_iterID out) = markerSize inp /\
    length (out_groupingGWAS out) = markerSize inp /\
    (forall j, 0 <= nth j (out_iterID out) 0) /\
    (forall g, In g (out_groupingGWAS out) -> g = 0%nat \/ g = 1%nat).
Proof.
  intros dist_rng stray eig_sym sqrt chi2cdf log10 chisq vec_not fuel inp out HM.
  unfold dentist.
  destruct (state_after _ _ _ _ _ _ _ _ _ _ _) as [st|f] eqn:E; [|discriminate].
  cbn [bind]; intro H; injection H as <-.
  cbn [out_imputedZ out_rsq out_zScore_e out_iterID out_groupingGWAS].
  destruct (state_lengths _ _ _ _ _ _ _ _ _ _ _ _ HM E) as [L1 [L2 [L3 [L4 Hpos]]]].
  destruct (classify_labels chi2cdf log10 inp) as [L5 Hlab].
  repeat split; auto.
Qed.

Lemma output_vectors_cover_every_marker_witness :
  exists out,
    dentist demo_rng demo_stray demo_eig_sym demo_sqrt demo_chi2cdf demo_log10
            demo_chisq lnot_each 5 (demo_inputs false 2) = Ok out /\
    length (out_imputedZ out) = 6%nat /\
    length (out_iterID out) = 6%nat.
Proof.
  eexists; split; [vm_compute; reflexivity|].
  destruct (output_vectors_cover_every_marker demo_rng demo_stray demo_eig_sym demo_sqrt
              demo_chi2cdf demo_log10 demo_chisq lnot_each 5 (demo_inputs false 2) _
              ltac:(reflexivity) ltac:(vm_compute; reflexivity))
    as [A [_ [_ [B _]]]].
  split; assumption.
Defined.

(** X12.  With gcControl off, after n completed rounds the active set
    fullIdx lists no marker twice, a marker of the active set has survival
    count exactly n, and every other marker has a count from 0 to n - 1:
    iterID[j] is the number of rounds marker j survived before it was
    dropped. *)
Theorem survival_count_marks_active_markers :
  forall dist_rng stray eig_sym sqrt chi2cdf log10 chisq vec_not fuel inp n st,
    Z.of_nat (markerSize inp) < 2 ^ 32 ->
    gcControl inp = false ->
    state_after dist_rng stray eig_sym sqrt chi2cdf log10 chisq vec_not fuel inp n = Ok st ->
    NoDup (fullIdx st) /\
    forall j, (j < markerSize inp)%nat ->
      (In j (fullIdx st) -> nth j (iterID st) 0 = Z.of_nat n) /\
      (~ In j (fullIdx st) -> 0 <= nth j (iterID st) 0 < Z.of_nat n).
Proof.
  intros dist_rng stray eig_sym sqrt chi2cdf log10 chisq vec_not fuel inp n st HM Hgc.
  revert st; induction n as [|n IH]; intros st H.
  - unfold state_after in H.
    destruct (init dist_rng stray fuel inp) as [st0|f] eqn:E0; [|discriminate].
    cbn [bind rounds] in H; injection H as <-.
    destruct (init_partition dist_rng stray fuel inp st0 HM E0)
      as [Hperm [_ [_ [_ [_ Hit]]]]].
    split.
    + eapply Permutation_NoDup; [apply Permutation_sym, Hperm | apply seq_NoDup].
    + intros j Hj; split.
      * intros _; rewrite Hit, nth_repeat_lt by assumption; reflexivity.
      * intro Hout; exfalso; apply Hout.
        eapply Permutation_in; [apply Permutation_sym, Hperm | apply in_seq; lia].
  - destruct (state_after_succ _ _ _ _ _ _ _ _ _ _ _ _ H) as [s [Hs Hr]].
    destruct (IH s Hs) as [Hnd Hcount].
    destruct (state_lengths _ _ _ _ _ _ _ _ _ _ _ _ HM Hs) as [_ [_ [_ [Hlen _]]]].
    destruct (round_steps _ _ _ _ _ _ _ _ _ _ _ _ Hr) as [t1 [t0 [_ [_ [Hfold Hfull]]]]].
    rewrite Hgc in Hfull.
    destruct (survivors_exact stray (classify chi2cdf log10 inp) (zScore_e (vecs st))
                t1 t0 (fullIdx s) [] (iterID s) Hnd) as [it [Hfold' [_ Hit]]].
    simpl app in Hfold'; rewrite Hfold in Hfold'; injection Hfold' as <-.
    split; [rewrite Hfull; apply NoDup_filter; assumption|].
    intros j Hj; rewrite Hfull.
    destruct (Hit j) as [Hin Hout].
    destruct (Hcount j Hj) as [Cin Cout].
    split.
    + intro Hjin; rewrite Hin by (auto; lia).
      apply filter_In in Hjin; rewrite Cin by tauto; lia.
    + intro Hjout; rewrite (Hout Hjout).
      destruct (in_dec Nat.eq_dec j (fullIdx s)) as [Hi|Hi].
      * rewrite (Cin Hi); lia.
      * specialize (Cout Hi); lia.
Qed.

Lemma survival_count_marks_active_markers_witness :
  exists st,
    state_after demo_rng demo_stray demo_eig_sym demo_sqrt demo_chi2cdf demo_log10
                demo_chisq lnot_each 5 (demo_inputs false 2) 2 = Ok st /\
    NoDup (fullIdx st) /\
    forall j, (j < 6)%nat ->
      (In j (fullIdx st) -> nth j (iterID st) 0 = 2) /\
      (~ In j (fullIdx st) -> 0 <= nth j (iterID st) 0 < 2).
Proof.
  eexists; split; [vm_compute; reflexivity|].
  apply (survival_count_marks_active_markers demo_rng demo_stray demo_eig_sym demo_sqrt
           demo_chi2cdf demo_log10 demo_chisq lnot_each 5 (demo_inputs false 2) 2).
  - reflexivity.
  - reflexivity.
  - vm_compute; reflexivity.
Defined.

Lemma zero_statistic_kept :
  forall dist_rng stray eig_sym sqrt chi2cdf log10 chisq vec_not fuel inp t st st' x,
    round dist_rng stray eig_sym sqrt chisq vec_not fuel inp (classify chi2cdf log10 inp)
          t st = Ok st' ->
    In x (fullIdx st) ->
    (x < markerSize inp)%nat ->
    (nth x (zScore_e (vecs st')) 0 == 0)%Q ->
    In x (fullIdx st').
Proof.
  intros dist_rng stray eig_sym sqrt chi2cdf log10 chisq vec_not fuel inp t st st' x
         Hr Hx HxM Hzero.
  destruct (round_steps _ _ _ _ _ _ _ _ _ _ _ _ Hr) as [t1 [t0 [P1 [P0 [_ Hfull]]]]].
  assert (Hkept : In x (filter (retained stray (classify chi2cdf log10 inp)
                                         (zScore_e (vecs st')) t1 t0) (fullIdx st))).
  { apply filter_In; split; [assumption|].
    unfold retained, within.
    destruct (classify_labels chi2cdf log10 inp) as [Hlen Hlab].
    rewrite vread_in_range by lia.
    assert (Hle : forall thr, (0 <= thr)%Q ->
               Qle_bool (Qabs (nth x (zScore_e (vecs st')) 0%Q)) thr = true).
    { intros thr Hthr; apply Qle_bool_iff.
      rewrite Hzero; exact Hthr. }
    rewrite (Hle t1 P1), (Hle t0 P0), !andb_true_r.
    destruct (Hlab (nth x (classify chi2cdf log10 inp) 0%nat)) as [-> | ->];
      [apply nth_In; lia | reflexivity | reflexivity]. }
  rewrite Hfull; destruct (gcControl inp); [apply in_or_app; left|]; assumption.
Qed.

(** X13.  No threshold is negative, so an active marker whose adjusted
    statistic is 0 when the round filters (as it is for a marker that has
    never been a target) passes the test of lines 251-252: it stays in the
    active set. *)
Theorem zero_statistic_markers_survive :
  forall dist_rng stray eig_sym sqrt chi2cdf log10 chisq vec_not fuel inp t st st' x,
    round dist_rng stray eig_sym sqrt chisq vec_not fuel inp (classify chi2cdf log10 inp)
          t st = Ok st' ->
    In x (fullIdx st) ->
    (x < markerSize inp)%nat ->
    (nth x (zScore_e (vecs st')) 0 == 0)%Q ->
    In x (fullIdx st').
Proof.
  intros; eapply zero_statistic_kept; eassumption.
Qed.

Lemma zero_statistic_markers_survive_witness :
  exists st',
    round demo_rng demo_stray demo_eig_sym demo_sqrt demo_chisq lnot_each 5
          (demo_inputs false 1) (classify demo_chi2cdf demo_log10 (demo_inputs false 1)) 0
          (mkState [] [4; 5]%nat [0; 1; 2; 3]%nat [0; 1; 2; 3; 4; 5]%nat
                   demo_vecs (repeat 0 6)) = Ok st' /\
    In 4%nat (fullIdx st').
Proof.
  eexists; split; [vm_compute; reflexivity|].
  eapply (zero_statistic_markers_survive demo_rng demo_stray demo_eig_sym demo_sqrt
            demo_chi2cdf demo_log10 demo_chisq lnot_each 5 (demo_inputs false 1) 0
            (mkState [] [4; 5]%nat [0; 1; 2; 3]%nat [0; 1; 2; 3; 4; 5]%nat
                     demo_vecs (repeat 0 6))).
  - vm_compute; reflexivity.
  - simpl; auto 10.
  - simpl; lia.
  - vm_compute; reflexivity.
Defined.

Lemma never_targeted_stays fuel dist_rng stray eig_sym sqrt chi2cdf log10 chisq vec_not
      inp x :
  (x < markerSize inp)%nat ->
  forall todo t st st',
    rounds dist_rng stray eig_sym sqrt chisq vec_not fuel inp (classify chi2cdf log10 inp)
           todo t st = Ok st' ->
    In x (fullIdx st) ->
    nth x (zScore_e (vecs st)) 0%Q = 0%Q ->
    ~ In x (targets dist_rng stray eig_sym sqrt chisq vec_not fuel inp
                    (classify chi2cdf log10 inp) todo t st) ->
    In x (fullIdx st') /\ nth x (zScore_e (vecs st')) 0%Q = 0%Q.
Proof.
  intros HxM todo; induction todo as [|todo IH]; intros t st st' H Hx Hz Hnot;
    simpl in H, Hnot.
  - injection H as <-; auto.
  - destruct (round _ _ _ _ _ _ _ _ _ _ _) as [st1|f] eqn:E; [|discriminate].
    cbn [bind] in H.
    assert (Hnow : ~ In x (idx2 st)) by (intro Hin; apply Hnot, in_or_app; auto).
    destruct (round_frame _ _ _ _ _ _ _ _ _ _ _ _ _ E Hnow) as [_ [_ Hze]].
    assert (Hz1 : nth x (zScore_e (vecs st1)) 0%Q = 0%Q) by congruence.
    eapply IH; [exact H | | exact Hz1 |].
    + eapply zero_statistic_kept; try eassumption.
      rewrite Hz1; reflexivity.
    + intro Hin; apply Hnot, in_or_app; auto.
Qed.

(** X15.  A marker that has been in no target set during the first n
    rounds is still in the active set after them: only markers that were
    imputed at some point can be dropped.  In particular the first round
    keeps its whole reference set. *)
Theorem never_targeted_markers_stay_active :
  forall dist_rng stray eig_sym sqrt chi2cdf log10 chisq vec_not fuel inp n st0 st x,
    Z.of_nat (markerSize inp) < 2 ^ 32 ->
    init dist_rng stray fuel inp = Ok st0 ->
    state_after dist_rng stray eig_sym sqrt chi2cdf log10 chisq vec_not fuel inp n = Ok st ->
    (x < markerSize inp)%nat ->
    ~ In x (targets dist_rng stray eig_sym sqrt chisq vec_not fuel inp
                    (classify chi2cdf log10 inp) n 0 st0) ->
    In x (fullIdx st).
Proof.
  intros dist_rng stray eig_sym sqrt chi2cdf log10 chisq vec_not fuel inp n st0 st x
         HM Hinit Hst HxM Hnot.
  unfold state_after in Hst; rewrite Hinit in Hst; cbn [bind] in Hst.
  destruct (init_partition dist_rng stray fuel inp st0 HM Hinit)
    as [Hperm [_ [_ [_ [Hv _]]]]].
  eapply (never_targeted_stays fuel dist_rng stray eig_sym sqrt chi2cdf log10 chisq
            vec_not inp x HxM n 0 st0 st Hst); auto.
  - eapply Permutation_in; [apply Permutation_sym, Hperm | apply in_seq; lia].
  - rewrite Hv; cbn [zScore_e]; apply nth_repeat.
Qed.

Lemma never_targeted_markers_stay_active_witness :
  exists st0 st,
    init demo_rng demo_stray 5 (demo_inputs false 1) = Ok st0 /\
    state_after demo_rng demo_stray demo_eig_sym demo_sqrt demo_chi2cdf demo_log10
                demo_chisq lnot_each 5 (demo_inputs false 1) 1 = Ok st /\
    In 2%nat (fullIdx st).
Proof.
  do 2 eexists; split; [vm_compute; reflexivity|].
  split; [vm_compute; reflexivity|].
  eapply (never_targeted_markers_stay_active demo_rng demo_stray demo_eig_sym demo_sqrt
            demo_chi2cdf demo_log10 demo_chisq lnot_each 5 (demo_inputs false 1) 1).
  - reflexivity.
  - vm_compute; reflexivity.
  - vm_compute; reflexivity.
  - simpl; lia.
  - vm_compute; intros [H|[H|[H|[H|H]]]]; try discriminate; contradiction.
Defined.

Lemma sorted_perm_nth_le (l1 l2 : list Q) :
  StronglySorted Qle l1 -> StronglySorted Qle l2 -> Permutation l1 l2 ->
  forall i, (i < length l1)%nat -> (nth i l2 0 <= nth i l1 0)%Q.
Proof.
  intros S1 S2 Hp i Hi.
  pose proof (Permutation_length Hp) as Hlen.
  destruct (Qlt_le_dec (nth i l1 0%Q) (nth i l2 0%Q)) as [Hlt|Hle]; [exfalso|exact Hle].
  set (a := nth i l1 0%Q) in *.
  assert (H1 : (S i <= length (filter (fun y => Qle_bool y a) l1))%nat).
  { apply (filter_prefix_count _ 0%Q); [lia|].
    intros k Hk; apply Qle_bool_iff, sorted_nth_le; [assumption | lia]. }
  assert (H2 : (length l2 - i <= length (filter (fun y => negb (Qle_bool y a)) l2))%nat).
  { apply (filter_suffix_count _ 0%Q).
    intros k Hk; apply negb_true_iff.
    destruct (Qle_bool (nth k l2 0%Q) a) eqn:E; [|reflexivity].
    apply Qle_bool_iff in E; exfalso.
    apply (Qlt_not_le _ _ Hlt).
    eapply Qle_trans; [|exact E].
    apply sorted_nth_le; [assumption | lia]. }
  pose proof (filter_length (fun y => Qle_bool y a) l2) as Hsum.
  rewrite (filter_length_perm (fun y => Qle_bool y a) _ _ Hp) in H1.
  lia.
Qed.

(** X16.  [getQuantile] does not depend on the order of its input: on a
    rearrangement of the data it returns an equal value, and throws when it
    threw before.  A threshold therefore does not depend on the order in which
    the target markers are listed. *)
Theorem getQuantile_ignores_order :
  forall (dat dat' : list Q) (q : Q),
    Permutation dat dat' ->
    (forall a, getQuantile dat q = Ok a ->
       exists b, getQuantile dat' q = Ok b /\ (a == b)%Q) /\
    (forall f, getQuantile dat q = Fail f -> getQuantile dat' q = Fail f).
Proof.
  intros dat dat' q Hp.
  pose proof (Permutation_length Hp) as Hlen.
  assert (Hps : Permutation (std_sort Qless dat) (std_sort Qless dat')).
  { eapply Permutation_trans; [apply std_sort_perm|].
    eapply Permutation_trans; [exact Hp | apply Permutation_sym, std_sort_perm]. }
  unfold getQuantile, vector_at.
  rewrite !std_sort_length, <- Hlen.
  set (pos := to_size_t _).
  assert (Hpos : 0 <= pos) by (apply Z.mod_pos_bound; reflexivity).
  destruct (pos <? Z.of_nat (length dat)) eqn:E.
  - apply Z.ltb_lt in E; split; [|discriminate].
    intros a Ha; injection Ha as <-.
    eexists; split; [reflexivity|].
    apply Qle_antisym.
    + apply sorted_perm_nth_le;
        [apply std_sort_sorted | apply std_sort_sorted | apply Permutation_sym, Hps|].
      rewrite std_sort_length; lia.
    + apply sorted_perm_nth_le;
        [apply std_sort_sorted | apply std_sort_sorted | exact Hps|].
      rewrite std_sort_length; lia.
  - split; [discriminate | auto].
Qed.

Lemma getQuantile_ignores_order_witness :
  exists b, getQuantile [1; 2; 3]%Q (1 # 2) = Ok b /\ (2 == b)%Q.
Proof.
  destruct (getQuantile_ignores_order [3; 1; 2]%Q [1; 2; 3]%Q (1 # 2)) as [Hok _].
  - apply (Permutation_cons_append [1; 2]%Q 3%Q).
  - apply Hok; vm_compute; reflexivity.
Defined.

(** X17.  With eigenvalues in ascending order, one per reference marker,
    the truncation rank never exceeds the number of reference markers, every
    column index n_rows - m - 1 of lines 128-132 is a valid position, and
    every eigenvalue that line 131 inverts is at least the tolerance 1e-4:
    [oneIteration] never divides by a discarded eigenvalue. *)
Theorem selected_eigenvalues_above_tolerance :
  forall eig_sym LD ref n p m,
    StronglySorted Qle (fst (eig_sym (gather_VV LD ref))) ->
    length (fst (eig_sym (gather_VV LD ref))) = length ref ->
    n_rows (snd (eig_sym (gather_VV LD ref))) = length ref ->
    Z.of_nat (length ref) < 2 ^ 31 ->
    (m < Z.to_nat (rank_K eig_sym LD ref n p))%nat ->
    rank_K eig_sym LD ref n p <= Z.of_nat (length ref) /\
    (tail_index (snd (eig_sym (gather_VV LD ref))) m
     < length (fst (eig_sym (gather_VV LD ref))))%nat /\
    (tolerance <=
     nth (tail_index (snd (eig_sym (gather_VV LD ref))) m)
         (fst (eig_sym (gather_VV LD ref))) 0)%Q.
Proof.
  intros eig_sym LD ref n p m Hsorted Hval Hvec Hsize; unfold rank_K.
  destruct (eig_sym (gather_VV LD ref)) as [eigval eigvec]; simpl in *.
  rewrite capped_K_small by (rewrite ?Hval, ?Hvec; auto).
  pose proof (effective_rank_count eigval) as Hcount.
  intro Hm.
  assert (Hidx : (count_below tolerance eigval <= tail_index eigvec m < length eigval)%nat)
    by (unfold tail_index; lia).
  repeat split; try lia.
  apply sorted_above_tolerance; assumption.
Qed.

Lemma selected_eigenvalues_above_tolerance_witness :
  rank_K demo_eig_sym (identity_mat 6) [2; 5]%nat 100 1 <= Z.of_nat (length [2; 5]%nat) /\
  (tail_index (snd (demo_eig_sym (gather_VV (identity_mat 6) [2; 5]%nat))) 1
   < length (fst (demo_eig_sym (gather_VV (identity_mat 6) [2; 5]%nat))))%nat /\
  (tolerance <=
   nth (tail_index (snd (demo_eig_sym (gather_VV (identity_mat 6) [2; 5]%nat))) 1)
       (fst (demo_eig_sym (gather_VV (identity_mat 6) [2; 5]%nat))) 0)%Q.
Proof.
  apply (selected_eigenvalues_above_tolerance demo_eig_sym (identity_mat 6) [2; 5]%nat
           100 1 1%nat).
  - repeat constructor; discriminate.
  - reflexivity.
  - reflexivity.
  - reflexivity.
  - vm_compute; lia.
Defined.
